(** * ParkSense: trail graph, shortest path and route scoring

    A shallow embedding of the routing and scoring core of ParkSense.

    The model:
    - [JsMap]: insertion-ordered maps and sets, as JavaScript's [Map] and
      [Set];
    - [TrailMap]: [buildTrailGraph], [dijkstra], [findNearestNode] and
      [calculateRouteDistance] of parksense-mobile-complete.js, generic
      in the number type;
    - [Geo]: the two great-circle distance functions, [haversine] (map
      module) and [calculateDistance] (route scorer), over the reals;
    - [ParkMap]: the trail graph code with real numbers and [haversine],
      and [planRoute];
    - [Scorer]: the class [RouteScorer] of route-scoring.js, over the
      rationals;
    - [Layers]: the filters of the map layers, [filterGeoJSONFeatures],
      the geographic step of [reloadPOI] and [limitFeatures];
    - [Double], [Scorer64], [Geo64]: binary64 numbers, and [adjustWeights]
      and the two distance functions computed with them;
    - [Scenarios], [Scenarios64]: concrete inputs.

    Then the facts about the model, one module per part, the properties
    of the specification, [C1] to [C10], and further properties of the
    code, [X1] to [X28].

    Numbers.  JavaScript numbers are IEEE-754 doubles.  The scorer is
    modelled over exact rationals ([Q]) and the great-circle formulas
    over the reals ([R]); what is stated of them either does not depend
    on the rounding of doubles (an order, a range, a structure) or says
    that it is a statement of exact arithmetic.  Where a property of the
    code depends on the rounding, the code is modelled in binary64
    ([Scorer64], [Geo64]), and the search for a shortest path is proved
    for every ordered arithmetic.  The places where the source can
    produce [NaN], [Infinity] or [undefined] are modelled explicitly
    where they occur (see [dist], [gtUndef] and [areRoutesSimilar]); a
    lookup that finds a member of [Object.prototype] is outside the model
    of the scores (see [plainNames]). *)

From Stdlib Require Import Ascii String Bool Arith ZArith Lia.
From Stdlib Require Import QArith Qround Qminmax Qabs Lqa Permutation Sorted.
From Stdlib Require Import DecimalString DecimalNat.
From Stdlib Require Import Reals Lra.
From Stdlib Require PrimFloat FloatOps.
From Stdlib Require Import List.
Import ListNotations.

Set Implicit Arguments.

(** ** Completions

    A call either returns a value or throws.  [OutOfFuel] is not a
    JavaScript outcome: it marks a run of a fuelled loop of the model that
    was given too little fuel, and is never equal to a returned value. *)

Inductive jserror : Type := TypeError.

Inductive completion (A : Type) : Type :=
| Returns (a : A)
| Throws (e : jserror)
| OutOfFuel.

Arguments Returns {A} a.
Arguments Throws {A} e.
Arguments OutOfFuel {A}.

(** ** Insertion-ordered maps and sets

    A JavaScript [Map] iterates in insertion order, and [set] on a key
    that is already present keeps its position.  [Set] likewise. *)

Module JsMap.
Section Ops.
Context {V : Type}.

Definition t := list (string * V).

Fixpoint map_get (k : string) (m : t) : option V :=
  match m with
  | [] => None
  | (k', v) :: m' => if String.eqb k k' then Some v else map_get k m'
  end.

Definition map_has (k : string) (m : t) : bool :=
  match map_get k m with Some _ => true | None => false end.

Fixpoint map_set (k : string) (v : V) (m : t) : t :=
  match m with
  | [] => [(k, v)]
  | (k', v') :: m' =>
        if String.eqb k k' then (k, v) :: m' else (k', v') :: map_set k v m'
  end.

Definition map_keys (m : t) : list string := map fst m.

(** [m.values()], in insertion order. *)
Definition map_values (m : t) : list V := map snd m.

Definition map_size (m : t) : nat := length m.
End Ops.
Arguments t : clear implicits.

Definition set_t := list string.

Fixpoint set_has (k : string) (s : set_t) : bool :=
  match s with
  | [] => false
  | k' :: s' => if String.eqb k k' then true else set_has k s'
  end.

Definition set_add (k : string) (s : set_t) : set_t :=
  if set_has k s then s else s ++ [k].

Fixpoint set_delete (k : string) (s : set_t) : set_t :=
  match s with
  | [] => []
  | k' :: s' => if String.eqb k k' then s' else k' :: set_delete k s'
  end.

End JsMap.

(** ** The trail graph and the shortest-path search
    (parksense-mobile-complete.js)

    The code is generic in the number type [num]: [haversine] is the
    great-circle distance used for edge weights, [num_lt], [num_add] and
    [num_zero] are [<], [+] and [0] on finite numbers.  [Geo.haversine]
    below is the source's distance function over the reals. *)

Module TrailMap.
Import JsMap.

Section Generic.
Variable num : Type.
Variable haversine : num * num -> num * num -> num.
Variable num_lt : num -> num -> bool.
Variable num_add : num -> num -> num.
Variable num_zero : num.

(** A node object [{id, latlng, adj}]; [latlng] is the array [[lat, lng]]. *)
Record Node : Type := {
  id : string;
  latlng : num * num;
  adj : JsMap.t num
}.

Record Edge : Type := {
  from : string;
  to : string;
  weight : num
}.

(** [graph.nodes] is a [Map] from id to node object.  Node objects are
    shared between [graph.nodes] and the builder's local array [nodes]; as
    every node is stored under its own id, the map doubles as the store of
    the node objects and a reference to a node is its id. *)
Record Graph : Type := {
  nodes : JsMap.t Node;
  edges : list Edge
}.

(** A GeoJSON geometry: [coordinates] of a line is a list of positions
    [[lng, lat]], here pairs [(coord[0], coord[1])]. *)
Record Geometry : Type := {
  type : string;
  coordinates : list (num * num)
}.

(** A GeoJSON feature; its geometry may be [null]. *)
Record Feature : Type := {
  geometry : option Geometry
}.

(** The template literal [`node_${nodeId++}`]. *)
Definition node_name (nodeId : nat) : string :=
  ("node_" ++ NilEmpty.string_of_uint (Nat.to_uint nodeId))%string.

(** An element of the local array [nodes]: the reference (id) of the node
    object together with its immutable [latlng]. *)
Definition NodeRef : Type := (string * (num * num))%type.

(** [coords.forEach(coord => { ... })]: one fresh node per coordinate. *)
Fixpoint add_coords (coords : list (num * num)) (g : Graph) (nodeId : nat)
    (nodes_arr : list NodeRef) : Graph * nat * list NodeRef :=
  match coords with
  | [] => (g, nodeId, nodes_arr)
  | coord :: rest =>
      let ll := (snd coord, fst coord) in
      let i := node_name nodeId in
      let node := {| id := i; latlng := ll; adj := [] |} in
      add_coords rest
        {| nodes := map_set i node (nodes g); edges := edges g |}
        (S nodeId) (nodes_arr ++ [(i, ll)])
  end.

(** [node.adj.set(k, d)] on the node object referenced by [a]. *)
Definition adj_set (a k : string) (d : num) (ns : JsMap.t Node) : JsMap.t Node :=
  match map_get a ns with
  | Some n => map_set a {| id := id n; latlng := latlng n; adj := map_set k d (adj n) |} ns
  | None => ns
  end.

(** The body of the [for] loop over consecutive nodes of one line. *)
Definition link (g : Graph) (nodeA nodeB : NodeRef) : Graph :=
  let distance := haversine (snd nodeA) (snd nodeB) in
  {| nodes := adj_set (fst nodeB) (fst nodeA) distance
                (adj_set (fst nodeA) (fst nodeB) distance (nodes g));
     edges := edges g ++ [{| from := fst nodeA; to := fst nodeB; weight := distance |}] |}.

(** [for (let i = 0; i < nodes.length - 1; i++)] with [nodes[i]] and
    [nodes[i + 1]]. *)
Fixpoint connect (nodes_arr : list NodeRef) (g : Graph) : Graph :=
  match nodes_arr with
  | nodeA :: ((nodeB :: _) as rest) => connect rest (link g nodeA nodeB)
  | _ => g
  end.

(** The callback of [trailFeatures.forEach]; reading [type] of a [null]
    geometry throws. *)
Definition add_feature (st : Graph * nat) (feature : Feature) : completion (Graph * nat) :=
  match geometry feature with
  | None => Throws TypeError
  | Some geom =>
      if String.eqb (type geom) "LineString" then
        let '(g, nodeId, nodes_arr) := add_coords (coordinates geom) (fst st) (snd st) [] in
        Returns (connect nodes_arr g, nodeId)
      else Returns st
  end.

Fixpoint add_features (fs : list Feature) (st : Graph * nat) : completion (Graph * nat) :=
  match fs with
  | [] => Returns st
  | f :: fs' =>
      match add_feature st f with
      | Returns st' => add_features fs' st'
      | Throws e => Throws e
      | OutOfFuel => OutOfFuel
      end
  end.

Definition buildTrailGraph (trailFeatures : list Feature) : completion Graph :=
  match add_features trailFeatures ({| nodes := []; edges := [] |}, 0%nat) with
  | Returns (graph, _) => Returns graph
  | Throws e => Throws e
  | OutOfFuel => OutOfFuel
  end.

(** *** dijkstra *)

(** A distance estimate: a finite number, [Infinity], or [NaN] (which is
    also how an [undefined] read from a [Map] behaves under [<] and [+]). *)
Inductive dist : Type :=
| Finite (x : num)
| Infinity
| NaN.

Definition dist_lt (a b : dist) : bool :=
  match a, b with
  | Finite x, Finite y => num_lt x y
  | Finite _, Infinity => true
  | _, _ => false
  end.

Definition dist_add (a : dist) (w : num) : dist :=
  match a with
  | Finite x => Finite (num_add x w)
  | Infinity => Infinity
  | NaN => NaN
  end.

Definition is_Infinity (d : dist) : bool :=
  match d with Infinity => true | _ => false end.

(** [distances.get(k)]. *)
Definition getD (k : string) (distances : JsMap.t dist) : dist :=
  match map_get k distances with Some d => d | None => NaN end.

(** Truthiness of a string (a node id): every string but the empty one. *)
Definition truthy (s : string) : bool := negb (String.eqb s "").

Record State : Type := {
  distances : JsMap.t dist;
  previous : JsMap.t string;
  unvisited : set_t
}.

(** The initialising [for ... of trailGraph.nodes.keys()] and
    [distances.set(startId, 0)]. *)
Definition init (g : Graph) (startId : string) : State :=
  let st := fold_left
              (fun (st : JsMap.t dist * set_t) nodeId =>
                 (map_set nodeId Infinity (fst st), set_add nodeId (snd st)))
              (map_keys (nodes g)) ([], []) in
  {| distances := map_set startId (Finite num_zero) (fst st);
     previous := [];
     unvisited := snd st |}.

(** The scan for the unvisited node of least estimate: the pair
    [(current, minDist)] after the inner [for]. *)
Definition select (ds : JsMap.t dist) (unv : set_t) : option string * dist :=
  fold_left
    (fun (acc : option string * dist) nodeId =>
       if dist_lt (getD nodeId ds) (snd acc)
       then (Some nodeId, getD nodeId ds)
       else acc)
    unv (None, Infinity).

(** The relaxation of the neighbours of [current]. *)
Definition relax (current : string) (adjacency : JsMap.t num) (unv : set_t)
    (ds : JsMap.t dist) (prev : JsMap.t string) : JsMap.t dist * JsMap.t string :=
  fold_left
    (fun (acc : JsMap.t dist * JsMap.t string) (entry : string * num) =>
       let '(neighborId, w) := entry in
       if set_has neighborId unv then
         let alt := dist_add (getD current (fst acc)) w in
         if dist_lt alt (getD neighborId (fst acc))
         then (map_set neighborId alt (fst acc), map_set neighborId current (snd acc))
         else acc
       else acc)
    adjacency (ds, prev).

(** [while (unvisited.size > 0) { ... }].  Every iteration that does not
    leave the loop deletes one id from [unvisited]. *)
Fixpoint main_loop (fuel : nat) (g : Graph) (endId : string) (st : State) : completion State :=
  match unvisited st with
  | [] => Returns st
  | _ :: _ =>
      match fuel with
      | O => OutOfFuel
      | S fuel' =>
          match select (distances st) (unvisited st) with
          | (None, _) => Returns st
          | (Some current, minDist) =>
              if negb (truthy current) || is_Infinity minDist then Returns st
              else
                let unv := set_delete current (unvisited st) in
                if String.eqb current endId
                then Returns {| distances := distances st; previous := previous st; unvisited := unv |}
                else
                  match map_get current (nodes g) with
                  | None => Throws TypeError
                  | Some currentNode =>
                      let '(ds, prev) := relax current (adj currentNode) unv
                                           (distances st) (previous st) in
                      main_loop fuel' g endId
                        {| distances := ds; previous := prev; unvisited := unv |}
                  end
          end
      end
  end.

(** [while (current) { path.unshift(current); current = previous.get(current); }] *)
Fixpoint walk_back (fuel : nat) (prev : JsMap.t string) (current : option string)
    (path : list string) : completion (list string) :=
  match current with
  | None => Returns path
  | Some c =>
      if truthy c then
        match fuel with
        | O => OutOfFuel
        | S fuel' => walk_back fuel' prev (map_get c prev) (c :: path)
        end
      else Returns path
  end.

(** [dijkstra(startId, endId)]; the global [trailGraph] is an argument.
    [None] is the returned [null].  The loop deletes a node per iteration
    and the walk back meets every node at most once, so the number of
    unvisited nodes, and one more than the number of nodes, are fuel
    enough ([dijkstra_returns]). *)
Definition dijkstra (trailGraph : option Graph) (startId endId : string)
    : completion (option (list string)) :=
  match trailGraph with
  | None => Returns None
  | Some g =>
      let st0 := init g startId in
      match main_loop (List.length (unvisited st0)) g endId st0 with
      | Returns st =>
          match walk_back (S (map_size (nodes g))) (previous st) (Some endId) [] with
          | Returns path =>
              Returns (if (1 <? List.length path)%nat then Some path else None)
          | Throws e => Throws e
          | OutOfFuel => OutOfFuel
          end
      | Throws e => Throws e
      | OutOfFuel => OutOfFuel
      end
  end.

(** *** findNearestNode and calculateRouteDistance *)

(** [findNearestNode(latlng)]; the global [trailGraph] is an argument and
    [None] is the returned [null].  The fold threads the pair
    [(nearest, minDist)] through [for (const node of
    trailGraph.nodes.values())]. *)
Definition findNearestNode (trailGraph : option Graph) (latlng_ : num * num) : option Node :=
  match trailGraph with
  | None => None
  | Some g =>
      if (map_size (nodes g) =? 0)%nat then None
      else
        fst (fold_left
               (fun (acc : option Node * dist) (node : Node) =>
                  let d := Finite (haversine latlng_ (latlng node)) in
                  if dist_lt d (snd acc) then (Some node, d) else acc)
               (map_values (nodes g)) (None, Infinity))
  end.

(** The loop of [calculateRouteDistance]: [total += haversine(coords[i],
    coords[i + 1])] for every [i] below [coords.length - 1]. *)
Fixpoint add_legs (coords : list (num * num)) (total : num) : num :=
  match coords with
  | p :: ((q :: _) as rest) => add_legs rest (num_add total (haversine p q))
  | _ => total
  end.

Definition calculateRouteDistance (coords : list (num * num)) : num :=
  add_legs coords num_zero.

(** *** Vocabulary of the specification *)

(** What the scan for the least estimate can return: nothing, or an id
    together with its own, finite, estimate. *)
Definition select_result (ds : JsMap.t dist) (r : option string * dist) : Prop :=
  r = (None, Infinity) \/
  exists c x, r = (Some c, Finite x) /\ getD c ds = Finite x.

(** [order] lists the nodes visited so far, newest first.  The rank of a
    node is the number of nodes visited up to and including it, and 0
    when it has not been visited. *)
Fixpoint visit_rank (order : list string) (k : string) : nat :=
  match order with
  | [] => 0
  | x :: rest => if String.eqb x k then S (List.length rest) else visit_rank rest k
  end.

(** Every predecessor was visited, and before the node it precedes. *)
Definition walkable (g : Graph) (prev : JsMap.t string) (order : list string) : Prop :=
  (List.length order <= map_size (nodes g))%nat /\
  forall k p, map_get k prev = Some p ->
              (0 < visit_rank order p)%nat /\
              ((0 < visit_rank order k)%nat -> (visit_rank order p < visit_rank order k)%nat).

(** The invariant of the search loop. *)
Definition searching (g : Graph) (st : State) (order : list string) : Prop :=
  NoDup (unvisited st) /\
  (forall k, In k (unvisited st) ->
             visit_rank order k = 0%nat /\ map_get k (nodes g) <> None) /\
  (List.length order + List.length (unvisited st) <= map_size (nodes g))%nat /\
  forall k p, map_get k (previous st) = Some p ->
              (0 < visit_rank order p)%nat /\
              ((0 < visit_rank order k)%nat -> (visit_rank order p < visit_rank order k)%nat).

(** The ids handed out so far, in order. *)
Definition names (n : nat) : list string := map node_name (seq 0 n).

(** An edge is mirrored when both endpoints are nodes of the graph and
    each lists the other in its adjacency with the weight of the edge. *)
Definition mirrored (ns : JsMap.t Node) (e : Edge) : Prop :=
  exists a b,
    map_get (from e) ns = Some a /\ map_get (to e) ns = Some b /\
    map_get (to e) (adj a) = Some (weight e) /\
    map_get (from e) (adj b) = Some (weight e).

(** Both endpoints are among the first [m] ids. *)
Definition below (m : nat) (e : Edge) : Prop :=
  exists i j, (i < m)%nat /\ (j < m)%nat /\ from e = node_name i /\ to e = node_name j.

(** The node stored under [x] after [adj_set a k d]. *)
Definition adj_after (a k : string) (d : num) (x : string) (n : Node) : Node :=
  if String.eqb x a
  then {| id := id n; latlng := latlng n; adj := map_set k d (adj n) |}
  else n.

(** The invariant of the build: the keys of [nodes] are the ids handed
    out so far, and every edge joins two of them and is mirrored. *)
Definition built (g : Graph) (n : nat) : Prop :=
  map_keys (nodes g) = names n /\
  forall e, In e (edges g) -> below n e /\ mirrored (nodes g) e.

(** The coordinates a feature contributes: those of a line, none of any
    other geometry. *)
Definition line_coords (f : Feature) : list (num * num) :=
  match geometry f with
  | Some geom => if String.eqb (type geom) "LineString" then coordinates geom else []
  | None => []
  end.

Definition has_geometry (f : Feature) : Prop := geometry f <> None.

(** *** What the builder charts *)

(** All the coordinates of the lines among the features, in order. *)
Definition all_coords (fs : list Feature) : list (num * num) :=
  concat (map line_coords fs).

(** The position [[lat, lng]] of a GeoJSON coordinate [[lng, lat]]. *)
Definition position (coord : num * num) : num * num := (snd coord, fst coord).

(** The node made of the [i]-th coordinate: stored under [node_i], with
    that id and the position of the coordinate. *)
Definition node_at (g : Graph) (i : nat) (coord : num * num) : Prop :=
  exists node,
    map_get (node_name i) (nodes g) = Some node /\
    id node = node_name i /\ latlng node = position coord.

(** An edge of a line: it leads from the node of a coordinate to the node
    of the next one, both among the coordinates [lo .. hi - 1], and
    weighs the distance between their positions. *)
Definition leg (coords : list (num * num)) (lo hi : nat) (e : Edge) : Prop :=
  exists i ci cj,
    (lo <= i)%nat /\ (S i < hi)%nat /\
    from e = node_name i /\ to e = node_name (S i) /\
    nth_error coords i = Some ci /\ nth_error coords (S i) = Some cj /\
    weight e = haversine (position ci) (position cj).

(** Every adjacency entry comes from an edge between the two nodes. *)
Definition adjacency_from_edges (g : Graph) : Prop :=
  forall a node b w,
    map_get a (nodes g) = Some node -> In (b, w) (adj node) ->
    exists e, In e (edges g) /\ weight e = w /\
              ((from e = a /\ to e = b) \/ (from e = b /\ to e = a)).

(** The graph after the builder has consumed the coordinates [coords]. *)
Definition charted (g : Graph) (coords : list (num * num)) : Prop :=
  map_keys (nodes g) = names (List.length coords) /\
  (forall i c, nth_error coords i = Some c -> node_at g i c) /\
  adjacency_from_edges g.

(** The elements of the local array [nodes] for the coordinates from
    [s] on. *)
Definition refers (coords : list (num * num)) (s : nat) (refs : list NodeRef) : Prop :=
  forall k r, nth_error refs k = Some r ->
              exists c, nth_error coords (s + k) = Some c /\
                        r = (node_name (s + k), position c).

(** *** Walks and what the search records *)

(** The adjacency of node [a] holds the entry [b -> w]. *)
Definition arc (g : Graph) (a b : string) (w : num) : Prop :=
  exists node, map_get a (nodes g) = Some node /\ In (b, w) (adj node).

(** [walk g s e path t]: [path] lists the nodes of a walk from [s] to [e]
    along adjacency entries, and [t] is the sum of their weights, added
    up from the start as the search adds them. *)
Inductive walk (g : Graph) (s : string) : string -> list string -> num -> Prop :=
| walk_start : walk g s s [s] num_zero
| walk_step (b c : string) (path : list string) (t w : num) :
    walk g s b path t -> arc g b c w -> walk g s c (path ++ [c]) (num_add t w).

(** The state after the body of the loop has visited [current]. *)
Definition visit (current : string) (currentNode : Node) (st : State) : State :=
  let unv := set_delete current (unvisited st) in
  let r := relax current (adj currentNode) unv (distances st) (previous st) in
  {| distances := fst r; previous := snd r; unvisited := unv |}.

(** The ways the loop is left in state [st0] with result [st']: no node
    is unvisited; the scan finds no node of finite estimate; it finds a
    node with an empty id; or it finds the target, which is deleted from
    [unvisited] before the [break]. *)
Definition leaves (endId : string) (st0 st' : State) : Prop :=
  (unvisited st0 = [] /\ st' = st0) \/
  (exists d, select (distances st0) (unvisited st0) = (None, d) /\ st' = st0) \/
  (exists c d, select (distances st0) (unvisited st0) = (Some c, d) /\
               truthy c = false /\ st' = st0) \/
  (exists d, select (distances st0) (unvisited st0) = (Some endId, d) /\
             truthy endId = true /\
             st' = {| distances := distances st0; previous := previous st0;
                      unvisited := set_delete endId (unvisited st0) |}).

(** What the search has recorded, at every turn of its loop.  The start
    keeps the estimate 0 and gets no predecessor, and it is the only node
    of finite estimate until it has been visited.  A predecessor [p] of
    [k] is a visited node with a non-empty id whose adjacency holds [k],
    and the estimate of [k] is that of [p] plus the weight of that entry.
    Every node of finite estimate is the start or has a predecessor. *)
Definition tracing (g : Graph) (startId : string) (st : State) : Prop :=
  NoDup (unvisited st) /\
  getD startId (distances st) = Finite num_zero /\
  map_get startId (previous st) = None /\
  (In startId (unvisited st) ->
   forall k x, getD k (distances st) = Finite x -> k = startId) /\
  (forall k, In k (unvisited st) -> map_get k (nodes g) <> None) /\
  (forall k p, map_get k (previous st) = Some p ->
     truthy p = true /\ ~ In p (unvisited st) /\ map_get k (nodes g) <> None /\
     exists y w, getD p (distances st) = Finite y /\ arc g p k w /\
                 getD k (distances st) = Finite (num_add y w)) /\
  (forall k x, getD k (distances st) = Finite x ->
     k = startId \/ map_get k (previous st) <> None).

(** *** Shortest walks, for an ordered arithmetic

    What the search needs of the numbers to return a shortest walk: a
    total order [num_le] that [<] decides, and an addition that keeps the
    order and under which adding a weight that is not negative never
    lowers a sum.  Real arithmetic has these properties, and so have the
    doubles from 0 on, among which the sums of weights that are not
    negative stay as long as they do not overflow: rounding is monotone.
    Nothing is asked of the associativity of [+]. *)

Variable num_le : num -> num -> Prop.

Record ordered_arithmetic : Prop := {
  ord_refl : forall a, num_le a a;
  ord_trans : forall a b c, num_le a b -> num_le b c -> num_le a c;
  ord_lt : forall a b, num_lt a b = true -> num_le a b;
  ord_not_lt : forall a b, num_lt a b = false -> num_le b a;
  ord_add : forall a b w, num_le a b -> num_le (num_add a w) (num_add b w);
  ord_grow : forall a w, num_le num_zero w -> num_le a (num_add a w)
}.

Definition no_negative_weight (g : Graph) : Prop :=
  forall a b w, arc g a b w -> num_le num_zero w.

(** No node has the empty string for id (the search takes an empty id
    for "no node"). *)
Definition no_empty_id (g : Graph) : Prop :=
  map_get EmptyString (nodes g) = None.

(** A node of the graph that the search has visited. *)
Definition visited (g : Graph) (st : State) (v : string) : Prop :=
  map_get v (nodes g) <> None /\ ~ In v (unvisited st).

(** What the estimates satisfy at every turn of the loop, when no weight
    is negative: no estimate of a node is [NaN]; a visited node has a
    finite estimate, not above that of any unvisited node; and no entry
    of the adjacency of a visited node undercuts the estimate of the node
    it leads to. *)
Definition settled (g : Graph) (st : State) : Prop :=
  (forall k, map_get k (nodes g) <> None -> getD k (distances st) <> NaN) /\
  (forall v, visited g st v -> exists y, getD v (distances st) = Finite y) /\
  (forall v u x,
      visited g st v -> In u (unvisited st) ->
      getD u (distances st) = Finite x ->
      exists y, getD v (distances st) = Finite y /\ num_le y x) /\
  (forall v u y w,
      visited g st v -> getD v (distances st) = Finite y ->
      arc g v u w -> map_get u (nodes g) <> None ->
      exists x, getD u (distances st) = Finite x /\ num_le x (num_add y w)).

(** The estimate of the target in the state the loop is left in is a
    lower bound of the weight of every walk to it, and is finite when
    there is a walk. *)
Definition target_settled (g : Graph) (s e : string) (st : State) : Prop :=
  (forall x path t,
      getD e (distances st) = Finite x -> walk g s e path t -> num_le x t) /\
  (forall path t,
      walk g s e path t -> exists x, getD e (distances st) = Finite x).

End Generic.

Arguments has_geometry {num} f.
Arguments line_coords {num} f.

End TrailMap.

(** ** Great-circle distance, over the reals

    [Math.sin], [Math.cos], [Math.sqrt] and [Math.PI] are the real
    functions and constant of the same name; [Math.atan2] is defined from
    [atan] by quadrant.  ([sqrt] of a negative real is [0] here and [NaN]
    in JavaScript; both functions below pass it the same arguments.) *)

Module Geo.
Local Open Scope R_scope.

Definition Math_atan2 (y x : R) : R :=
  if Rlt_dec 0 x then atan (y / x)
  else if Rlt_dec x 0 then
    (if Rle_dec 0 y then atan (y / x) + PI else atan (y / x) - PI)
  else if Rlt_dec 0 y then PI / 2
  else if Rlt_dec y 0 then - (PI / 2)
  else 0.

(** [haversine(p1, p2)] of the map module; a point is the array
    [[lat, lng]], here the pair [(p[0], p[1])]. *)
Definition haversine (p1 p2 : R * R) : R :=
  let earthR := 6371000 in
  let lat1 := fst p1 * PI / 180 in
  let lng1 := snd p1 * PI / 180 in
  let lat2 := fst p2 * PI / 180 in
  let lng2 := snd p2 * PI / 180 in
  let dlat := lat2 - lat1 in
  let dlng := lng2 - lng1 in
  let A := sin (dlat / 2) ^ 2 + cos lat1 * cos lat2 * sin (dlng / 2) ^ 2 in
  2 * earthR * Math_atan2 (sqrt A) (sqrt (1 - A)).

Record LatLng : Type := { lat : R; lng : R }.

(** [RouteScorer.calculateDistance(point1, point2)]; a point is the
    object [{lat, lng}]. *)
Definition calculateDistance (point1 point2 : LatLng) : R :=
  let earthR := 6371000 in
  let phi1 := lat point1 * PI / 180 in
  let phi2 := lat point2 * PI / 180 in
  let dphi := (lat point2 - lat point1) * PI / 180 in
  let dlambda := (lng point2 - lng point1) * PI / 180 in
  let a := sin (dphi / 2) * sin (dphi / 2) +
           cos phi1 * cos phi2 * sin (dlambda / 2) * sin (dlambda / 2) in
  let c := 2 * Math_atan2 (sqrt a) (sqrt (1 - a)) in
  earthR * c.

(** The object [{lat, lng}] that names the same point as the array
    [[lat, lng]]. *)
Definition point_of_array (p : R * R) : LatLng := {| lat := fst p; lng := snd p |}.

End Geo.

(** ** The map module at the reals

    The functions of parksense-mobile-complete.js as the page runs them:
    numbers are reals and edge weights are [Geo.haversine] distances. *)

Module ParkMap.

Definition Rltb (a b : R) : bool := if Rlt_dec a b then true else false.

Definition Graph : Type := TrailMap.Graph R.

Definition Feature : Type := TrailMap.Feature R.

Definition buildTrailGraph (trailFeatures : list Feature) : completion Graph :=
  TrailMap.buildTrailGraph Geo.haversine trailFeatures.

Definition dijkstra (trailGraph : option Graph) (startId endId : string)
    : completion (option (list string)) :=
  TrailMap.dijkstra Rltb Rplus 0%R trailGraph startId endId.

(** The feature of a line with the given coordinates [[lng, lat]]. *)
Definition lineString (coords : list (R * R)) : Feature :=
  {| TrailMap.geometry :=
       Some {| TrailMap.type := "LineString"; TrailMap.coordinates := coords |} |}.

Definition findNearestNode (trailGraph : option Graph) (latlng_ : R * R)
    : option (TrailMap.Node R) :=
  TrailMap.findNearestNode Geo.haversine Rltb trailGraph latlng_.

Definition calculateRouteDistance (coords : list (R * R)) : R :=
  TrailMap.calculateRouteDistance Geo.haversine Rplus 0%R coords.

(** *** planRoute *)

(** [Math.round]: the nearest integer, ties towards [+Infinity]. *)
Definition Math_round (x : R) : Z := Int_part (x + / 2).

(** What [planRoute] draws and shows: the line, its style (solid along
    the trails, with the success toast; or the dashed straight line of
    the fallback, with the warning toast), and the distance and time it
    passes to [showRouteInfo]. *)
Inductive RouteStyle : Type := TrailLine | DirectLine.

Record RoutePlan : Type := {
  routeLine : list (R * R);
  style : RouteStyle;
  distance : R;
  time : Z
}.

(** [path.map(nodeId => trailGraph.nodes.get(nodeId).latlng)]; reading
    [latlng] of [undefined] throws. *)
Fixpoint path_coords (g : Graph) (path : list string) : completion (list (R * R)) :=
  match path with
  | [] => Returns []
  | nodeId :: rest =>
      match JsMap.map_get nodeId (TrailMap.nodes g) with
      | None => Throws TypeError
      | Some node =>
          match path_coords g rest with
          | Returns coords => Returns (TrailMap.latlng node :: coords)
          | Throws e => Throws e
          | OutOfFuel => OutOfFuel
          end
      end
  end.

(** The fallback: the straight line from the start to the end. *)
Definition directRoute (s e : R * R) : RoutePlan :=
  let d := Geo.haversine s e in
  {| routeLine := [s; e]; style := DirectLine; distance := d;
     time := Math_round (d / 1.4) |}.

(** [planRoute()]; the globals [trailGraph], [startLatLng] and
    [endLatLng] are arguments.  [None] is returned when a point is not
    set (nothing is drawn). *)
Definition planRoute (trailGraph : option Graph) (startLatLng endLatLng : option (R * R))
    : completion (option RoutePlan) :=
  match startLatLng, endLatLng with
  | Some s, Some e =>
      let fallback := Returns (Some (directRoute s e)) in
      match trailGraph with
      | Some g =>
          if (0 <? JsMap.map_size (TrailMap.nodes g))%nat then
            match findNearestNode trailGraph s, findNearestNode trailGraph e with
            | Some startNode, Some endNode =>
                match dijkstra trailGraph (TrailMap.id startNode) (TrailMap.id endNode) with
                | Returns (Some path) =>
                    if (1 <? List.length path)%nat then
                      match path_coords g path with
                      | Returns routeCoords =>
                          let d := calculateRouteDistance routeCoords in
                          Returns (Some {| routeLine := routeCoords; style := TrailLine;
                                           distance := d; time := Math_round (d / 1.4) |})
                      | Throws err => Throws err
                      | OutOfFuel => OutOfFuel
                      end
                    else fallback
                | Returns None => fallback
                | Throws err => Throws err
                | OutOfFuel => OutOfFuel
                end
            | _, _ => fallback
            end
          else fallback
      | None => fallback
      end
  | _, _ => Returns None
  end.

(** *** Vocabulary: walks and shortest walks *)

Definition arc (g : Graph) (a b : string) (w : R) : Prop := TrailMap.arc g a b w.

(** [walk g s e path t]: [path] is a walk from [s] to [e] in [g] of total
    weight [t]. *)
Definition walk (g : Graph) (s e : string) (path : list string) (t : R) : Prop :=
  TrailMap.walk Rplus 0%R g s e path t.

Definition no_negative_weight (g : Graph) : Prop :=
  forall a b w, arc g a b w -> (0 <= w)%R.

(** No node has the empty string for id (the search takes an empty id
    for "no node"). *)
Definition no_empty_id (g : Graph) : Prop :=
  JsMap.map_get EmptyString (TrailMap.nodes g) = None.

End ParkMap.

(** ** The route scorer (route-scoring.js), over the rationals *)

Module Scorer.
Import JsMap.
Local Open Scope string_scope.
Local Open Scope list_scope.
Local Open Scope Q_scope.

(** *** JavaScript operators on numbers *)

Definition Qltb (a b : Q) : bool := negb (Qle_bool b a).
Definition Qgtb (a b : Q) : bool := Qltb b a.
Definition Qgeb (a b : Q) : bool := Qle_bool b a.

(** [x || d] on an optional number: [undefined] and [0] are falsy. *)
Definition orElse (x : option Q) (d : Q) : Q :=
  match x with
  | Some v => if Qeq_bool v 0 then d else v
  | None => d
  end.

(** A destructuring default [{x = d}]: only [undefined] takes it. *)
Definition orDefault {A : Type} (x : option A) (d : A) : A :=
  match x with Some v => v | None => d end.

(** [x || d] on an optional string: [undefined] and [""] are falsy. *)
Definition orElseStr (x : option string) (d : string) : string :=
  match x with
  | Some s => if String.eqb s "" then d else s
  | None => d
  end.

(** [Math.round]: the nearest integer, ties towards [+Infinity]. *)
Definition Math_round (x : Q) : Z := Qfloor (x + (1 # 2)).

(** [Math.round(x * 100) / 100]. *)
Definition round2 (x : Q) : Q := inject_Z (Math_round (x * 100)) / 100.

(** The [length] of an array, as a number. *)
Definition len {A : Type} (l : list A) : Q := inject_Z (Z.of_nat (List.length l)).

Definition includes (l : list string) (s : string) : bool := existsb (String.eqb s) l.

(** *** Data *)

Record Facility : Type := {
  type : string;
  status : string
}.

Record LatLng : Type := { lat : Q; lng : Q }.

(** A route object.  An optional field is [None] when the property is
    absent; [recentSightings] carries the entries of the array. *)
Record Route : Type := {
  distance : option Q;
  estimatedTime : option Q;
  difficulty : option string;
  accessible : bool;
  facilities : option (list Facility);
  wildlifeData : option (JsMap.t Q);
  species : option (list string);
  wildlifeHistory : option Q;
  recentSightings : option (list string);
  nearWater : bool;
  vegetationCoverage : option Q;
  crowdDensity : option Q;
  shelterCoverage : option Q;
  shadeCoverage : option Q;
  exposureLevel : option Q;
  surfaceQuality : option Q;
  gradient : option Q;
  safety : option Q;
  scenery : option Q;
  themes : option (list string);
  startPoint : option LatLng
}.

Record Weather : Type := {
  precipitation : option Q;
  temperature : option Q;
  windSpeed : option Q;
  humidity : option Q;
  sunny : option bool
}.

(** What the scorer reads of a [Date]. *)
Record Date : Type := {
  getHours : nat;
  getMonth : nat
}.

Record Context : Type := {
  weather : option Weather;
  time : option Date;
  season : option string
}.

Record Preferences : Type := {
  needs : option (JsMap.t bool);
  preferredDistance : option Q;
  difficultyLevel : option string;
  interests : option (list string);
  preferredDuration : option Q;
  prioritizeWildlife : bool;
  weatherSensitive : bool;
  facilityDependent : bool;
  prioritizePathQuality : bool
}.

Record Weights : Type := {
  environment : Q;
  wildlife : Q;
  facility : Q;
  path : Q;
  personal : Q
}.

Record Breakdown : Type := {
  bd_weather : Q;
  bd_wildlife : Q;
  bd_facility : Q;
  bd_path : Q;
  bd_personal : Q
}.

(** The reason strings, by what they say. *)
Inductive Reason : Type :=
| WeatherIdeal | WeatherCaution
| WildlifeHigh | WildlifeSome
| FacilitiesComplete | FacilitiesFew
| PathGood | PathChallenging
| MatchesPreferences
| ForWildlifeLovers | WeatherFriendly.

Record ScoreResult : Type := {
  total : Q;
  breakdown : Breakdown;
  weights : Weights;
  reasons : list Reason
}.

Record Filters : Type := {
  maxDistance : option Q;
  minDistance : option Q;
  maxDuration : option Q;
  filter_difficulty : option string;
  filter_accessible : bool;
  filter_weather : option Weather
}.

Definition defaultWeights : Weights :=
  {| environment := 0.3; wildlife := 0.25; facility := 0.2; path := 0.15; personal := 0.1 |}.

Definition wildlifePatterns : list (string * list nat) :=
  [ ("birds", [6; 7; 8; 17; 18; 19]%nat);
    ("squirrels", [8; 9; 10; 15; 16; 17]%nat);
    ("ducks", [7; 8; 9; 16; 17; 18]%nat);
    ("swans", [7; 8; 9; 10; 16; 17; 18]%nat) ].

(** *** The five sub-scores *)

Definition calculateWeatherScore (route : Route) (weatherData : Weather) : Q :=
  let score := 0.5 in
  let precipitation_ := orDefault (precipitation weatherData) 0 in
  let temperature_ := orDefault (temperature weatherData) 15 in
  let windSpeed_ := orDefault (windSpeed weatherData) 5 in
  let humidity_ := orDefault (humidity weatherData) 60 in
  let sunny_ := orDefault (sunny weatherData) true in
  let score :=
    if Qgtb precipitation_ 0 then
      let shelterCoverage_ := orElse (shelterCoverage route) 0.3 in
      let score := shelterCoverage_ * 0.8 in
      if Qgtb precipitation_ 5 then score * 0.6
      else if Qgtb precipitation_ 2 then score * 0.8
      else score
    else score in
  let score :=
    if sunny_ && Qgtb temperature_ 25 then
      let shadeCoverage_ := orElse (shadeCoverage route) 0.4 in
      let score := shadeCoverage_ * 0.9 in
      if Qgtb temperature_ 30 then score * 0.7 else score
    else score in
  let score :=
    if Qgeb temperature_ 15 && Qle_bool temperature_ 25 && Qeq_bool precipitation_ 0
    then Qmax score 0.8 else score in
  let score :=
    if Qgtb windSpeed_ 15 then
      let exposureLevel_ := orElse (exposureLevel route) 0.5 in
      score * (1 - exposureLevel_ * 0.3)
    else score in
  let score := if Qgtb humidity_ 80 then score * 0.9 else score in
  Qmax 0 (Qmin 1 score).

Definition getTimeBasedProbability (hour : nat) (wildlifeData_ : JsMap.t Q) : Q :=
  let probability :=
    fold_left
      (fun probability (pattern : string * list nat) =>
         if existsb (Nat.eqb hour) (snd pattern)
         then probability + orElse (map_get (fst pattern) wildlifeData_) 0.2
         else probability)
      wildlifePatterns 0 in
  Qmin 1 probability.

Definition seasonalMultipliers : JsMap.t (JsMap.t Q) :=
  [ ("spring", [("birds", 1.2); ("squirrels", 1.0); ("ducks", 1.1); ("swans", 0.9)]);
    ("summer", [("birds", 1.0); ("squirrels", 1.2); ("ducks", 0.8); ("swans", 0.8)]);
    ("autumn", [("birds", 1.1); ("squirrels", 1.3); ("ducks", 1.0); ("swans", 1.0)]);
    ("winter", [("birds", 0.7); ("squirrels", 0.6); ("ducks", 1.2); ("swans", 1.3)]) ].

(** [getSeasonalProbability(season, species)].  The tables are looked up
    by own property: a season or a species that names a member of
    [Object.prototype] (see [plainNames]) is outside the model. *)
Definition getSeasonalProbability (season_ : string) (species_ : list string) : Q :=
  let multipliers :=
    orDefault (map_get season_ seasonalMultipliers)
              (orDefault (map_get "spring" seasonalMultipliers) []) in
  let totalScore :=
    fold_left
      (fun totalScore speciesName =>
         totalScore + orElse (map_get speciesName multipliers) 1.0 * 0.2)
      species_ 0 in
  Qmin 1 totalScore.

Definition calculateWildlifeLocationScore (route : Route) : Q :=
  let score := 0.3 in
  let score := if nearWater route then score + 0.3 else score in
  let vegetationCoverage_ := orElse (vegetationCoverage route) 0.5 in
  let score := score + vegetationCoverage_ * 0.4 in
  let quietness := 1 - orElse (crowdDensity route) 0.5 in
  let score := score + quietness * 0.3 in
  Qmin 1 score.

Definition calculateWildlifeScore (route : Route) (currentTime : Date) (season_ : string) : Q :=
  let hour := getHours currentTime in
  let timeScore := getTimeBasedProbability hour (orDefault (wildlifeData route) []) in
  let seasonScore := getSeasonalProbability season_ (orDefault (species route) []) in
  let historicalScore := orElse (wildlifeHistory route) 0.6 in
  let recentSightings_ := orDefault (recentSightings route) [] in
  let contributionScore := Qmin 1 (len recentSightings_ / 10) in
  let locationScore := calculateWildlifeLocationScore route in
  timeScore * 0.25 + seasonScore * 0.2 + historicalScore * 0.25 +
  contributionScore * 0.15 + locationScore * 0.15.

Definition calculateFacilityDistribution (facilities_ : list Facility) (route : Route) : Q :=
  match facilities_ with
  | [] => 0
  | _ :: _ =>
      let routeLength := orElse (distance route) 1000 in
      let idealSpacing := routeLength / Qmax 1 (len facilities_) in
      let actualSpacing := routeLength / len facilities_ in
      let uniformity := 1 - Qabs (idealSpacing - actualSpacing) / idealSpacing in
      Qmax 0 (Qmin 1 uniformity)
  end.

(** [userNeeds] is the object [preferences.needs || {}]: never [null]. *)
Definition calculatePersonalFacilityScore (facilities_ : list Facility) (userNeeds : JsMap.t bool) : Q :=
  match userNeeds with
  | [] => 0.5
  | _ :: _ =>
      let '(score, totalNeeds) :=
        fold_left
          (fun (acc : Q * Q) (need : string * bool) =>
             if snd need then
               let hasNeed := existsb (fun f => String.eqb (type f) (fst need)) facilities_ in
               (if hasNeed then fst acc + 1 else fst acc, snd acc + 1)
             else acc)
          userNeeds (0, 0) in
      if Qgtb totalNeeds 0 then score / totalNeeds else 0.5
  end.

Definition calculateFacilityStatus (facilities_ : list Facility) : Q :=
  match facilities_ with
  | [] => 0.5
  | _ :: _ =>
      let openFacilities :=
        filter (fun f => negb (String.eqb (status f) "closed") &&
                         negb (String.eqb (status f) "maintenance")) facilities_ in
      len openFacilities / len facilities_
  end.

Definition calculateFacilityScore (route : Route) (userNeeds : JsMap.t bool) : Q :=
  let facilities_ := orDefault (facilities route) [] in
  let basicFacilities := ["toilet"; "bench"; "water"] in
  let basicScore :=
    fold_left
      (fun sum ty =>
         let count := len (filter (fun f => String.eqb (type f) ty) facilities_) in
         let density := count / Qmax 1 (orElse (distance route) 1000 / 1000) in
         sum + Qmin 1 (density / 2))
      basicFacilities 0 / len basicFacilities in
  let accessibilityScore := calculateFacilityDistribution facilities_ route in
  let personalScore := calculatePersonalFacilityScore facilities_ userNeeds in
  let statusScore := calculateFacilityStatus facilities_ in
  basicScore * 0.3 + accessibilityScore * 0.25 + personalScore * 0.25 + statusScore * 0.2.

Definition calculatePathQuality (route : Route) : Q :=
  let score := 0.5 in
  let surfaceQuality_ := orElse (surfaceQuality route) 0.7 in
  let score := score + surfaceQuality_ * 0.3 in
  let gradient_ := orElse (gradient route) 0.05 in
  let gradientScore := Qmax 0 (1 - gradient_ * 10) in
  let score := score + gradientScore * 0.2 in
  let safety_ := orElse (safety route) 0.8 in
  let score := score + safety_ * 0.3 in
  let scenery_ := orElse (scenery route) 0.6 in
  let score := score + scenery_ * 0.2 in
  Qmin 1 score.

(** [Object.keys(preferences).length === 0].  A flag stored as [false] is
    a key of the object too; the guard it feeds only short-cuts to the
    value the rest of the function computes when nothing is set (see
    [personalPreferenceBody_nothing_set]). *)
Definition no_keys (preferences : Preferences) : bool :=
  match needs preferences, preferredDistance preferences, difficultyLevel preferences,
        interests preferences, preferredDuration preferences with
  | None, None, None, None, None =>
      negb (prioritizeWildlife preferences || weatherSensitive preferences ||
            facilityDependent preferences || prioritizePathQuality preferences)
  | _, _, _, _, _ => false
  end.

(** The truthy value of an optional number, if any. *)
Definition truthyNum (x : option Q) : option Q :=
  match x with
  | Some v => if Qeq_bool v 0 then None else Some v
  | None => None
  end.

Definition truthyStr (x : option string) : option string :=
  match x with
  | Some s => if String.eqb s "" then None else Some s
  | None => None
  end.

(** The body of [calculatePersonalPreference] after its guard. *)
Definition personalPreferenceBody (route : Route) (preferences : Preferences) : Q :=
  let score := 0.5 in
  let score :=
    match truthyNum (preferredDistance preferences) with
    | Some preferredDistance_ =>
        let distanceDiff := Qabs (orElse (distance route) 1000 - preferredDistance_) in
        let distanceScore := Qmax 0 (1 - distanceDiff / preferredDistance_) in
        score + distanceScore * 0.3
    | None => score
    end in
  let score :=
    match truthyStr (difficultyLevel preferences) with
    | Some difficultyLevel_ =>
        let routeDifficulty := orElseStr (difficulty route) "easy" in
        let matchScore := if String.eqb routeDifficulty difficultyLevel_ then 1 else 0.5 in
        score + matchScore * 0.2
    | None => score
    end in
  let score :=
    match interests preferences, themes route with
    | Some interests_, Some themes_ =>
        let commonInterests := filter (fun interest => includes themes_ interest) interests_ in
        let interestScore := len commonInterests / Qmax 1 (len interests_) in
        score + interestScore * 0.3
    | _, _ => score
    end in
  let score :=
    match truthyNum (preferredDuration preferences) with
    | Some preferredDuration_ =>
        let timeDiff := Qabs (orElse (estimatedTime route) 30 - preferredDuration_) in
        let timeScore := Qmax 0 (1 - timeDiff / preferredDuration_) in
        score + timeScore * 0.2
    | None => score
    end in
  Qmin 1 score.

Definition calculatePersonalPreference (route : Route) (preferences : Preferences) : Q :=
  if no_keys preferences then 0.5 else personalPreferenceBody route preferences.

(** [adjustWeights(preferences)]; [None] is a [null] or [undefined]
    argument. *)
Definition adjustWeights (preferences : option Preferences) : Weights :=
  let weights_ := defaultWeights in
  match preferences with
  | None => weights_
  | Some preferences =>
      let weights_ :=
        if prioritizeWildlife preferences then
          {| environment := environment weights_ - 0.1;
             wildlife := wildlife weights_ + 0.15;
             facility := facility weights_ - 0.05;
             path := path weights_;
             personal := personal weights_ |}
        else weights_ in
      let weights_ :=
        if weatherSensitive preferences then
          {| environment := environment weights_ + 0.2;
             wildlife := wildlife weights_ - 0.1;
             facility := facility weights_;
             path := path weights_ - 0.1;
             personal := personal weights_ |}
        else weights_ in
      let weights_ :=
        if facilityDependent preferences then
          {| environment := environment weights_;
             wildlife := wildlife weights_ - 0.05;
             facility := facility weights_ + 0.15;
             path := path weights_ - 0.1;
             personal := personal weights_ |}
        else weights_ in
      let weights_ :=
        if prioritizePathQuality preferences then
          {| environment := environment weights_ - 0.1;
             wildlife := wildlife weights_;
             facility := facility weights_;
             path := path weights_ + 0.15;
             personal := personal weights_ - 0.05 |}
        else weights_ in
      weights_
  end.

Definition generateReasons (weatherScore wildlifeScore facilityScore pathScore personalScore : Q)
    (preferences : Preferences) : list Reason :=
  let reasons_ :=
    (if Qgtb weatherScore 0.8 then [WeatherIdeal]
     else if Qltb weatherScore 0.4 then [WeatherCaution] else []) ++
    (if Qgtb wildlifeScore 0.7 then [WildlifeHigh]
     else if Qgtb wildlifeScore 0.5 then [WildlifeSome] else []) ++
    (if Qgtb facilityScore 0.8 then [FacilitiesComplete]
     else if Qltb facilityScore 0.4 then [FacilitiesFew] else []) ++
    (if Qgtb pathScore 0.8 then [PathGood]
     else if Qltb pathScore 0.5 then [PathChallenging] else []) ++
    (if Qgtb personalScore 0.7 then [MatchesPreferences] else []) ++
    (if prioritizeWildlife preferences && Qgtb wildlifeScore 0.6 then [ForWildlifeLovers] else []) ++
    (if weatherSensitive preferences && Qgtb weatherScore 0.7 then [WeatherFriendly] else []) in
  firstn 3 reasons_.

Definition emptyWeather : Weather :=
  {| precipitation := None; temperature := None; windSpeed := None;
     humidity := None; sunny := None |}.

(** The weighted sum that [calculateScore] rounds into [total]. *)
Definition weightedSum (w : Weights) (weatherScore wildlifeScore facilityScore pathScore personalScore : Q) : Q :=
  weatherScore * environment w +
  wildlifeScore * wildlife w +
  facilityScore * facility w +
  pathScore * path w +
  personalScore * personal w.

(** [calculateScore(route, preferences, context)]; [now] is the value of
    [new Date()] at the call. *)
Definition calculateScore (now : Date) (route : Route) (preferences : Preferences)
    (context : Context) : ScoreResult :=
  let weatherScore := calculateWeatherScore route (orDefault (weather context) emptyWeather) in
  let wildlifeScore :=
    calculateWildlifeScore route (orDefault (time context) now)
      (orElseStr (season context) "spring") in
  let facilityScore := calculateFacilityScore route (orDefault (needs preferences) []) in
  let pathScore := calculatePathQuality route in
  let personalScore := calculatePersonalPreference route preferences in
  let weights_ := adjustWeights (Some preferences) in
  let totalScore :=
    weightedSum weights_ weatherScore wildlifeScore facilityScore pathScore personalScore in
  {| total := round2 totalScore;
     breakdown := {| bd_weather := round2 weatherScore;
                     bd_wildlife := round2 wildlifeScore;
                     bd_facility := round2 facilityScore;
                     bd_path := round2 pathScore;
                     bd_personal := round2 personalScore |};
     weights := weights_;
     reasons := generateReasons weatherScore wildlifeScore facilityScore pathScore
                  personalScore preferences |}.

(** *** The recommendation selector *)

Definition getCurrentWeather : Weather :=
  {| temperature := Some 18; precipitation := Some 0; windSpeed := Some 8;
     humidity := Some 65; sunny := Some true |}.

Definition getCurrentSeason (now : Date) : string :=
  let month := (getMonth now + 1)%nat in
  if (3 <=? month)%nat && (month <=? 5)%nat then "spring"
  else if (6 <=? month)%nat && (month <=? 8)%nat then "summer"
  else if (9 <=? month)%nat && (month <=? 11)%nat then "autumn"
  else "winter".

(** [x > y] where [x] may be [undefined]: the comparison is then false. *)
Definition gtUndef (x : option Q) (y : Q) : bool :=
  match x with Some v => Qgtb v y | None => false end.

Definition ltUndef (x : option Q) (y : Q) : bool :=
  match x with Some v => Qltb v y | None => false end.

(** [route.difficulty !== d]. *)
Definition strictNeqStr (x : option string) (d : string) : bool :=
  match x with Some s => negb (String.eqb s d) | None => true end.

Definition meetsBasicCriteria (route : Route) (filters : Filters) : bool :=
  if match truthyNum (maxDistance filters) with
     | Some m => gtUndef (distance route) m | None => false end
  then false
  else if match truthyNum (minDistance filters) with
          | Some m => ltUndef (distance route) m | None => false end
  then false
  else if match truthyNum (maxDuration filters) with
          | Some m => gtUndef (estimatedTime route) m | None => false end
  then false
  else if match truthyStr (filter_difficulty filters) with
          | Some d => strictNeqStr (difficulty route) d | None => false end
  then false
  else if filter_accessible filters && negb (accessible route)
  then false
  else true.

(** [areRoutesSimilar(route1, route2)].  A missing [distance] makes the
    distance similarity [NaN], and a zero [Math.max] of the two distances
    makes it [NaN] or [Infinity]: in both cases the test [< 0.2] is false. *)
Definition areRoutesSimilar (route1 route2 : Route) : bool :=
  match distance route1, distance route2 with
  | Some d1, Some d2 =>
      if Qeq_bool (Qmax d1 d2) 0 then false
      else
        let distanceSimilarity := Qabs (d1 - d2) / Qmax d1 d2 in
        let themes1 := orDefault (themes route1) [] in
        let themes2 := orDefault (themes route2) [] in
        let commonThemes := filter (fun theme => includes themes2 theme) themes1 in
        let themeSimilarity :=
          len commonThemes / Qmax (Qmax (len themes1) (len themes2)) 1 in
        Qltb distanceSimilarity 0.2 && Qgtb themeSimilarity 0.6
  | _, _ => false
  end.

(** A scored route [{...route, score, breakdown, weights, reasons,
    distanceFromUser, distanceScore}]: the route's own properties, the
    fields of the score result, and the two distance fields. *)
Record ScoredRoute : Type := {
  route_of : Route;
  scoreResult : ScoreResult;
  distanceFromUser : option Q;
  distanceScore : Q
}.

Definition score (r : ScoredRoute) : Q := total (scoreResult r).

(** The comparator passed to [sort]. *)
Definition compareRoutes (a b : ScoredRoute) : Q :=
  let scoreDiff := score b - score a in
  if Qltb (Qabs scoreDiff) 0.1 then distanceScore a - distanceScore b
  else scoreDiff.

(** [Array.prototype.sort(comparefn)], as a stable insertion sort: an
    element moves in front of the first one it compares below.  With an
    inconsistent comparator ECMAScript leaves the order to the engine;
    what is proved about ranking is stated on [compareRoutes] or holds of
    every permutation. *)
Fixpoint sort_insert {A : Type} (comparefn : A -> A -> Q) (x : A) (sorted : list A) : list A :=
  match sorted with
  | [] => [x]
  | y :: rest =>
      if Qltb (comparefn x y) 0 then x :: y :: rest
      else y :: sort_insert comparefn x rest
  end.

Definition Array_sort {A : Type} (comparefn : A -> A -> Q) (l : list A) : list A :=
  fold_left (fun sorted x => sort_insert comparefn x sorted) l [].

(** The scan [for (let i = 2; ...)] for the first route that is not
    similar to the top pick. *)
Fixpoint find_dissimilar (top : ScoredRoute) (candidates : list ScoredRoute) : option ScoredRoute :=
  match candidates with
  | [] => None
  | c :: rest =>
      if negb (areRoutesSimilar (route_of top) (route_of c)) then Some c
      else find_dissimilar top rest
  end.

Definition diversify (sortedRoutes : list ScoredRoute) : list ScoredRoute :=
  match firstn 2 sortedRoutes with
  | [top0; top1] =>
      if areRoutesSimilar (route_of top0) (route_of top1) then
        match find_dissimilar top0 (skipn 2 sortedRoutes) with
        | Some c => [top0; c]
        | None => [top0; top1]
        end
      else [top0; top1]
  | top2 => top2
  end.

(** *** Vocabulary of the specification *)

(** The weights only depend on the four priority flags. *)
Definition flags (wildlife_ weather_ facility_ path_ : bool) : Preferences :=
  {| needs := None; preferredDistance := None; difficultyLevel := None;
     interests := None; preferredDuration := None;
     prioritizeWildlife := wildlife_; weatherSensitive := weather_;
     facilityDependent := facility_; prioritizePathQuality := path_ |}.

(** A route respects the filters when it violates no constraint that is
    present.  A constraint is present when its field is truthy: a limit
    that is absent or [0], an empty difficulty and a false [accessible]
    constrain nothing.  A property the route lacks cannot be out of
    range, but a route without [difficulty] mismatches a required one. *)
Definition respects (route : Route) (filters : Filters) : Prop :=
  (forall m d, truthyNum (maxDistance filters) = Some m ->
               distance route = Some d -> d <= m) /\
  (forall m d, truthyNum (minDistance filters) = Some m ->
               distance route = Some d -> m <= d) /\
  (forall m t, truthyNum (maxDuration filters) = Some m ->
               estimatedTime route = Some t -> t <= m) /\
  (forall wanted, truthyStr (filter_difficulty filters) = Some wanted ->
                  difficulty route = Some wanted) /\
  (filter_accessible filters = true -> accessible route = true).

Definition relativeDistanceDifference (d1 d2 : Q) : Q := Qabs (d1 - d2) / Qmax d1 d2.

Definition themeOverlap (themes1 themes2 : list string) : Q :=
  len (filter (fun theme => includes themes2 theme) themes1) /
  Qmax (Qmax (len themes1) (len themes2)) 1.

(** Two routes are similar when their relative distance difference is
    below 0.20 and their theme overlap above 0.60.  Routes without a
    distance, or both of distance 0, have no relative difference and are
    not similar. *)
Definition Similar (route1 route2 : Route) : Prop :=
  exists d1 d2,
    distance route1 = Some d1 /\ distance route2 = Some d2 /\
    ~ Qmax d1 d2 == 0 /\
    relativeDistanceDifference d1 d2 < 0.2 /\
    0.6 < themeOverlap (orDefault (themes route1) []) (orDefault (themes route2) []).





(** The route with every optional number that is [0] taken out, as if
    the property were absent. *)
Definition withoutZeros (route : Route) : Route :=
  {| distance := truthyNum (distance route);
     estimatedTime := truthyNum (estimatedTime route);
     difficulty := difficulty route;
     accessible := accessible route;
     facilities := facilities route;
     wildlifeData := wildlifeData route;
     species := species route;
     wildlifeHistory := truthyNum (wildlifeHistory route);
     recentSightings := recentSightings route;
     nearWater := nearWater route;
     vegetationCoverage := truthyNum (vegetationCoverage route);
     crowdDensity := truthyNum (crowdDensity route);
     shelterCoverage := truthyNum (shelterCoverage route);
     shadeCoverage := truthyNum (shadeCoverage route);
     exposureLevel := truthyNum (exposureLevel route);
     surfaceQuality := truthyNum (surfaceQuality route);
     gradient := truthyNum (gradient route);
     safety := truthyNum (safety route);
     scenery := truthyNum (scenery route);
     themes := themes route;
     startPoint := startPoint route |}.

(** The weather with another precipitation. *)
Definition withPrecipitation (w : Weather) (p : option Q) : Weather :=
  {| precipitation := p; temperature := temperature w; windSpeed := windSpeed w;
     humidity := humidity w; sunny := sunny w |}.

(** The route with another shelter coverage. *)
Definition withShelter (route : Route) (c : option Q) : Route :=
  {| distance := distance route;
     estimatedTime := estimatedTime route;
     difficulty := difficulty route;
     accessible := accessible route;
     facilities := facilities route;
     wildlifeData := wildlifeData route;
     species := species route;
     wildlifeHistory := wildlifeHistory route;
     recentSightings := recentSightings route;
     nearWater := nearWater route;
     vegetationCoverage := vegetationCoverage route;
     crowdDensity := crowdDensity route;
     shelterCoverage := c;
     shadeCoverage := shadeCoverage route;
     exposureLevel := exposureLevel route;
     surfaceQuality := surfaceQuality route;
     gradient := gradient route;
     safety := safety route;
     scenery := scenery route;
     themes := themes route;
     startPoint := startPoint route |}.

(** Two scored routes whose scores are at least 0.10 apart: the
    comparator orders them by score alone. *)
Definition apart (a b : ScoredRoute) : Prop := 0.1 <= Qabs (score b - score a).

(** [a] is ranked above [b] by score. *)
Definition outscores (a b : ScoredRoute) : Prop := score b < score a.

(** Two scored routes whose scores are at least 0.11 apart: more than
    0.10 apart, for scores of two decimals, and by a margin that the
    rounding of the subtraction in binary64 does not cross. *)
Definition clearlyApart (a b : ScoredRoute) : Prop := 0.11 <= Qabs (score b - score a).





(** The needs that are set, and whether a facility of the needed type is
    on the route. *)
Definition wantedNeeds (userNeeds : JsMap.t bool) : list (string * bool) :=
  filter (fun need => snd need) userNeeds.

Definition metNeeds (facilities_ : list Facility) (userNeeds : JsMap.t bool)
    : list (string * bool) :=
  filter (fun need => existsb (fun f => String.eqb (type f) (fst need)) facilities_)
         (wantedNeeds userNeeds).

Section Selector.
(** [this.calculateDistance]: the great-circle distance in metres
    ([Geo.calculateDistance] over the reals).  The selector only scales and
    compares its result, so it is a parameter here. *)
Variable calculateDistance : LatLng -> LatLng -> Q.

(** The callback of [eligibleRoutes.map].  With a user location, the
    property [distanceFromUser] calls [calculateDistance] on
    [route.startPoint] unguarded: reading [lat] of [undefined] throws. *)
Definition scoreOne (now : Date) (context : Context) (userLocation : option LatLng)
    (userProfile : Preferences) (route : Route) : completion ScoredRoute :=
  let scoreResult_ := calculateScore now route userProfile context in
  let distanceScore_ :=
    match userLocation, startPoint route with
    | Some u, Some s => Qmax 0 (1 - calculateDistance u s / 5000)
    | _, _ => 0.5
    end in
  match userLocation with
  | None =>
      Returns {| route_of := route; scoreResult := scoreResult_;
                 distanceFromUser := None; distanceScore := distanceScore_ |}
  | Some u =>
      match startPoint route with
      | Some s =>
          Returns {| route_of := route; scoreResult := scoreResult_;
                     distanceFromUser := Some (calculateDistance u s);
                     distanceScore := distanceScore_ |}
      | None => Throws TypeError
      end
  end.

Fixpoint mapM {A B : Type} (f : A -> completion B) (l : list A) : completion (list B) :=
  match l with
  | [] => Returns []
  | x :: rest =>
      match f x with
      | Returns y =>
          match mapM f rest with
          | Returns ys => Returns (y :: ys)
          | Throws e => Throws e
          | OutOfFuel => OutOfFuel
          end
      | Throws e => Throws e
      | OutOfFuel => OutOfFuel
      end
  end.

Definition eligibleRoutes (allRoutes : list Route) (userFilters : Filters) : list Route :=
  filter (fun route => meetsBasicCriteria route userFilters) allRoutes.

(** The ranked list [sortedRoutes]. *)
Definition sortedRoutes (now : Date) (allRoutes : list Route) (userFilters : Filters)
    (userLocation : option LatLng) (userProfile : Preferences) : completion (list ScoredRoute) :=
  let context :=
    {| weather := Some (orDefault (filter_weather userFilters) getCurrentWeather);
       time := Some now;
       season := Some (getCurrentSeason now) |} in
  match mapM (scoreOne now context userLocation userProfile)
             (eligibleRoutes allRoutes userFilters) with
  | Returns scoredRoutes => Returns (Array_sort compareRoutes scoredRoutes)
  | Throws e => Throws e
  | OutOfFuel => OutOfFuel
  end.

(** [recommendRoutes(allRoutes, userFilters, userLocation, userProfile)];
    [now] is the value of [new Date()] during the call. *)
Definition recommendRoutes (now : Date) (allRoutes : list Route) (userFilters : Filters)
    (userLocation : option LatLng) (userProfile : Preferences) : completion (list ScoredRoute) :=
  match eligibleRoutes allRoutes userFilters with
  | [] => Returns []
  | _ :: _ =>
      match sortedRoutes now allRoutes userFilters userLocation userProfile with
      | Returns sorted => Returns (diversify sorted)
      | Throws e => Throws e
      | OutOfFuel => OutOfFuel
      end
  end.

End Selector.
End Scorer.

(** ** The layer filters of the map module, over the reals
    (parksense-mobile-complete.js)

    [filterGeoJSONFeatures] with [isInLondon], the geographic step of
    [reloadPOI] with [getFilterBounds], [getFeatureCoords] and
    [isInBounds], and [limitFeatures]. *)

Module Layers.
Local Open Scope R_scope.

Record Bounds : Type := { minLng : R; maxLng : R; minLat : R; maxLat : R }.

Definition LONDON_BOUNDS : Bounds :=
  {| minLng := - 0.5; maxLng := 0.5; minLat := 51.2; maxLat := 51.8 |}.

Definition Rleb (a b : R) : bool := if Rle_dec a b then true else false.

(** [x >= lo && x <= hi] where [x] may be [undefined]: both comparisons
    are then false. *)
Definition within (x : option R) (lo hi : R) : bool :=
  match x with
  | Some v => Rleb lo v && Rleb v hi
  | None => false
  end.

Definition isInLondon (lng lat : option R) : bool :=
  within lng (minLng LONDON_BOUNDS) (maxLng LONDON_BOUNDS) &&
  within lat (minLat LONDON_BOUNDS) (maxLat LONDON_BOUNDS).

(** A GeoJSON geometry by its [type]: the [coordinates] of a point are a
    position (an array of numbers), those of a line an array of
    positions, those of a polygon an array of rings.  [OtherGeometry] is
    a geometry of any other type (MultiPoint, MultiLineString,
    MultiPolygon, GeometryCollection), whose coordinates are never
    read. *)
Inductive Geometry : Type :=
| Point (coordinates : list R)
| LineString (coordinates : list (list R))
| Polygon (coordinates : list (list (list R)))
| OtherGeometry.

(** A feature; its geometry may be [null]. *)
Record Feature : Type := { geometry : option Geometry }.

(** The object [geojson]; [features] may be missing. *)
Record GeoJSON : Type := { features : option (list Feature) }.

(** The value of [coords] after the [if ... else if] chain of
    [filterGeoJSONFeatures]; [None] is [null] or [undefined]. *)
Definition first_coords (g : Geometry) : option (list R) :=
  match g with
  | Point coordinates => Some coordinates
  | Polygon (ring :: _) => hd_error ring
  | LineString (position :: _) => Some position
  | _ => None
  end.

(** The callback of [geojson.features.forEach]: whether the feature is
    pushed.  Reading [type] of a [null] geometry throws. *)
Definition pushed (feature : Feature) : completion bool :=
  match geometry feature with
  | None => Throws TypeError
  | Some g =>
      Returns match first_coords g with
              | Some coords => isInLondon (nth_error coords 0) (nth_error coords 1)
              | None => false
              end
  end.

Fixpoint forEach_push (fs : list Feature) (filtered : list Feature) : completion (list Feature) :=
  match fs with
  | [] => Returns filtered
  | feature :: rest =>
      match pushed feature with
      | Returns true => forEach_push rest (filtered ++ [feature])
      | Returns false => forEach_push rest filtered
      | Throws e => Throws e
      | OutOfFuel => OutOfFuel
      end
  end.

(** [filterGeoJSONFeatures(geojson)]; [None] is a [null] argument. *)
Definition filterGeoJSONFeatures (geojson : option GeoJSON) : completion (option GeoJSON) :=
  match geojson with
  | None => Returns None
  | Some gj =>
      match features gj with
      | None => Returns geojson
      | Some fs =>
          match forEach_push fs [] with
          | Returns filtered => Returns (Some {| features := Some filtered |})
          | Throws e => Throws e
          | OutOfFuel => OutOfFuel
          end
      end
  end.

(** *** The geographic step of reloadPOI *)

Definition parkBounds : Bounds :=
  {| minLng := - 0.140; maxLng := - 0.129; minLat := 51.500; maxLat := 51.506 |}.

(** [getFilterBounds(filterType)]: the bounds and the flag
    [excludeInside], or [null]. *)
Definition getFilterBounds (filterType : string) : option (Bounds * bool) :=
  if String.eqb filterType "inside" then Some (parkBounds, false)
  else if String.eqb filterType "outside" then
    Some ({| minLng := minLng parkBounds - 0.05; maxLng := maxLng parkBounds + 0.05;
             minLat := minLat parkBounds - 0.02; maxLat := maxLat parkBounds + 0.02 |},
          true)
  else None.

(** [getFeatureCoords(feature)]: the position of a point, [null] for any
    other geometry. *)
Definition getFeatureCoords (feature : Feature) : completion (option (list R)) :=
  match geometry feature with
  | None => Throws TypeError
  | Some (Point coordinates) => Returns (Some coordinates)
  | Some _ => Returns None
  end.

(** [isInBounds(coords, bounds)], with [const [lng, lat] = coords]. *)
Definition isInBounds (coords : list R) (bounds : Bounds) : bool :=
  within (nth_error coords 0) (minLng bounds) (maxLng bounds) &&
  within (nth_error coords 1) (minLat bounds) (maxLat bounds).

(** [Array.prototype.filter] with a callback that may throw. *)
Fixpoint filterM {A : Type} (f : A -> completion bool) (l : list A) : completion (list A) :=
  match l with
  | [] => Returns []
  | x :: rest =>
      match f x with
      | Returns b =>
          match filterM f rest with
          | Returns kept => Returns (if b then x :: kept else kept)
          | Throws e => Throws e
          | OutOfFuel => OutOfFuel
          end
      | Throws e => Throws e
      | OutOfFuel => OutOfFuel
      end
  end.

(** The bounds that the ['outside'] branch of [reloadPOI] tests
    against. *)
Definition outsideBounds : Bounds :=
  {| minLng := 142.35; maxLng := 142.42; minLat := - 38.12; maxLat := - 38.08 |}.

(** Step 2 of [reloadPOI]: [finalFilteredFeatures] from
    [typeFilteredFeatures] and the value [geoFilter] of the select box. *)
Definition geoFilterFeatures (geoFilter : string) (typeFilteredFeatures : list Feature)
    : completion (list Feature) :=
  match getFilterBounds geoFilter with
  | None => Returns typeFilteredFeatures
  | Some (bounds, _) =>
      if String.eqb geoFilter "inside" then
        filterM (fun feature =>
                   match getFeatureCoords feature with
                   | Returns (Some coords) => Returns (isInBounds coords bounds)
                   | Returns None => Returns false
                   | Throws e => Throws e
                   | OutOfFuel => OutOfFuel
                   end)
                typeFilteredFeatures
      else if String.eqb geoFilter "outside" then
        filterM (fun feature =>
                   match getFeatureCoords feature with
                   | Returns (Some coords) => Returns (negb (isInBounds coords outsideBounds))
                   | Returns None => Returns false
                   | Throws e => Throws e
                   | OutOfFuel => OutOfFuel
                   end)
                typeFilteredFeatures
      else Returns typeFilteredFeatures
  end.

(** *** limitFeatures *)

Section Limit.
Context {A : Type}.
(** The two tests of the comparator on a feature [a]:
    [aAmenity.includes('toilet')] and [aName.includes('entrance')], on
    the lower-cased [amenity] and [name] of its properties. *)
Variable toilet : A -> bool.
Variable entrance : A -> bool.

(** The comparator passed to [sort]. *)
Definition byPriority (a b : A) : Q :=
  if toilet a && negb (toilet b) then (- 1)%Q
  else if negb (toilet a) && toilet b then 1%Q
  else if entrance a && negb (entrance b) then (- 1)%Q
  else if negb (entrance a) && entrance b then 1%Q
  else 0%Q.

(** [limitFeatures(features, maxCount)], for a count that is a natural
    number. *)
Definition limitFeatures (features_ : list A) (maxCount : nat) : list A :=
  if (List.length features_ <=? maxCount)%nat then features_
  else firstn maxCount (Scorer.Array_sort byPriority features_).

(** *** Vocabulary *)

(** The rank the comparator sorts by: toilets first, then entrances. *)
Definition priority (a : A) : nat :=
  (if toilet a then 0 else 2) + (if entrance a then 0 else 1).

(** [a] does not rank after [b]. *)
Definition inOrder (a b : A) : Prop := (priority a <= priority b)%nat.

End Limit.

(** The feature is a point, a line or a polygon whose first position lies
    within the bounds of London. *)
Definition startsInLondon (feature : Feature) : bool :=
  match geometry feature with
  | Some g =>
      match first_coords g with
      | Some coords => isInLondon (nth_error coords 0) (nth_error coords 1)
      | None => false
      end
  | None => false
  end.

(** The feature is a point within the bounds. *)
Definition pointIn (bounds : Bounds) (feature : Feature) : bool :=
  match geometry feature with
  | Some (Point coordinates) => isInBounds coordinates bounds
  | _ => false
  end.

(** The feature is a point that is not within the bounds. *)
Definition pointNotIn (bounds : Bounds) (feature : Feature) : bool :=
  match geometry feature with
  | Some (Point coordinates) => negb (isInBounds coordinates bounds)
  | _ => false
  end.

End Layers.

(** ** Binary64 numbers

    The numbers of JavaScript as they are: IEEE-754 doubles, with the
    operators [+], [-], [*], [/] and the comparisons rounding and
    deciding as the engine does.  A decimal literal denotes the nearest
    double, here as in JavaScript. *)

Module Double.
Import PrimFloat.
#[local] Set Warnings "-inexact-float".
Local Open Scope float_scope.

(** [Math.PI]. *)
Definition Math_PI : float := 3.141592653589793.

(** [x <= y], [x < y]: false when an operand is [NaN]. *)
Definition le (x y : float) : Prop := leb x y = true.
Definition lt (x y : float) : Prop := ltb x y = true.

(** The rational number that a finite double is; 0 stands for the
    doubles that are no number ([NaN], the infinities). *)
Definition toQ (x : float) : Q :=
  match FloatOps.Prim2SF x with
  | SpecFloat.S754_finite negative m e =>
      let magnitude :=
        if (e <? 0)%Z then inject_Z (Z.pos m) / inject_Z (2 ^ (- e))
        else inject_Z (Z.pos m * 2 ^ e) in
      if negative then - magnitude else magnitude
  | _ => 0
  end%Q.

End Double.

(** ** The weights of the scorer, in binary64 *)

Module Scorer64.
Import PrimFloat.
#[local] Set Warnings "-inexact-float".
Local Open Scope float_scope.

Record Weights : Type := {
  environment : float;
  wildlife : float;
  facility : float;
  path : float;
  personal : float
}.

Definition defaultWeights : Weights :=
  {| environment := 0.3; wildlife := 0.25; facility := 0.2; path := 0.15; personal := 0.1 |}.

(** [adjustWeights(preferences)], with the [+=] and [-=] of the source in
    binary64; [None] is a [null] or [undefined] argument. *)
Definition adjustWeights (preferences : option Scorer.Preferences) : Weights :=
  let weights_ := defaultWeights in
  match preferences with
  | None => weights_
  | Some preferences =>
      let weights_ :=
        if Scorer.prioritizeWildlife preferences then
          {| environment := environment weights_ - 0.1;
             wildlife := wildlife weights_ + 0.15;
             facility := facility weights_ - 0.05;
             path := path weights_;
             personal := personal weights_ |}
        else weights_ in
      let weights_ :=
        if Scorer.weatherSensitive preferences then
          {| environment := environment weights_ + 0.2;
             wildlife := wildlife weights_ - 0.1;
             facility := facility weights_;
             path := path weights_ - 0.1;
             personal := personal weights_ |}
        else weights_ in
      let weights_ :=
        if Scorer.facilityDependent preferences then
          {| environment := environment weights_;
             wildlife := wildlife weights_ - 0.05;
             facility := facility weights_ + 0.15;
             path := path weights_ - 0.1;
             personal := personal weights_ |}
        else weights_ in
      let weights_ :=
        if Scorer.prioritizePathQuality preferences then
          {| environment := environment weights_ - 0.1;
             wildlife := wildlife weights_;
             facility := facility weights_;
             path := path weights_ + 0.15;
             personal := personal weights_ - 0.05 |}
        else weights_ in
      weights_
  end.

(** *** Vocabulary *)

(** The weight lies in [[0, 1]]. *)
Definition unitWeight (x : float) : Prop := Double.le 0 x /\ Double.le x 1.

(** The five weights added up as doubles, in the order of the properties
    of the object. *)
Definition addedUp (w : Weights) : float :=
  environment w + wildlife w + facility w + path w + personal w.

(** The sum of the five numbers that the weights are, without
    rounding. *)
Definition exactSum (w : Weights) : Q :=
  (Double.toQ (environment w) + Double.toQ (wildlife w) + Double.toQ (facility w) +
   Double.toQ (path w) + Double.toQ (personal w))%Q.

End Scorer64.

(** ** The two great-circle distance functions, in binary64

    [Math.sin], [Math.cos] and [Math.atan2] are implementation-approximated
    in ECMAScript: the model takes them as parameters.  [Math.sqrt] is the
    correctly rounded square root, and [x ** 2] is taken as [x * x]. *)

Module Geo64.
Import PrimFloat.
#[local] Set Warnings "-inexact-float".
Local Open Scope float_scope.

Record LatLng : Type := { lat : float; lng : float }.

Section Engine.
Variable Math_sin : float -> float.
Variable Math_cos : float -> float.
Variable Math_atan2 : float -> float -> float.

(** [haversine(p1, p2)] of the map module, on arrays [[lat, lng]]. *)
Definition haversine (p1 p2 : float * float) : float :=
  let R := 6371000 in
  let lat1 := fst p1 * Double.Math_PI / 180 in
  let lng1 := snd p1 * Double.Math_PI / 180 in
  let lat2 := fst p2 * Double.Math_PI / 180 in
  let lng2 := snd p2 * Double.Math_PI / 180 in
  let dlat := lat2 - lat1 in
  let dlng := lng2 - lng1 in
  let A := Math_sin (dlat / 2) * Math_sin (dlat / 2) +
           Math_cos lat1 * Math_cos lat2 * (Math_sin (dlng / 2) * Math_sin (dlng / 2)) in
  2 * R * Math_atan2 (sqrt A) (sqrt (1 - A)).

(** [calculateDistance(point1, point2)] of the route scorer, on objects
    [{lat, lng}]. *)
Definition calculateDistance (point1 point2 : LatLng) : float :=
  let R := 6371e3 in
  let phi1 := lat point1 * Double.Math_PI / 180 in
  let phi2 := lat point2 * Double.Math_PI / 180 in
  let dphi := (lat point2 - lat point1) * Double.Math_PI / 180 in
  let dlambda := (lng point2 - lng point1) * Double.Math_PI / 180 in
  let a := Math_sin (dphi / 2) * Math_sin (dphi / 2) +
           Math_cos phi1 * Math_cos phi2 *
           Math_sin (dlambda / 2) * Math_sin (dlambda / 2) in
  let c := 2 * Math_atan2 (sqrt a) (sqrt (1 - a)) in
  R * c.

End Engine.

(** *** Vocabulary *)

(** The difference of the two latitudes in radians, as each function
    computes it. *)
Definition haversine_dlat (p1 p2 : float * float) : float :=
  fst p2 * Double.Math_PI / 180 - fst p1 * Double.Math_PI / 180.

Definition calculateDistance_dphi (point1 point2 : LatLng) : float :=
  (lat point2 - lat point1) * Double.Math_PI / 180.

End Geo64.

(** ** Scenarios

    Concrete graphs, routes and contexts on which the model is run. *)

Module Scenarios.
Import JsMap Scorer.
Local Open Scope string_scope.
Local Open Scope list_scope.
Local Open Scope Q_scope.

(** A two-node trail: one line of two points, 100 m apart. *)
Definition two_node_graph : ParkMap.Graph :=
  {| TrailMap.nodes :=
       [ ("node_0", {| TrailMap.id := "node_0"; TrailMap.latlng := (0, 0)%R;
                       TrailMap.adj := [("node_1", 100%R)] |});
         ("node_1", {| TrailMap.id := "node_1"; TrailMap.latlng := (0, 1)%R;
                       TrailMap.adj := [("node_0", 100%R)] |}) ];
     TrailMap.edges :=
       [ {| TrailMap.from := "node_0"; TrailMap.to := "node_1"; TrailMap.weight := 100%R |} ] |}.

Definition noFilters : Filters :=
  {| maxDistance := None; minDistance := None; maxDuration := None;
     filter_difficulty := None; filter_accessible := false; filter_weather := None |}.

Definition noPreferences : Preferences := flags false false false false.

(** 8 o'clock on a day in May. *)
Definition morning : Date := {| getHours := 8; getMonth := 4 |}.

(** A stand-in for the great-circle distance to run the selector with:
    111195 m per degree of latitude or longitude. *)
Definition flat_distance (p q : LatLng) : Q :=
  111195 * (Qabs (lat q - lat p) + Qabs (lng q - lng p)).

(** The context [recommendRoutes] builds when the filters carry no
    weather. *)
Definition morningContext : Context :=
  {| weather := Some getCurrentWeather; time := Some morning;
     season := Some (getCurrentSeason morning) |}.

(** A plain 1200 m route starting at [start]. *)
Definition plainRoute (start : LatLng) : Route :=
  {| distance := Some 1200; estimatedTime := Some 15; difficulty := Some "easy";
     accessible := true; facilities := None; wildlifeData := None; species := None;
     wildlifeHistory := None; recentSightings := None; nearWater := false;
     vegetationCoverage := None; crowdDensity := None; shelterCoverage := None;
     shadeCoverage := None; exposureLevel := None; surfaceQuality := None;
     gradient := None; safety := None; scenery := None; themes := None;
     startPoint := Some start |}.

Definition userLocation0 : LatLng := {| lat := 51.5; lng := - 0.13 |}.
Definition nearRoute : Route := plainRoute {| lat := 51.5; lng := - 0.13 |}.
Definition farRoute : Route := plainRoute {| lat := 51.51; lng := - 0.13 |}.

(** The scored route [recommendRoutes] makes of [route] for a user at
    [userLocation0]. *)
Definition scoredFrom (route : Route) (start : LatLng) : ScoredRoute :=
  {| route_of := route;
     scoreResult := calculateScore morning route noPreferences morningContext;
     distanceFromUser := Some (flat_distance userLocation0 start);
     distanceScore := Qmax 0 (1 - flat_distance userLocation0 start / 5000) |}.

(** A lakeside route of the given length and themes, and a hill route. *)
Definition lakeRoute (d : Q) (themes_ : list string) : Route :=
  {| distance := Some d; estimatedTime := Some 15; difficulty := Some "easy";
     accessible := true;
     facilities := Some [ {| type := "toilet"; status := "open" |};
                          {| type := "bench"; status := "open" |};
                          {| type := "water"; status := "open" |} ];
     wildlifeData := None; species := Some ["ducks"; "swans"];
     wildlifeHistory := Some 0.9;
     recentSightings := Some ["duck"; "swan"; "duck"; "heron"];
     nearWater := true; vegetationCoverage := Some 0.8; crowdDensity := Some 0.2;
     shelterCoverage := None; shadeCoverage := None; exposureLevel := None;
     surfaceQuality := None; gradient := None; safety := None; scenery := None;
     themes := Some themes_; startPoint := None |}.

Definition hillRoute : Route :=
  {| distance := Some 3000; estimatedTime := Some 40; difficulty := Some "hard";
     accessible := false; facilities := None; wildlifeData := None; species := None;
     wildlifeHistory := Some 0.1; recentSightings := None; nearWater := false;
     vegetationCoverage := Some 0.1; crowdDensity := Some 0.9;
     shelterCoverage := None; shadeCoverage := None; exposureLevel := None;
     surfaceQuality := Some 0.2; gradient := Some 0.2; safety := Some 0.2;
     scenery := Some 0.2; themes := Some ["hill"; "view"]; startPoint := None |}.

Definition lakeA : Route := lakeRoute 1200 ["lake"; "birds"; "flowers"; "history"; "quiet"].
Definition lakeB : Route := lakeRoute 1260 ["lake"; "birds"; "flowers"; "history"; "cafe"].
Definition lakeC : Route := lakeRoute 1230 ["lake"; "birds"; "flowers"; "history"; "quiet"].

(** The scored route [recommendRoutes] makes of [route] without a user
    location. *)
Definition scoredNowhere (route : Route) : ScoredRoute :=
  {| route_of := route;
     scoreResult := calculateScore morning route noPreferences morningContext;
     distanceFromUser := None;
     distanceScore := 0.5 |}.

(** The route of the usage example that closes route-scoring.js. *)
Definition exampleRoute : Route :=
  {| distance := Some 1200; estimatedTime := Some 15; difficulty := Some "easy";
     accessible := false;
     facilities := Some [ {| type := "toilet"; status := "open" |};
                          {| type := "bench"; status := "open" |};
                          {| type := "water"; status := "open" |} ];
     wildlifeData := Some [("birds", 0.8); ("squirrels", 0.6)]; species := None;
     wildlifeHistory := None; recentSightings := None;
     nearWater := true; vegetationCoverage := Some 0.7; crowdDensity := None;
     shelterCoverage := Some 0.4; shadeCoverage := Some 0.6; exposureLevel := None;
     surfaceQuality := None; gradient := None; safety := None; scenery := None;
     themes := None; startPoint := None |}.



(** The graph the builder returns for [trailFeatures]. *)
Definition graphOf (trailFeatures : list ParkMap.Feature) : ParkMap.Graph :=
  match ParkMap.buildTrailGraph trailFeatures with
  | Returns g => g
  | _ => {| TrailMap.nodes := []; TrailMap.edges := [] |}
  end.

(** Two trail lines, of three and of two points, that meet: the last
    point of the first is the first point of the second. *)
Definition twoLines : list ParkMap.Feature :=
  [ParkMap.lineString [(0, 0); (1, 1); (2, 2)]%R] ++ [ParkMap.lineString [(2, 2); (3, 3)]%R].





(** A hot sunny day with heavy rain. *)
Definition hotWeather : Weather :=
  {| precipitation := Some 6; temperature := Some 28; windSpeed := None;
     humidity := None; sunny := None |}.

(** A point of interest in St James's Park. *)
Definition parkPoint : Layers.Feature :=
  {| Layers.geometry := Some (Layers.Point [(- 0.135)%R; 51.503%R]) |}.

(** The filters [{maxDistance: 0}]. *)
Definition zeroLimit : Filters :=
  {| maxDistance := Some 0; minDistance := None; maxDuration := None;
     filter_difficulty := None; filter_accessible := false; filter_weather := None |}.

End Scenarios.

(** ** Scenarios in binary64 *)

Module Scenarios64.
Import PrimFloat.
#[local] Set Warnings "-inexact-float".
Local Open Scope string_scope.
Local Open Scope list_scope.
Local Open Scope float_scope.

(** Series that stand in for the engine's [Math.sin], [Math.cos] and
    [Math.atan2] (for a small quotient of its arguments), summed in
    binary64. *)
Fixpoint cosineSeries (terms : nat) (k x2 : float) : float :=
  match terms with
  | O => 1
  | S terms' =>
      (1 - x2 / (k * (k + 1)) * cosineSeries terms' (k + 2) x2)
  end.

Definition seriesSin (x : float) : float :=
  (x * cosineSeries 12 2 (x * x)).

Definition seriesCos (x : float) : float :=
  cosineSeries 12 1 (x * x).

Fixpoint arctanSeries (terms : nat) (k t2 : float) : float :=
  match terms with
  | O => (1 / k)
  | S terms' => (1 / k - t2 * arctanSeries terms' (k + 2) t2)
  end.

Definition seriesAtan2 (y x : float) : float :=
  let t := (y / x) in (t * arctanSeries 12 1 (t * t)).

(** Two points in London on one meridian, a hundredth of a degree of
    latitude apart, as the array of the map module and as the object of
    the scorer. *)
Definition southPoint : float * float := (51.5, -0.13).
Definition northPoint : float * float := (51.51, -0.13).
Definition southLatLng : Geo64.LatLng := {| Geo64.lat := 51.5; Geo64.lng := -0.13 |}.
Definition northLatLng : Geo64.LatLng := {| Geo64.lat := 51.51; Geo64.lng := -0.13 |}.

(** A graph with weights in binary64 on which a sum is rounded: [a] is
    joined to [b] and to [c] by arcs of weight 2^53, [b] to [d] by an
    arc of weight 1 and [c] to [d] by an arc of weight 0. *)
Definition roundingGraph : TrailMap.Graph float :=
  {| TrailMap.nodes :=
       [ ("a", {| TrailMap.id := "a"; TrailMap.latlng := (0, 0);
                  TrailMap.adj := [("b", 9007199254740992);
                                   ("c", 9007199254740992)] |});
         ("b", {| TrailMap.id := "b"; TrailMap.latlng := (0, 1);
                  TrailMap.adj := [("a", 9007199254740992); ("d", 1)] |});
         ("c", {| TrailMap.id := "c"; TrailMap.latlng := (1, 0);
                  TrailMap.adj := [("a", 9007199254740992); ("d", 0)] |});
         ("d", {| TrailMap.id := "d"; TrailMap.latlng := (1, 1);
                  TrailMap.adj := [("b", 1); ("c", 0)] |}) ];
     TrailMap.edges :=
       [ {| TrailMap.from := "a"; TrailMap.to := "b"; TrailMap.weight := 9007199254740992 |};
         {| TrailMap.from := "a"; TrailMap.to := "c"; TrailMap.weight := 9007199254740992 |};
         {| TrailMap.from := "b"; TrailMap.to := "d"; TrailMap.weight := 1 |};
         {| TrailMap.from := "c"; TrailMap.to := "d"; TrailMap.weight := 0 |} ] |}.

End Scenarios64.

(** * Facts about the model *)

Module JsMapFacts.
Import JsMap.
Section Facts.
Context {V : Type}.
Implicit Types (m : JsMap.t V) (k : string) (v : V).

Lemma map_get_set_same k v m : map_get k (map_set k v m) = Some v.
Proof.
  induction m as [|[k' v'] m IH]; simpl.
  - now rewrite String.eqb_refl.
  - destruct (String.eqb k k') eqn:E; simpl; rewrite ?E, ?String.eqb_refl; auto.
Qed.

Lemma map_get_set_other k k' v m :
  k <> k' -> map_get k (map_set k' v m) = map_get k m.
Proof.
  intros Hne. induction m as [|[k2 v2] m IH]; simpl.
  - apply String.eqb_neq in Hne. now rewrite Hne.
  - destruct (String.eqb k' k2) eqn:E; simpl.
    + apply String.eqb_eq in E. subst k2.
      apply String.eqb_neq in Hne. now rewrite Hne.
    + now rewrite IH.
Qed.

Lemma map_keys_set_fresh k v m :
  map_get k m = None -> map_keys (map_set k v m) = map_keys m ++ [k].
Proof.
  induction m as [|[k' v'] m IH]; simpl; intros H; [reflexivity|].
  destruct (String.eqb k k') eqn:E; [discriminate|].
  unfold map_keys in *. simpl. now rewrite IH.
Qed.

Lemma map_keys_set_present k v m :
  map_get k m <> None -> map_keys (map_set k v m) = map_keys m.
Proof.
  induction m as [|[k' v'] m IH]; simpl; intros H; [congruence|].
  destruct (String.eqb k k') eqn:E; unfold map_keys in *; simpl.
  - apply String.eqb_eq in E. now subst.
  - now rewrite IH.
Qed.

Lemma map_get_none_keys k m : map_get k m = None <-> ~ In k (map_keys m).
Proof.
  induction m as [|[k' v'] m IH]; simpl; [tauto|].
  destruct (String.eqb k k') eqn:E.
  - apply String.eqb_eq in E. subst. split; [discriminate|tauto].
  - apply String.eqb_neq in E. rewrite IH.
    split; [intros H [H'|H']; congruence | tauto].
Qed.

Lemma map_size_keys m : map_size m = List.length (map_keys m).
Proof. unfold map_size, map_keys. now rewrite length_map. Qed.

End Facts.

Lemma set_has_In k s : set_has k s = true <-> In k s.
Proof.
  induction s as [|k' s IH]; simpl; [split; [discriminate|tauto]|].
  destruct (String.eqb k k') eqn:E.
  - apply String.eqb_eq in E. subst. tauto.
  - apply String.eqb_neq in E. rewrite IH. split; [tauto|intros [H|H]; congruence].
Qed.

Lemma set_delete_length k s :
  In k s -> S (List.length (set_delete k s)) = List.length s.
Proof.
  induction s as [|k' s IH]; simpl; [tauto|].
  destruct (String.eqb k k') eqn:E; [reflexivity|].
  apply String.eqb_neq in E. intros [H|H]; [congruence|].
  simpl. now rewrite IH.
Qed.

Lemma set_delete_other (c k : string) (s : set_t) :
  In k s -> k <> c -> In k (set_delete c s).
Proof.
  induction s as [|x s IH]; simpl; [tauto|]. intros [->|Hk] Hne.
  - destruct (String.eqb c k) eqn:E; [|now left].
    apply String.eqb_eq in E. congruence.
  - destruct (String.eqb c x); [assumption|]. right. now apply IH.
Qed.

Lemma in_map_set {V : Type} (k k0 : string) (v v0 : V) (m : JsMap.t V) :
  In (k, v) (map_set k0 v0 m) -> (k = k0 /\ v = v0) \/ In (k, v) m.
Proof.
  induction m as [|[k' v'] m IH]; simpl.
  - intros [[= <- <-]|[]]. now left.
  - destruct (String.eqb k0 k').
    + intros [[= <- <-]|H]; [now left|right; now right].
    + intros [H|H]; [right; now left|].
      destruct (IH H) as [H'|H']; [now left|right; now right].
Qed.

End JsMapFacts.

Module TrailMapFacts.
Import JsMap JsMapFacts TrailMap.

Section Dijkstra.
Variable num : Type.
Variable num_lt : num -> num -> bool.
Variable num_add : num -> num -> num.
Variable num_zero : num.

Lemma dist_lt_finite (a b : dist num) :
  dist_lt num_lt a b = true -> exists x, a = Finite x.
Proof. destruct a; simpl; try discriminate. eauto. Qed.

Lemma select_ok ds unv : select_result ds (select num_lt ds unv).
Proof.
  unfold select.
  assert (H : select_result ds (None, Infinity num)) by (now left).
  revert H. generalize (@None string, Infinity num).
  induction unv as [|k unv IH]; intros acc Hacc; simpl; [exact Hacc|].
  apply IH.
  destruct (dist_lt num_lt (getD k ds) (snd acc)) eqn:E; [|exact Hacc].
  destruct (dist_lt_finite _ _ E) as [x Hx].
  right. exists k, x. now rewrite Hx.
Qed.

(** Before [distances.set(startId, 0)] every estimate is [Infinity]. *)
Lemma init_all_infinite (keys : list string) (acc : JsMap.t (dist num) * set_t) :
  (forall k d, map_get k (fst acc) = Some d -> d = Infinity num) ->
  forall k d,
    map_get k (fst (fold_left
                      (fun (st : JsMap.t (dist num) * set_t) nodeId =>
                         (map_set nodeId (Infinity num) (fst st), set_add nodeId (snd st)))
                      keys acc)) = Some d ->
    d = Infinity num.
Proof.
  revert acc. induction keys as [|n keys IH]; intros acc Hacc k d; simpl; [apply Hacc|].
  apply IH. simpl. intros k' d' H.
  destruct (string_dec k' n) as [->|Hne].
  - rewrite map_get_set_same in H. congruence.
  - rewrite map_get_set_other in H by assumption. eauto.
Qed.

Lemma init_finite_is_start (g : Graph num) (s k : string) (x : num) :
  getD k (distances (init num_zero g s)) = Finite x -> k = s.
Proof.
  unfold init, getD. simpl. intros H.
  destruct (string_dec k s) as [|Hne]; [assumption|exfalso].
  rewrite map_get_set_other in H by assumption.
  destruct (map_get k _) eqn:E; [|discriminate].
  apply init_all_infinite in E; [congruence|]. simpl. discriminate.
Qed.

(** When only the target can carry a finite estimate, the loop is left in
    its first iteration, before any relaxation: [previous] is unchanged. *)
Lemma main_loop_only_target (g : Graph num) (s : string) (st : State num) :
  (forall c x, getD c (distances st) = Finite x -> c = s) ->
  exists st', main_loop num_lt num_add (List.length (unvisited st)) g s st = Returns st' /\
              previous st' = previous st.
Proof.
  destruct st as [ds prev unv]. simpl. intros Hfin.
  destruct unv as [|u unv]; simpl; [eauto|].
  destruct (select_ok ds (u :: unv)) as [H|(c & x & H & Hc)];
    simpl in H; rewrite H.
  - eauto.
  - apply Hfin in Hc. subst c.
    destruct (truthy s); simpl; [|eauto].
    rewrite String.eqb_refl. eauto.
Qed.

Lemma walk_back_none (fuel : nat) (prev : JsMap.t string) (path : list string) :
  walk_back fuel prev None path = Returns path.
Proof. now destruct fuel. Qed.

Lemma dijkstra_same_endpoints (trailGraph : option (Graph num)) (s : string) :
  dijkstra num_lt num_add num_zero trailGraph s s = Returns None.
Proof.
  destruct trailGraph as [g|]; [|reflexivity].
  unfold dijkstra.
  destruct (main_loop_only_target g (init num_zero g s)
              (init_finite_is_start g s)) as (st & -> & Hprev).
  rewrite Hprev. cbn [walk_back init previous map_get].
  destruct (truthy s); [rewrite walk_back_none|]; reflexivity.
Qed.

(** The scan only ever picks an id of the set it scans. *)
Lemma select_fold_in ds (full todo : set_t) :
  forall (acc : option string * dist num) c d,
    (forall c', fst acc = Some c' -> In c' full) ->
    incl todo full ->
    fold_left
      (fun (acc : option string * dist num) nodeId =>
         if dist_lt num_lt (getD nodeId ds) (snd acc)
         then (Some nodeId, getD nodeId ds)
         else acc)
      todo acc = (Some c, d) ->
    In c full.
Proof.
  induction todo as [|k todo IH]; intros acc c d Hacc Hsub Hsel; simpl in *.
  - apply Hacc. now rewrite Hsel.
  - apply IH in Hsel; [assumption| |].
    + intros c'. destruct (dist_lt num_lt (getD k ds) (snd acc)).
      * simpl. intros [= <-]. apply Hsub. now left.
      * apply Hacc.
    + intros x Hx. apply Hsub. now right.
Qed.

Lemma select_in ds unv c d :
  select num_lt ds unv = (Some c, d) -> In c unv.
Proof.
  unfold select. apply select_fold_in; [simpl; discriminate|apply incl_refl].
Qed.

(** The fuel [dijkstra] gives the loop, the size of [unvisited], is
    enough: the loop returns or throws. *)
Lemma main_loop_fuel (g : Graph num) (endId : string) (fuel : nat) :
  forall st, (List.length (unvisited st) <= fuel)%nat ->
             main_loop num_lt num_add fuel g endId st <> OutOfFuel.
Proof.
  induction fuel as [|fuel IH]; intros [ds prev unv] Hlen; simpl in *.
  - destruct unv; [discriminate|simpl in Hlen; lia].
  - destruct unv as [|u unv]; [discriminate|].
    destruct (select num_lt ds (u :: unv)) as [[c|] d] eqn:Hsel; [|discriminate].
    destruct (negb (truthy c) || is_Infinity d); [discriminate|].
    destruct (String.eqb c endId); [discriminate|].
    destruct (map_get c (nodes g)); [|discriminate].
    destruct (relax _ _ _ _ _ _ _) as [ds' prev'].
    apply IH. cbn [unvisited].
    apply select_in in Hsel. apply set_delete_length in Hsel.
    change (List.length (u :: unv)) with (S (List.length unv)) in Hsel, Hlen.
    lia.
Qed.

(** *** The search always returns *)

Lemma visit_rank_le (order : list string) (k : string) :
  (visit_rank order k <= List.length order)%nat.
Proof.
  induction order as [|x rest IH]; simpl; [lia|].
  destruct (String.eqb x k); lia.
Qed.

Lemma set_delete_incl (c : string) (s : set_t) : incl (set_delete c s) s.
Proof.
  induction s as [|x s IH]; simpl; [apply incl_refl|].
  destruct (String.eqb c x).
  - apply incl_tl, incl_refl.
  - intros y [<-|Hy]; [now left|right; now apply IH].
Qed.

Lemma set_delete_NoDup (c : string) (s : set_t) :
  NoDup s -> NoDup (set_delete c s) /\ ~ In c (set_delete c s).
Proof.
  induction s as [|x s IH]; simpl; intros Hnd; [split; [constructor|tauto]|].
  inversion Hnd as [|? ? Hx Hs]; subst.
  destruct (String.eqb c x) eqn:E.
  - apply String.eqb_eq in E. subst. auto.
  - apply String.eqb_neq in E. destruct (IH Hs) as [Hnd' Hc]. split.
    + constructor; [|assumption]. intros Hin. apply Hx. now apply (set_delete_incl c s).
    + intros [H|H]; [congruence|contradiction].
Qed.

Lemma set_add_NoDup (k : string) (s : set_t) : NoDup s -> NoDup (set_add k s).
Proof.
  intros Hnd. unfold set_add. destruct (set_has k s) eqn:E; [assumption|].
  apply NoDup_app; [assumption|repeat constructor; simpl; tauto|].
  intros x Hx [<-|[]]. apply set_has_In in Hx. congruence.
Qed.

Lemma set_add_incl (k : string) (s full : set_t) :
  In k full -> incl s full -> incl (set_add k s) full.
Proof.
  intros Hk Hs. unfold set_add. destruct (set_has k s); [assumption|].
  apply incl_app; [assumption|]. intros x [<-|[]]. assumption.
Qed.

Lemma init_unvisited (full keys : list string) :
  forall acc : JsMap.t (dist num) * set_t,
    incl keys full -> NoDup (snd acc) -> incl (snd acc) full ->
    let unv := snd (fold_left
                      (fun (st : JsMap.t (dist num) * set_t) nodeId =>
                         (map_set nodeId (Infinity num) (fst st), set_add nodeId (snd st)))
                      keys acc) in
    NoDup unv /\ incl unv full.
Proof.
  induction keys as [|k keys IH]; intros acc Hkeys Hnd Hincl; simpl; [auto|].
  apply IH; simpl.
  - intros x Hx. apply Hkeys. now right.
  - now apply set_add_NoDup.
  - apply set_add_incl; [apply Hkeys; now left|assumption].
Qed.

Lemma init_searching (g : Graph num) (startId : string) :
  searching g (init num_zero g startId) [].
Proof.
  destruct (@init_unvisited (map_keys (nodes g)) (map_keys (nodes g)) ([], []))
    as [Hnd Hincl]; [apply incl_refl|constructor|intros x []|].
  unfold searching, init. cbn [unvisited previous].
  split; [exact Hnd|]. split; [|split].
  - intros k Hk. split; [reflexivity|]. intros Hnone.
    apply map_get_none_keys in Hnone. apply Hnone. now apply Hincl.
  - simpl. rewrite map_size_keys. now apply NoDup_incl_length.
  - intros k p H. discriminate H.
Qed.

(** An entry of [previous] after a relaxation is an old one, or leads
    from a node that is still unvisited to [current]. *)
Lemma relax_fold_previous (current : string) (unv : set_t) (adjacency : JsMap.t num) :
  forall (acc : JsMap.t (dist num) * JsMap.t string) k p,
    map_get k
      (snd (fold_left
              (fun (acc : JsMap.t (dist num) * JsMap.t string) (entry : string * num) =>
                 let '(neighborId, w) := entry in
                 if set_has neighborId unv then
                   let alt := dist_add num_add (getD current (fst acc)) w in
                   if dist_lt num_lt alt (getD neighborId (fst acc))
                   then (map_set neighborId alt (fst acc),
                         map_set neighborId current (snd acc))
                   else acc
                 else acc)
              adjacency acc)) = Some p ->
    (In k unv /\ p = current) \/ map_get k (snd acc) = Some p.
Proof.
  induction adjacency as [|[n w] adjacency IH]; intros acc k p; simpl.
  - auto.
  - intros H. apply IH in H. destruct H as [H|H]; [now left|].
    destruct (set_has n unv) eqn:Hn; [|now right].
    destruct (dist_lt num_lt _ _); simpl in H; [|now right].
    destruct (string_dec k n) as [->|Hne].
    + rewrite map_get_set_same in H. injection H as <-.
      left. split; [now apply set_has_In|reflexivity].
    + rewrite map_get_set_other in H by assumption. now right.
Qed.

Lemma relax_previous (current : string) (unv : set_t) (adjacency : JsMap.t num) :
  forall ds prev k p,
    map_get k (snd (relax num_lt num_add current adjacency unv ds prev)) = Some p ->
    (In k unv /\ p = current) \/ map_get k prev = Some p.
Proof.
  intros ds prev k p H. unfold relax in H.
  now apply relax_fold_previous in H.
Qed.

Lemma searching_walkable (g : Graph num) (st : State num) (order : list string) :
  searching g st order -> walkable g (previous st) order.
Proof. intros (_ & _ & Hlen & Hprev). split; [lia|assumption]. Qed.

(** A step of the loop keeps the invariant, with the visited node added
    to the order. *)
Lemma searching_step (g : Graph num) (st : State num) (order : list string)
    (current : string) (currentNode : Node num) :
  searching g st order -> In current (unvisited st) ->
  searching g
    {| distances := fst (relax num_lt num_add current (adj currentNode)
                           (set_delete current (unvisited st))
                           (distances st) (previous st));
       previous := snd (relax num_lt num_add current (adj currentNode)
                          (set_delete current (unvisited st))
                          (distances st) (previous st));
       unvisited := set_delete current (unvisited st) |}
    (current :: order).
Proof.
  intros (Hnd & Hunv & Hlen & Hprev) Hcur.
  destruct (set_delete_NoDup current Hnd) as [Hnd' Hgone].
  pose proof (set_delete_length _ _ Hcur) as Hdel.
  destruct (Hunv _ Hcur) as [Hrank0 _].
  assert (Hrank : forall k, k <> current ->
                            visit_rank (current :: order) k = visit_rank order k).
  { intros k Hne. simpl. destruct (String.eqb current k) eqn:E; [|reflexivity].
    apply String.eqb_eq in E. congruence. }
  assert (Hrank_cur : visit_rank (current :: order) current = S (List.length order))
    by (simpl; now rewrite String.eqb_refl).
  unfold searching. cbn [unvisited previous].
  split; [exact Hnd'|]. split; [|split].
  - intros k Hk.
    assert (Hne : k <> current) by (intros ->; contradiction).
    rewrite (Hrank _ Hne). apply Hunv. now apply (set_delete_incl current).
  - cbn [List.length]. lia.
  - intros k p H. apply relax_previous in H. destruct H as [[Hk ->]|Hold].
    + rewrite Hrank_cur. split; [lia|]. intros Hpos. exfalso.
      assert (Hne : k <> current) by (intros ->; contradiction).
      rewrite (Hrank _ Hne) in Hpos.
      destruct (Hunv k (set_delete_incl current _ _ Hk)) as [Hk0 _]. lia.
    + destruct (Hprev _ _ Hold) as [Hp Hlt].
      assert (Hpne : p <> current) by (intros ->; lia).
      rewrite (Hrank _ Hpne). split; [assumption|]. intros Hpos.
      destruct (string_dec k current) as [->|Hne].
      * rewrite Hrank_cur. pose proof (visit_rank_le order p). lia.
      * rewrite (Hrank _ Hne) in *. now apply Hlt.
Qed.

Lemma main_loop_returns (g : Graph num) (endId : string) (fuel : nat) :
  forall st order,
    searching g st order -> (List.length (unvisited st) <= fuel)%nat ->
    exists st' order',
      main_loop num_lt num_add fuel g endId st = Returns st' /\
      walkable g (previous st') order'.
Proof.
  induction fuel as [|fuel IH]; intros [ds prev unv] order Hinv Hlen.
  - destruct unv; [|simpl in Hlen; lia].
    exists {| distances := ds; previous := prev; unvisited := [] |}, order.
    split; [reflexivity|]. now apply searching_walkable in Hinv.
  - cbn [main_loop unvisited distances previous].
    destruct unv as [|u unv].
    { eexists. exists order. split; [reflexivity|]. now apply searching_walkable in Hinv. }
    destruct (select num_lt ds (u :: unv)) as [[c|] d] eqn:Hsel.
    2:{ eexists. exists order. split; [reflexivity|]. now apply searching_walkable in Hinv. }
    destruct (negb (truthy c) || is_Infinity d).
    { eexists. exists order. split; [reflexivity|]. now apply searching_walkable in Hinv. }
    destruct (String.eqb c endId).
    { eexists. exists order. split; [reflexivity|].
      apply searching_walkable in Hinv. exact Hinv. }
    apply select_in in Hsel.
    destruct Hinv as (Hnd & Hunv & Hlen' & Hprev).
    destruct (Hunv c Hsel) as [_ Hnode].
    destruct (map_get c (nodes g)) as [currentNode|] eqn:Hget; [|congruence].
    pose proof (@searching_step g
                  {| distances := ds; previous := prev; unvisited := u :: unv |}
                  order c currentNode (conj Hnd (conj Hunv (conj Hlen' Hprev))) Hsel) as Hstep.
    cbn [unvisited previous distances] in Hstep.
    destruct (relax num_lt num_add c (adj currentNode) (set_delete c (u :: unv)) ds prev)
      as [ds' prev'] eqn:Hrelax.
    cbn [fst snd] in Hstep.
    apply (IH _ _ Hstep).
    pose proof (set_delete_length _ _ Hsel) as Hdel.
    cbn [unvisited List.length] in Hlen, Hdel |- *. lia.
Qed.

(** The walk back ends: every step leads to a node of lower rank. *)
Lemma walk_back_returns (g : Graph num) (prev : JsMap.t string) (order : list string) :
  walkable g prev order ->
  forall fuel c path,
    (match visit_rank order c with
     | O => S (List.length order)
     | S r => S r
     end <= fuel)%nat ->
    exists r, walk_back fuel prev (Some c) path = Returns r.
Proof.
  intros [_ Hprev]. induction fuel as [|fuel IH]; intros c path Hfuel.
  - destruct (visit_rank order c); lia.
  - cbn [walk_back]. destruct (truthy c); [|eauto].
    destruct (map_get c prev) as [p|] eqn:Hget; [|rewrite walk_back_none; eauto].
    apply IH. destruct (Hprev _ _ Hget) as [Hp Hlt].
    pose proof (visit_rank_le order p).
    destruct (visit_rank order p) as [|rp]; [lia|].
    destruct (visit_rank order c) as [|rc]; [lia|].
    assert (S rp < S rc)%nat by (apply Hlt; lia). lia.
Qed.

(** [dijkstra] always returns, a path or [null]: it neither loops for
    ever nor reads a node that is not in the graph. *)
Lemma dijkstra_returns (trailGraph : option (Graph num)) (startId endId : string) :
  exists r, dijkstra num_lt num_add num_zero trailGraph startId endId = Returns r.
Proof.
  destruct trailGraph as [g|]; [|simpl; eauto].
  unfold dijkstra.
  destruct (@main_loop_returns g endId _ _ _ (init_searching g startId) (Nat.le_refl _))
    as (st & order & -> & Hwalk).
  destruct (@walk_back_returns g (previous st) order Hwalk (S (map_size (nodes g))) endId [])
    as [path ->]; [|eauto].
  destruct Hwalk as [Hlen _]. pose proof (visit_rank_le order endId).
  destruct (visit_rank order endId); lia.
Qed.

Lemma getD_set_same k (d : dist num) ds : getD k (map_set k d ds) = d.
Proof. unfold getD. now rewrite map_get_set_same. Qed.

Lemma getD_set_other k k' (d : dist num) ds :
  k <> k' -> getD k (map_set k' d ds) = getD k ds.
Proof. intros H. unfold getD. now rewrite map_get_set_other. Qed.

(** The scan returns an id of the set together with its finite estimate. *)
Lemma select_some ds unv c d :
  select num_lt ds unv = (Some c, d) ->
  In c unv /\ exists x, d = Finite x /\ getD c ds = Finite x.
Proof.
  intros H. split; [now apply select_in in H|].
  destruct (select_ok ds unv) as [E|(c' & x & E & Hc)]; rewrite H in E.
  - discriminate.
  - injection E as -> ->. eauto.
Qed.

(** An invariant of the loop holds of the state in which it is left. *)
Lemma main_loop_rule (g : Graph num) (endId : string) (I : State num -> Prop) :
  (forall st current x currentNode,
      I st ->
      select num_lt (distances st) (unvisited st) = (Some current, Finite x) ->
      truthy current = true -> current <> endId ->
      map_get current (nodes g) = Some currentNode ->
      I (visit num_lt num_add current currentNode st)) ->
  forall fuel st st',
    I st -> main_loop num_lt num_add fuel g endId st = Returns st' ->
    exists st0, I st0 /\ leaves num_lt endId st0 st'.
Proof.
  intros Hstep. induction fuel as [|fuel IH]; intros st st' Hst Hrun.
  - destruct st as [ds prev [|u unv]]; simpl in Hrun; [|discriminate].
    injection Hrun as <-. exists {| distances := ds; previous := prev; unvisited := [] |}.
    split; [assumption|]. now left.
  - cbn [main_loop] in Hrun.
    destruct (unvisited st) as [|u unv] eqn:Hunv.
    { injection Hrun as <-. exists st. split; [assumption|]. left. auto. }
    rewrite <- Hunv in Hrun.
    destruct (select num_lt (distances st) (unvisited st)) as [[c|] d] eqn:Hsel.
    2:{ injection Hrun as <-. exists st. split; [assumption|]. right. left. eauto. }
    destruct (select_some _ _ Hsel) as [Hin (x & -> & Hc)].
    destruct (truthy c) eqn:Htruthy; cbn [negb orb is_Infinity] in Hrun.
    2:{ injection Hrun as <-. exists st. split; [assumption|].
        right. right. left. eauto. }
    destruct (String.eqb c endId) eqn:Hend.
    { apply String.eqb_eq in Hend. subst c. injection Hrun as <-.
      exists st. split; [assumption|]. right. right. right. eauto. }
    apply String.eqb_neq in Hend.
    destruct (map_get c (nodes g)) as [currentNode|] eqn:Hget; [|discriminate].
    pose proof (Hstep st c x currentNode Hst Hsel Htruthy Hend Hget) as Hnext.
    unfold visit in Hnext.
    destruct (relax num_lt num_add c (adj currentNode) (set_delete c (unvisited st))
                (distances st) (previous st)) as [ds' prev'].
    cbn [fst snd] in Hnext.
    exact (IH _ _ Hnext Hrun).
Qed.

(** A property of the pair of maps that every update of the relaxation
    keeps holds after it. *)
Lemma relax_rule_sub (current : string) (unv : set_t)
    (J : JsMap.t (dist num) * JsMap.t string -> Prop) (full : JsMap.t num) :
  (forall acc n w,
      J acc -> In (n, w) full -> In n unv ->
      dist_lt num_lt (dist_add num_add (getD current (fst acc)) w) (getD n (fst acc)) = true ->
      J (map_set n (dist_add num_add (getD current (fst acc)) w) (fst acc),
         map_set n current (snd acc))) ->
  forall todo ds prev,
    incl todo full -> J (ds, prev) -> J (relax num_lt num_add current todo unv ds prev).
Proof.
  intros Hstep. induction todo as [|[n w] todo IH]; intros ds prev Hsub Hacc; [assumption|].
  assert (Hsub' : incl todo full) by (intros e He; apply Hsub; now right).
  unfold relax in *. cbn [fold_left].
  destruct (set_has n unv) eqn:Hn; [|now apply IH].
  cbn [fst snd].
  destruct (dist_lt num_lt _ _) eqn:Hlt; [|now apply IH].
  apply IH; [assumption|].
  apply (Hstep (ds, prev)); [assumption|apply Hsub; now left|now apply set_has_In|assumption].
Qed.

Lemma relax_rule (current : string) (unv : set_t)
    (J : JsMap.t (dist num) * JsMap.t string -> Prop) (adjacency : JsMap.t num) :
  (forall acc n w,
      J acc -> In (n, w) adjacency -> In n unv ->
      dist_lt num_lt (dist_add num_add (getD current (fst acc)) w) (getD n (fst acc)) = true ->
      J (map_set n (dist_add num_add (getD current (fst acc)) w) (fst acc),
         map_set n current (snd acc))) ->
  forall ds prev, J (ds, prev) -> J (relax num_lt num_add current adjacency unv ds prev).
Proof.
  intros Hstep ds prev. apply relax_rule_sub with adjacency; [assumption|apply incl_refl].
Qed.

Lemma tracing_shrink (g : Graph num) (s : string) (ds : JsMap.t (dist num))
    (prev : JsMap.t string) (unv unv' : set_t) :
  NoDup unv' -> incl unv' unv ->
  tracing num_add num_zero g s {| distances := ds; previous := prev; unvisited := unv |} ->
  tracing num_add num_zero g s {| distances := ds; previous := prev; unvisited := unv' |}.
Proof.
  intros Hnd Hsub (_ & H0 & Hs & Honly & Hkeys & Hprev & Hfin).
  unfold tracing. cbn [distances previous unvisited] in *.
  split; [assumption|]. split; [assumption|]. split; [assumption|].
  split; [intros Hin; apply Honly; now apply Hsub|].
  split; [intros k Hk; apply Hkeys; now apply Hsub|].
  split; [|assumption].
  intros k p Hkp. destruct (Hprev k p Hkp) as (Ht & Hp & Hk & Hrest).
  split; [assumption|]. split; [|split; assumption].
  intros Hin. apply Hp. now apply Hsub.
Qed.

(** Visiting the node the scan has picked keeps the record. *)
Lemma tracing_step (g : Graph num) (s : string) (st : State num) (c : string) (x : num)
    (node : Node num) :
  tracing num_add num_zero g s st ->
  select num_lt (distances st) (unvisited st) = (Some c, Finite x) ->
  truthy c = true -> map_get c (nodes g) = Some node ->
  tracing num_add num_zero g s (visit num_lt num_add c node st).
Proof.
  intros Htr Hsel Htruthy Hnode.
  destruct (select_some _ _ Hsel) as [Hin (x' & [= <-] & Hc)].
  pose proof Htr as (Hnd & H0 & Hs & Honly & _).
  destruct (set_delete_NoDup c Hnd) as [Hnd' Hgone].
  pose proof (set_delete_incl c (unvisited st)) as Hsub.
  set (unv := set_delete c (unvisited st)) in *.
  assert (Hsgone : ~ In s unv).
  { intros Hs'. assert (c = s) by (apply (Honly (Hsub _ Hs') c x Hc)). congruence. }
  unfold visit. fold unv.
  set (J := fun acc : JsMap.t (dist num) * JsMap.t string =>
              tracing num_add num_zero g s
                {| distances := fst acc; previous := snd acc; unvisited := unv |} /\
              getD c (fst acc) = Finite x).
  assert (HJ : J (relax num_lt num_add c (adj node) unv (distances st) (previous st))).
  { apply relax_rule.
    - intros [ds prev] n w [(_ & H0' & Hs' & _ & Hkeys & Hprev & Hfin) Hc'] Hentry Hn Hlt.
      unfold J. cbn [fst snd distances previous unvisited] in *.
      rewrite Hc' in *. cbn [dist_add] in *.
      assert (Hsn : s <> n) by (intros ->; contradiction).
      assert (Hcn : c <> n) by (intros ->; contradiction).
      split; [|now rewrite getD_set_other].
      unfold tracing. cbn [distances previous unvisited].
      split; [assumption|].
      split; [now rewrite getD_set_other|].
      split; [now rewrite map_get_set_other|].
      split; [intros Hin'; contradiction|].
      split; [assumption|]. split.
      + intros k p Hkp. destruct (string_dec k n) as [->|Hkn].
        * rewrite map_get_set_same in Hkp. injection Hkp as <-.
          split; [assumption|]. split; [assumption|]. split; [now apply Hkeys|].
          exists x, w. rewrite getD_set_other by assumption.
          rewrite getD_set_same. split; [assumption|]. split; [|reflexivity].
          exists node. auto.
        * rewrite map_get_set_other in Hkp by assumption.
          destruct (Hprev k p Hkp) as (Ht & Hp & Hk & y & w' & Hy & Harc & Hkd).
          split; [assumption|]. split; [assumption|]. split; [assumption|].
          exists y, w'.
          assert (Hpn : p <> n) by (intros ->; contradiction).
          now rewrite !getD_set_other by assumption.
      + intros k x0 Hk. destruct (string_dec k n) as [->|Hkn].
        * right. rewrite map_get_set_same. discriminate.
        * rewrite getD_set_other in Hk by assumption.
          rewrite map_get_set_other by assumption. eauto.
    - unfold J. split; [|assumption]. cbn [fst snd].
      apply tracing_shrink with (unvisited st); assumption. }
  exact (proj1 HJ).
Qed.

Lemma init_tracing (g : Graph num) (s : string) :
  tracing num_add num_zero g s (init num_zero g s).
Proof.
  destruct (@init_unvisited (map_keys (nodes g)) (map_keys (nodes g)) ([], []))
    as [Hnd Hincl]; [apply incl_refl|constructor|intros x []|].
  pose proof (init_finite_is_start g s) as Hfin.
  unfold tracing, init in *. cbn [distances previous unvisited] in *.
  split; [exact Hnd|].
  split; [apply getD_set_same|]. split; [reflexivity|].
  split; [intros _; exact Hfin|].
  split.
  { intros k Hk Hnone. apply map_get_none_keys in Hnone. apply Hnone. now apply Hincl. }
  split; [intros k p H; discriminate H|].
  intros k x Hk. left. now apply (Hfin k x).
Qed.

Lemma leaves_tracing (g : Graph num) (s e : string) (st0 st' : State num) :
  tracing num_add num_zero g s st0 -> leaves num_lt e st0 st' ->
  tracing num_add num_zero g s st'.
Proof.
  intros Htr [[_ ->]|[(d & _ & ->)|[(c & d & _ & _ & ->)|(d & _ & _ & ->)]]]; try assumption.
  pose proof Htr as (Hnd & _).
  apply tracing_shrink with (unvisited st0).
  - now apply set_delete_NoDup.
  - apply set_delete_incl.
  - assumption.
Qed.

(** The state in which the loop of a search from [s] is left. *)
Lemma main_loop_tracing (g : Graph num) (s e : string) (fuel : nat) (st' : State num) :
  main_loop num_lt num_add fuel g e (init num_zero g s) = Returns st' ->
  tracing num_add num_zero g s st'.
Proof.
  intros Hrun.
  destruct (@main_loop_rule g e (tracing num_add num_zero g s)) with (2 := init_tracing g s) (3 := Hrun)
    as (st0 & Htr & Hleave).
  - intros st c x node Htr Hsel Ht _ Hnode. now apply tracing_step with x.
  - now apply leaves_tracing with e st0.
Qed.

Lemma walk_nonempty (g : Graph num) (s e : string) (path : list string) (t : num) :
  walk num_add num_zero g s e path t -> path <> [].
Proof. intros [|b c p t' w _ _]; [discriminate|]. now destruct p. Qed.

(** Walking back from a node of finite estimate yields a walk from the
    start to it, of that estimate. *)
Lemma walk_back_chain (g : Graph num) (s : string) (st : State num) :
  tracing num_add num_zero g s st ->
  forall fuel k x acc r,
    truthy k = true -> getD k (distances st) = Finite x ->
    walk_back fuel (previous st) (Some k) acc = Returns r ->
    exists p, r = p ++ acc /\ walk num_add num_zero g s k p x.
Proof.
  intros (_ & H0 & Hs & _ & _ & Hprev & Hfin).
  induction fuel as [|fuel IH]; intros k x acc r Ht Hk Hrun; cbn [walk_back] in Hrun;
    rewrite Ht in Hrun; [discriminate|].
  destruct (map_get k (previous st)) as [p|] eqn:Hkp.
  - destruct (Hprev k p Hkp) as (Htp & _ & _ & y & w & Hy & Harc & Hkd).
    rewrite Hk in Hkd. injection Hkd as ->.
    destruct (IH p y (k :: acc) r Htp Hy Hrun) as (q & -> & Hq).
    exists (q ++ [k]). split; [now rewrite <- app_assoc|].
    now apply walk_step with p.
  - rewrite walk_back_none in Hrun. injection Hrun as <-.
    destruct (Hfin k x Hk) as [->|Hne]; [|congruence].
    rewrite H0 in Hk. injection Hk as <-.
    exists [s]. split; [reflexivity|constructor].
Qed.

(** What [dijkstra] returns, in terms of the state its loop is left in:
    a walk from the start to the target of the target's estimate, or
    [null] when the target has an empty id or no predecessor. *)
Lemma dijkstra_result (g : Graph num) (s e : string) (r : option (list string)) :
  dijkstra num_lt num_add num_zero (Some g) s e = Returns r ->
  exists st,
    main_loop num_lt num_add (List.length (unvisited (init num_zero g s))) g e
      (init num_zero g s) = Returns st /\
    tracing num_add num_zero g s st /\
    match r with
    | Some path =>
        truthy e = true /\ map_get e (previous st) <> None /\
        exists x, getD e (distances st) = Finite x /\ walk num_add num_zero g s e path x
    | None => truthy e = false \/ map_get e (previous st) = None
    end.
Proof.
  unfold dijkstra.
  destruct (main_loop _ _ _ _ _ _) as [st| |] eqn:Hrun; try discriminate.
  pose proof (main_loop_tracing _ _ _ _ Hrun) as Htr.
  destruct (walk_back _ _ _ _) as [path| |] eqn:Hback; try discriminate.
  intros [= <-]. exists st. split; [reflexivity|]. split; [assumption|].
  destruct (truthy e) eqn:Ht.
  2:{ cbn [walk_back] in Hback. rewrite Ht in Hback. injection Hback as <-.
      simpl. now left. }
  destruct (map_get e (previous st)) as [p|] eqn:Hep.
  2:{ cbn [walk_back] in Hback. rewrite Ht, Hep, walk_back_none in Hback.
      injection Hback as <-. simpl. now right. }
  pose proof Htr as (_ & _ & _ & _ & _ & Hprev & _).
  destruct (Hprev e p Hep) as (_ & _ & _ & y & w & Hy & Harc & Hed).
  destruct (@walk_back_chain g s st Htr _ _ _ _ _ Ht Hed Hback) as (q & Hq & Hwalk).
  rewrite app_nil_r in Hq. subst q.
  assert (Hne : e <> s).
  { intros ->. destruct Htr as (_ & _ & Hs & _). congruence. }
  assert (Hlen : (1 <? List.length path)%nat = true).
  { apply Nat.ltb_lt. clear Hback Hed Harc Hep.
    destruct Hwalk as [|b c p' t' w' Hp' _]; [congruence|].
    apply walk_nonempty in Hp'. rewrite length_app. simpl.
    destruct p'; [congruence|simpl; lia]. }
  rewrite Hlen. split; [reflexivity|]. split; [discriminate|]. eauto.
Qed.

(** The initialising loop gives every key of the graph an estimate and
    puts it into [unvisited]. *)
Lemma init_fold_covers (keys : list string) :
  forall (acc : JsMap.t (dist num) * set_t) k,
    In k keys \/ (map_get k (fst acc) <> None /\ In k (snd acc)) ->
    let r := fold_left
               (fun (st : JsMap.t (dist num) * set_t) nodeId =>
                  (map_set nodeId (Infinity num) (fst st), set_add nodeId (snd st)))
               keys acc in
    map_get k (fst r) <> None /\ In k (snd r).
Proof.
  induction keys as [|n keys IH]; intros acc k H; simpl.
  - destruct H as [[]|H]. exact H.
  - apply IH. destruct (string_dec k n) as [->|Hne].
    + right. simpl. rewrite map_get_set_same. split; [discriminate|].
      unfold set_add. destruct (set_has n (snd acc)) eqn:E.
      * now apply set_has_In.
      * apply in_or_app. right. now left.
    + destruct H as [[Hk|Hk]|[Hk1 Hk2]]; [congruence|now left|right].
      simpl. rewrite map_get_set_other by assumption. split; [assumption|].
      unfold set_add. destruct (set_has n (snd acc)); [assumption|].
      apply in_or_app. now left.
Qed.

Lemma init_covers (g : Graph num) (s k : string) :
  map_get k (nodes g) <> None ->
  In k (unvisited (init num_zero g s)) /\
  getD k (distances (init num_zero g s)) <> NaN num.
Proof.
  intros Hk.
  assert (Hin : In k (map_keys (nodes g))).
  { destruct (in_dec string_dec k (map_keys (nodes g))) as [H|H]; [assumption|].
    apply map_get_none_keys in H. contradiction. }
  destruct (@init_fold_covers (map_keys (nodes g)) ([], []) k (or_introl Hin)) as [Hget Hunv].
  unfold init. cbn [unvisited distances]. split; [assumption|].
  destruct (string_dec k s) as [->|Hne].
  - rewrite getD_set_same. discriminate.
  - rewrite getD_set_other by assumption. unfold getD.
    match type of Hget with
    | map_get k ?m <> None => destruct (map_get k m) as [d|] eqn:E; [|congruence]
    end.
    apply init_all_infinite in E; [subst; discriminate|]. simpl. discriminate.
Qed.

(** Every node of a walk but the last has an adjacency, so it is a node
    of the graph. *)
Lemma walk_nodes (g : Graph num) (s e : string) (path : list string) (t : num) :
  walk num_add num_zero g s e path t ->
  map_get e (nodes g) <> None ->
  Forall (fun k => map_get k (nodes g) <> None) path.
Proof.
  induction 1 as [|b c path t w Hwalk IH Harc]; intros He.
  - now constructor.
  - apply Forall_app. split; [|now constructor].
    apply IH. destruct Harc as (node & Hb & _). congruence.
Qed.

Lemma walk_ends (g : Graph num) (s e : string) (path : list string) (t : num) :
  walk num_add num_zero g s e path t ->
  hd_error path = Some s /\ last path s = e.
Proof.
  induction 1 as [|b c path t w Hwalk [IHh IHl] Harc]; [split; reflexivity|].
  split.
  - destruct path; [discriminate|exact IHh].
  - apply last_last.
Qed.

Lemma dijkstra_path_length (g : Graph num) (s e : string) (path : list string) :
  dijkstra num_lt num_add num_zero (Some g) s e = Returns (Some path) ->
  (1 < List.length path)%nat.
Proof.
  unfold dijkstra.
  destruct (main_loop _ _ _ _ _ _) as [st| |]; try discriminate.
  destruct (walk_back _ _ _ _) as [p| |]; try discriminate.
  destruct (1 <? List.length p)%nat eqn:E; [|discriminate].
  intros [= <-]. now apply Nat.ltb_lt.
Qed.

(** Every node of a path that [dijkstra] returns is a node of the graph. *)
Lemma dijkstra_path_nodes (g : Graph num) (s e : string) (path : list string) :
  dijkstra num_lt num_add num_zero (Some g) s e = Returns (Some path) ->
  Forall (fun k => map_get k (nodes g) <> None) path.
Proof.
  intros Hrun.
  destruct (dijkstra_result g s e Hrun) as (st & _ & Htr & _ & Hprev & x & _ & Hwalk).
  apply (walk_nodes Hwalk).
  destruct (map_get e (previous st)) as [p|] eqn:Hp; [|congruence].
  destruct Htr as (_ & _ & _ & _ & _ & Hpr & _).
  now destruct (Hpr e p Hp) as (_ & _ & Hk & _).
Qed.

End Dijkstra.

Section Builder.
Variable num : Type.
Variable haversine : num * num -> num * num -> num.

Lemma node_name_inj (i j : nat) : node_name i = node_name j -> i = j.
Proof.
  unfold node_name. simpl. intros H. injection H as H.
  apply (f_equal NilEmpty.uint_of_string) in H.
  rewrite !NilEmpty.usu in H. injection H as H.
  apply (f_equal Nat.of_uint) in H.
  now rewrite !Unsigned.of_to in H.
Qed.

Lemma names_S n : names (S n) = names n ++ [node_name n].
Proof. unfold names. now rewrite seq_S, map_app. Qed.

Lemma in_names k n : In k (names n) <-> exists i, (i < n)%nat /\ k = node_name i.
Proof.
  unfold names. rewrite in_map_iff. split.
  - intros (i & <- & Hi). apply in_seq in Hi. exists i. split; [lia|reflexivity].
  - intros (i & Hi & ->). exists i. split; [reflexivity|]. apply in_seq. lia.
Qed.

Lemma fresh_name (ns : JsMap.t (Node num)) (n : nat) :
  map_keys ns = names n -> map_get (node_name n) ns = None.
Proof.
  intros Hk. apply map_get_none_keys. rewrite Hk, in_names.
  intros (i & Hi & E). apply node_name_inj in E. lia.
Qed.

Lemma present_name (ns : JsMap.t (Node num)) (n i : nat) :
  map_keys ns = names n -> (i < n)%nat -> exists nd, map_get (node_name i) ns = Some nd.
Proof.
  intros Hk Hi. destruct (map_get (node_name i) ns) eqn:E; [eauto|].
  apply map_get_none_keys in E. exfalso. apply E. rewrite Hk, in_names. eauto.
Qed.

Lemma below_le m m' (e : Edge num) : (m <= m')%nat -> below m e -> below m' e.
Proof. intros Hle (i & j & Hi & Hj & H). exists i, j. repeat split; try lia; tauto. Qed.

Lemma get_adj_set a k d x (ns : JsMap.t (Node num)) :
  map_get x (adj_set a k d ns) = option_map (adj_after a k d x) (map_get x ns).
Proof.
  unfold adj_set, adj_after. destruct (map_get a ns) as [n|] eqn:Ea.
  - destruct (string_dec x a) as [->|Hne].
    + now rewrite map_get_set_same, Ea, String.eqb_refl.
    + rewrite map_get_set_other by assumption.
      apply String.eqb_neq in Hne. rewrite Hne. now destruct (map_get x ns).
  - destruct (string_dec x a) as [->|Hne].
    + now rewrite Ea.
    + apply String.eqb_neq in Hne. rewrite Hne. now destruct (map_get x ns).
Qed.

Lemma keys_adj_set a k d (ns : JsMap.t (Node num)) :
  map_keys (adj_set a k d ns) = map_keys ns.
Proof.
  unfold adj_set. destruct (map_get a ns) eqn:E; [|reflexivity].
  apply map_keys_set_present. congruence.
Qed.

Lemma link_keys (g : Graph num) a b :
  map_keys (nodes (link haversine g a b)) = map_keys (nodes g).
Proof. unfold link. simpl. now rewrite !keys_adj_set. Qed.

Lemma link_keeps_mirrored g a b e :
  from e <> fst b -> to e <> fst b ->
  mirrored (nodes g) e -> mirrored (nodes (link haversine g a b)) e.
Proof.
  intros Hf Ht (na & nb & Ha & Hb & Hab & Hba).
  unfold mirrored, link. simpl. rewrite !get_adj_set, Ha, Hb. simpl.
  eexists. eexists. split; [reflexivity|]. split; [reflexivity|].
  unfold adj_after.
  pose proof Hf as Hf'. pose proof Ht as Ht'.
  apply String.eqb_neq in Hf', Ht'. rewrite Hf', Ht'.
  destruct (String.eqb (from e) (fst a)), (String.eqb (to e) (fst a)); simpl;
    rewrite ?map_get_set_other by assumption; auto.
Qed.

Lemma link_new_mirrored g a b :
  fst a <> fst b ->
  map_get (fst a) (nodes g) <> None -> map_get (fst b) (nodes g) <> None ->
  mirrored (nodes (link haversine g a b))
    {| from := fst a; to := fst b; weight := haversine (snd a) (snd b) |}.
Proof.
  intros Hne Ha Hb.
  destruct (map_get (fst a) (nodes g)) as [na|] eqn:Ea; [|congruence].
  destruct (map_get (fst b) (nodes g)) as [nb|] eqn:Eb; [|congruence].
  unfold mirrored, link. simpl. rewrite !get_adj_set, Ea, Eb. simpl.
  eexists. eexists. split; [reflexivity|]. split; [reflexivity|].
  unfold adj_after.
  assert (Hab : String.eqb (fst a) (fst b) = false) by now apply String.eqb_neq.
  assert (Hba : String.eqb (fst b) (fst a) = false)
    by (apply String.eqb_neq; congruence).
  rewrite Hab, Hba, !String.eqb_refl. simpl.
  now rewrite !map_get_set_same.
Qed.

Lemma connect_inv (n : nat) :
  forall rest a s g,
    map fst (a :: rest) = map node_name (seq s (S (List.length rest))) ->
    (s + S (List.length rest) <= n)%nat ->
    map_keys (nodes g) = names n ->
    (forall e, In e (edges g) -> below (S s) e /\ mirrored (nodes g) e) ->
    built (connect haversine (a :: rest) g) n /\
    List.length (edges (connect haversine (a :: rest) g)) =
      (List.length (edges g) + List.length rest)%nat.
Proof.
  induction rest as [|b rest IH]; intros a s g Hids Hle Hk He.
  - simpl. split; [split; [assumption|]|lia].
    intros e Hin. destruct (He e Hin) as [Hb Hm].
    split; [|assumption]. apply below_le with (S s); [lia|assumption].
  - change (connect haversine (a :: b :: rest) g)
      with (connect haversine (b :: rest) (link haversine g a b)).
    cbn [map seq List.length] in Hids.
    injection Hids as Ha Hb Hrest.
    assert (Hne : fst a <> fst b)
      by (rewrite Ha, Hb; intros E; apply node_name_inj in E; lia).
    destruct (@present_name (nodes g) n s Hk) as [na Hna]; [cbn [List.length] in Hle; lia|].
    destruct (@present_name (nodes g) n (S s) Hk) as [nb Hnb]; [cbn [List.length] in Hle; lia|].
    destruct (IH b (S s) (link haversine g a b)) as [Hbuilt Hlen].
    + cbn [map seq List.length]. now rewrite Hb, Hrest.
    + cbn [List.length] in Hle |- *. lia.
    + now rewrite link_keys.
    + unfold link at 1. cbn [edges]. intros e Hin.
      apply in_app_or in Hin. destruct Hin as [Hin|[<-|[]]].
      * destruct (He e Hin) as [(i & j & Hi & Hj & Hfi & Htj) Hm]. split.
        -- exists i, j. repeat split; try lia; assumption.
        -- apply link_keeps_mirrored; [| |assumption].
           ++ rewrite Hfi, Hb. intros E. apply node_name_inj in E. lia.
           ++ rewrite Htj, Hb. intros E. apply node_name_inj in E. lia.
      * split.
        -- exists s, (S s). cbn [from to]. repeat split; try lia; assumption.
        -- apply link_new_mirrored; [assumption| |]; rewrite ?Ha, ?Hb; congruence.
    + split; [assumption|]. rewrite Hlen. unfold link. cbn [edges List.length].
      rewrite length_app. cbn [List.length]. lia.
Qed.

Lemma add_coords_spec :
  forall (coords : list (num * num)) (g : Graph num) n acc,
    map_keys (nodes g) = names n ->
    exists g' refs,
      add_coords coords g n acc = (g', (n + List.length coords)%nat, acc ++ refs) /\
      map fst refs = map node_name (seq n (List.length coords)) /\
      map_keys (nodes g') = names (n + List.length coords) /\
      edges g' = edges g /\
      (forall k nd, map_get k (nodes g) = Some nd -> map_get k (nodes g') = Some nd).
Proof.
  induction coords as [|coord coords IH]; intros g n acc Hk.
  - exists g, []. simpl. rewrite app_nil_r, Nat.add_0_r. auto.
  - cbn [add_coords].
    set (node := {| id := node_name n; latlng := (snd coord, fst coord); adj := [] |}).
    set (g1 := {| nodes := map_set (node_name n) node (nodes g); edges := edges g |}).
    assert (Hfresh := @fresh_name (nodes g) n Hk).
    assert (Hk1 : map_keys (nodes g1) = names (S n))
      by (unfold g1; cbn [nodes]; rewrite map_keys_set_fresh, Hk, names_S; auto).
    destruct (IH g1 (S n) (acc ++ [(node_name n, (snd coord, fst coord))]) Hk1)
      as (g' & refs & Heq & Hids & Hk' & He' & Hkeep).
    exists g', ((node_name n, (snd coord, fst coord)) :: refs).
    cbn [List.length]. rewrite Nat.add_succ_r. repeat split.
    + rewrite Heq. now rewrite <- app_assoc.
    + cbn [map seq]. now rewrite Hids.
    + assumption.
    + assumption.
    + intros k nd Hget. apply Hkeep. unfold g1. cbn [nodes].
      rewrite map_get_set_other; [assumption|]. congruence.
Qed.

Lemma mirrored_keep (ns ns' : JsMap.t (Node num)) e :
  (forall k nd, map_get k ns = Some nd -> map_get k ns' = Some nd) ->
  mirrored ns e -> mirrored ns' e.
Proof.
  intros Hkeep (a & b & Ha & Hb & H). exists a, b. auto.
Qed.

(** One line: its coordinates become nodes and its consecutive pairs
    become mirrored edges. *)
Lemma add_line_spec g n f geom :
  built g n ->
  geometry f = Some geom -> type geom = "LineString"%string ->
  exists g',
    add_feature haversine (g, n) f = Returns (g', (n + List.length (coordinates geom))%nat) /\
    built g' (n + List.length (coordinates geom)) /\
    List.length (edges g') =
      (List.length (edges g) + (List.length (coordinates geom) - 1))%nat.
Proof.
  intros [Hk He] Hgeom Hty. unfold add_feature. rewrite Hgeom, Hty. cbn [String.eqb fst snd].
  destruct (@add_coords_spec (coordinates geom) g n [] Hk)
    as (g1 & refs & Heq & Hids & Hk1 & He1 & Hkeep).
  rewrite Heq. cbv beta iota zeta delta [app].
  eexists. split; [reflexivity|].
  destruct refs as [|a rest].
  - destruct (coordinates geom); [|discriminate].
    cbn [connect List.length]. rewrite Nat.add_0_r in *.
    split; [|rewrite He1; lia]. split; [assumption|].
    intros e Hin. rewrite He1 in Hin. destruct (He e Hin). split; [assumption|].
    now apply mirrored_keep with (nodes g).
  - assert (Hlen : List.length (coordinates geom) = S (List.length rest)).
    { apply (f_equal (@List.length _)) in Hids.
      rewrite !length_map, length_seq in Hids. cbn [List.length] in Hids.
      symmetry. exact Hids. }
    rewrite Hlen in *.
    assert (Hedges : forall e, In e (edges g1) ->
                               below (S n) e /\ mirrored (nodes g1) e).
    { rewrite He1. intros e Hin. destruct (He e Hin). split.
      - apply below_le with n; [lia|assumption].
      - now apply mirrored_keep with (nodes g). }
    destruct (@connect_inv (n + S (List.length rest)) rest a n g1 Hids
                (Nat.le_refl _) Hk1 Hedges) as [Hb Hl].
    split; [assumption|].
    etransitivity; [exact Hl|]. rewrite He1. f_equal.
    change (List.length rest = (S (List.length rest) - 1)%nat). lia.
Qed.

Lemma add_feature_spec g n f :
  built g n -> has_geometry f ->
  exists g',
    add_feature haversine (g, n) f = Returns (g', (n + List.length (line_coords f))%nat) /\
    built g' (n + List.length (line_coords f)) /\
    List.length (edges g') =
      (List.length (edges g) + (List.length (line_coords f) - 1))%nat.
Proof.
  intros Hb Hg. unfold has_geometry in Hg. unfold line_coords.
  destruct (geometry f) as [geom|] eqn:Hgeom; [|congruence].
  destruct (String.eqb (type geom) "LineString") eqn:Hty.
  - apply String.eqb_eq in Hty. now apply add_line_spec.
  - exists g. unfold add_feature. rewrite Hgeom, Hty.
    cbn [List.length fst snd]. rewrite Nat.add_0_r. split; [reflexivity|].
    split; [assumption|lia].
Qed.

Lemma list_sum_cons (a : nat) (l : list nat) : list_sum (a :: l) = (a + list_sum l)%nat.
Proof. reflexivity. Qed.

Lemma add_features_spec :
  forall fs g n,
    built g n -> Forall has_geometry fs ->
    exists g',
      add_features haversine fs (g, n) =
        Returns (g', (n + list_sum (map (fun f => List.length (line_coords f)) fs))%nat) /\
      built g' (n + list_sum (map (fun f => List.length (line_coords f)) fs)) /\
      List.length (edges g') =
        (List.length (edges g) +
         list_sum (map (fun f => (List.length (line_coords f) - 1)%nat) fs))%nat.
Proof.
  induction fs as [|f fs IH]; intros g n Hb Hall.
  - exists g. cbn [add_features map list_sum]. rewrite !Nat.add_0_r. auto.
  - inversion Hall as [|? ? Hf Hfs]; subst.
    destruct (add_feature_spec Hb Hf) as (g1 & Heq & Hb1 & Hl1).
    destruct (IH _ _ Hb1 Hfs) as (g' & Heq' & Hb' & Hl').
    exists g'. cbn [add_features map]. rewrite !list_sum_cons, Heq, Heq', !Nat.add_assoc.
    split; [reflexivity|]. split.
    + assumption.
    + rewrite Hl', Hl1. lia.
Qed.

Lemma add_features_throws :
  forall fs st,
    Exists (fun f => geometry f = None) fs ->
    add_features haversine fs st = Throws TypeError.
Proof.
  induction fs as [|f fs IH]; intros st Hex; [inversion Hex|].
  cbn [add_features]. unfold add_feature.
  destruct (geometry f) as [geom|] eqn:Hgeom; [|reflexivity].
  inversion Hex as [? ? Hnone|? ? Hrest]; subst; [congruence|].
  destruct (String.eqb (type geom) "LineString").
  - destruct (add_coords _ _ _ _) as [[g1 n1] refs]. now apply IH.
  - now apply IH.
Qed.

Lemma built_empty : built (num:=num) {| nodes := []; edges := [] |} 0.
Proof. split; [reflexivity|]. intros e []. Qed.

(** The build as a whole, on features that all carry a geometry. *)
Lemma buildTrailGraph_spec (fs : list (Feature num)) :
  Forall has_geometry fs ->
  exists g,
    buildTrailGraph haversine fs = Returns g /\
    map_size (nodes g) = list_sum (map (fun f => List.length (line_coords f)) fs) /\
    List.length (edges g) =
      list_sum (map (fun f => (List.length (line_coords f) - 1)%nat) fs) /\
    forall e, In e (edges g) -> mirrored (nodes g) e.
Proof.
  intros Hall.
  destruct (add_features_spec built_empty Hall) as (g & Heq & [Hk He] & Hl).
  exists g. unfold buildTrailGraph. rewrite Heq. split; [reflexivity|].
  split; [|split].
  - rewrite map_size_keys, Hk. unfold names. now rewrite length_map, length_seq.
  - exact Hl.
  - intros e Hin. now apply He.
Qed.

Lemma buildTrailGraph_throws (fs : list (Feature num)) :
  Exists (fun f => geometry f = None) fs ->
  buildTrailGraph haversine fs = Throws TypeError.
Proof.
  intros Hex. unfold buildTrailGraph. now rewrite add_features_throws.
Qed.

(** *** What the builder charts *)

Lemma adj_after_same a k d x (n : Node num) :
  id (adj_after a k d x n) = id n /\ latlng (adj_after a k d x n) = latlng n.
Proof. unfold adj_after. now destruct (String.eqb x a). Qed.

Lemma adj_after_entries a k d x (n : Node num) b w :
  In (b, w) (adj (adj_after a k d x n)) ->
  (x = a /\ b = k /\ w = d) \/ In (b, w) (adj n).
Proof.
  unfold adj_after. destruct (String.eqb x a) eqn:E; [|now right].
  apply String.eqb_eq in E. cbn [adj]. intros H.
  apply in_map_set in H. destruct H as [[-> ->]|H]; [now left|now right].
Qed.

Lemma link_node_at (g : Graph num) a b i c :
  node_at g i c -> node_at (link haversine g a b) i c.
Proof.
  intros (node & Hget & Hid & Hll). unfold node_at, link. cbn [nodes].
  rewrite !get_adj_set, Hget. cbn [option_map].
  eexists. split; [reflexivity|].
  destruct (adj_after_same (fst b) (fst a) (haversine (snd a) (snd b)) (node_name i)
              (adj_after (fst a) (fst b) (haversine (snd a) (snd b)) (node_name i) node))
    as [-> ->].
  destruct (adj_after_same (fst a) (fst b) (haversine (snd a) (snd b)) (node_name i) node)
    as [-> ->].
  auto.
Qed.

Lemma link_adjacency (g : Graph num) a b :
  adjacency_from_edges g -> adjacency_from_edges (link haversine g a b).
Proof.
  intros H x node' k w Hget Hin. unfold link in *. cbn [nodes edges] in *.
  rewrite !get_adj_set in Hget.
  destruct (map_get x (nodes g)) as [node|] eqn:E; [|discriminate].
  cbn [option_map] in Hget. injection Hget as <-.
  apply adj_after_entries in Hin. destruct Hin as [(-> & -> & ->)|Hin].
  { eexists. split; [apply in_or_app; right; now left|]. cbn [from to weight]. auto. }
  apply adj_after_entries in Hin. destruct Hin as [(-> & -> & ->)|Hin].
  { eexists. split; [apply in_or_app; right; now left|]. cbn [from to weight]. auto. }
  destruct (H x node k w E Hin) as (e & He & Hrest).
  exists e. split; [apply in_or_app; now left|assumption].
Qed.

Lemma leg_weaken (cs cs' : list (num * num)) (lo lo' hi hi' : nat) (e : Edge num) :
  leg haversine cs lo hi e -> (lo' <= lo)%nat -> (hi <= hi')%nat ->
  (forall i c, nth_error cs i = Some c -> nth_error cs' i = Some c) ->
  leg haversine cs' lo' hi' e.
Proof.
  intros (i & ci & cj & Hlo & Hhi & Hf & Ht & Hi & Hj & Hw) Hlo' Hhi' Hsub.
  exists i, ci, cj. repeat split; try lia; auto.
Qed.

Lemma nth_error_app_keep {A : Type} (l more : list A) i c :
  nth_error l i = Some c -> nth_error (l ++ more) i = Some c.
Proof.
  intros H. rewrite nth_error_app1; [assumption|].
  apply nth_error_Some. congruence.
Qed.

(** The loop over consecutive nodes of one line. *)
Lemma connect_charted (coords : list (num * num)) (lo hi : nat) :
  forall (refs : list (NodeRef num)) (s : nat) (g : Graph num),
    refers coords s refs -> (lo <= s)%nat -> (s + List.length refs <= hi)%nat ->
    adjacency_from_edges g ->
    map_keys (nodes (connect haversine refs g)) = map_keys (nodes g) /\
    (forall i c, node_at g i c -> node_at (connect haversine refs g) i c) /\
    adjacency_from_edges (connect haversine refs g) /\
    exists new, edges (connect haversine refs g) = edges g ++ new /\
                Forall (leg haversine coords lo hi) new.
Proof.
  induction refs as [|a refs IH]; intros s g Href Hlo Hhi Hadj.
  { simpl. repeat split; auto. exists []. now rewrite app_nil_r. }
  destruct refs as [|b rest].
  { simpl. repeat split; auto. exists []. now rewrite app_nil_r. }
  change (connect haversine (a :: b :: rest) g)
    with (connect haversine (b :: rest) (link haversine g a b)).
  destruct (IH (S s) (link haversine g a b)) as (Hk & Hn & Ha & new & He & Hnew).
  - intros k r Hr. destruct (Href (S k) r Hr) as (c & Hc & ->).
    exists c. now rewrite Nat.add_succ_comm.
  - lia.
  - cbn [List.length] in *. lia.
  - now apply link_adjacency.
  - split; [now rewrite Hk, link_keys|]. split; [|split; [assumption|]].
    + intros i c Hic. now apply Hn, link_node_at.
    + destruct (Href 0%nat a eq_refl) as (ca & Hca & ->).
      destruct (Href 1%nat b eq_refl) as (cb & Hcb & ->).
      rewrite Nat.add_0_r in Hca. rewrite Nat.add_1_r in Hcb.
      eexists. split.
      * rewrite He. unfold link at 1. cbn [edges]. rewrite <- app_assoc. reflexivity.
      * constructor; [|assumption].
        exists s, ca, cb. cbn [from to weight fst snd List.length] in *.
        rewrite ?Nat.add_0_r, ?Nat.add_1_r.
        repeat split; try assumption; lia.
Qed.

(** The loop over the coordinates of one line. *)
Lemma add_coords_charted :
  forall (cs : list (num * num)) (g : Graph num) (coords : list (num * num)) acc,
    charted g coords ->
    exists g' refs,
      add_coords cs g (List.length coords) acc =
        (g', (List.length coords + List.length cs)%nat, acc ++ refs) /\
      refers (coords ++ cs) (List.length coords) refs /\
      List.length refs = List.length cs /\
      charted g' (coords ++ cs) /\
      edges g' = edges g.
Proof.
  induction cs as [|c cs IH]; intros g coords acc Hch.
  - exists g, []. cbn [add_coords List.length]. rewrite !app_nil_r, Nat.add_0_r.
    split; [reflexivity|]. split; [intros k r Hr; now destruct k|].
    split; [reflexivity|]. split; [assumption|reflexivity].
  - cbn [add_coords]. destruct Hch as (Hk & Hn & Ha).
    set (n := List.length coords) in *.
    set (node0 := {| id := node_name n; latlng := (snd c, fst c); adj := [] |}).
    set (g1 := {| nodes := map_set (node_name n) node0 (nodes g); edges := edges g |}).
    assert (Hfresh := @fresh_name (nodes g) n Hk).
    assert (Hlen1 : List.length (coords ++ [c]) = S n)
      by (rewrite length_app; cbn [List.length]; lia).
    assert (Hch1 : charted g1 (coords ++ [c])).
    { split; [|split].
      - unfold g1. cbn [nodes]. rewrite map_keys_set_fresh, Hk, Hlen1, names_S; auto.
      - intros i ci Hi. unfold node_at, g1. cbn [nodes].
        destruct (Nat.lt_ge_cases i n) as [Hlt|Hge].
        + rewrite nth_error_app1 in Hi by (unfold n in *; lia).
          destruct (Hn i ci Hi) as (node & Hget & Hrest).
          exists node. split; [|assumption].
          rewrite map_get_set_other; [assumption|].
          intros E. apply node_name_inj in E. lia.
        + rewrite nth_error_app2 in Hi by (unfold n in *; lia). fold n in Hi.
          destruct (i - n)%nat as [|d] eqn:Ed; [|destruct d; simpl in Hi; discriminate].
          simpl in Hi. injection Hi as <-. assert (i = n) by lia. subst i.
          exists node0. rewrite map_get_set_same. auto.
      - intros x node k w Hget Hin. unfold g1 in Hget. cbn [nodes edges] in *.
        destruct (string_dec x (node_name n)) as [->|Hne].
        + rewrite map_get_set_same in Hget. injection Hget as <-. destruct Hin.
        + rewrite map_get_set_other in Hget by assumption.
          exact (Ha x node k w Hget Hin). }
    destruct (IH g1 (coords ++ [c]) (acc ++ [(node_name n, (snd c, fst c))]) Hch1)
      as (g' & refs & Heq & Href & Hlen & Hch' & He').
    rewrite Hlen1 in Heq, Href.
    exists g', ((node_name n, (snd c, fst c)) :: refs).
    cbn [List.length]. rewrite Nat.add_succ_r. rewrite <- !app_assoc in *.
    cbn [app] in *. repeat split.
    + exact Heq.
    + intros k r Hr. destruct k as [|k].
      * injection Hr as <-. exists c. rewrite Nat.add_0_r.
        split; [|reflexivity].
        rewrite nth_error_app2 by (unfold n; lia). now rewrite Nat.sub_diag.
      * destruct (Href k r Hr) as (ck & Hck & ->).
        exists ck. now rewrite <- Nat.add_succ_comm.
    + now rewrite Hlen.
    + apply Hch'.
    + apply Hch'.
    + apply Hch'.
    + exact He'.
Qed.

(** One feature: the graph stays charted, and every new edge is a leg of
    the line of the feature. *)
Lemma add_feature_charted (g : Graph num) (coords : list (num * num)) (f : Feature num)
    (st' : Graph num * nat) :
  charted g coords ->
  add_feature haversine (g, List.length coords) f = Returns st' ->
  snd st' = List.length (coords ++ line_coords f) /\
  charted (fst st') (coords ++ line_coords f) /\
  exists new,
    edges (fst st') = edges g ++ new /\
    Forall (leg haversine (coords ++ line_coords f) (List.length coords)
              (List.length (coords ++ line_coords f))) new.
Proof.
  intros Hch. unfold add_feature, line_coords.
  destruct (geometry f) as [geom|]; [|discriminate].
  destruct (String.eqb (type geom) "LineString").
  - cbn [fst snd].
    destruct (@add_coords_charted (coordinates geom) g coords [] Hch)
      as (g1 & refs & Heq & Href & Hlen & (Hk1 & Hn1 & Ha1) & He1).
    rewrite Heq. cbv beta iota zeta. cbn [app]. intros [= <-]. cbn [fst snd].
    rewrite length_app.
    destruct (@connect_charted (coords ++ coordinates geom) (List.length coords)
                (List.length coords + List.length (coordinates geom))
                refs (List.length coords) g1 Href (Nat.le_refl _))
      as (Hk & Hn & Ha & new & He & Hnew); [lia|assumption|].
    split; [reflexivity|]. split.
    + split; [now rewrite Hk, Hk1, length_app|]. split; [|assumption].
      intros i c Hi. now apply Hn, Hn1.
    + exists new. now rewrite He, He1.
  - intros [= <-]. cbn [fst snd]. rewrite app_nil_r.
    split; [reflexivity|]. split; [assumption|]. exists []. now rewrite app_nil_r.
Qed.

Lemma all_coords_cons (f : Feature num) (fs : list (Feature num)) :
  all_coords (f :: fs) = line_coords f ++ all_coords fs.
Proof. reflexivity. Qed.

Lemma add_features_charted :
  forall (fs : list (Feature num)) (g : Graph num) (coords : list (num * num))
         (st' : Graph num * nat),
    charted g coords ->
    add_features haversine fs (g, List.length coords) = Returns st' ->
    snd st' = List.length (coords ++ all_coords fs) /\
    charted (fst st') (coords ++ all_coords fs) /\
    exists new,
      edges (fst st') = edges g ++ new /\
      Forall (leg haversine (coords ++ all_coords fs) (List.length coords)
                (List.length (coords ++ all_coords fs))) new.
Proof.
  induction fs as [|f fs IH]; intros g coords st' Hch Hrun.
  - cbn [add_features] in Hrun. injection Hrun as <-.
    unfold all_coords. cbn [map concat fst snd]. rewrite app_nil_r.
    split; [reflexivity|]. split; [assumption|]. exists []. now rewrite app_nil_r.
  - cbn [add_features] in Hrun.
    destruct (add_feature haversine (g, List.length coords) f) as [[g1 n1]| |] eqn:Hf;
      try discriminate.
    destruct (@add_feature_charted g coords f _ Hch Hf) as (Hn1 & Hch1 & new1 & He1 & Hnew1).
    cbn [fst snd] in *. subst n1.
    destruct (IH g1 (coords ++ line_coords f) st' Hch1 Hrun) as (Hn & Hch' & new2 & He2 & Hnew2).
    rewrite all_coords_cons, app_assoc.
    split; [assumption|]. split; [assumption|].
    exists (new1 ++ new2). split; [now rewrite He2, He1, app_assoc|].
    apply Forall_app. split.
    + eapply Forall_impl; [|exact Hnew1]. intros e He.
      apply leg_weaken with (1 := He); [lia| |intros i c; apply nth_error_app_keep].
      rewrite (length_app (coords ++ line_coords f)). lia.
    + eapply Forall_impl; [|exact Hnew2]. intros e He.
      apply leg_weaken with (1 := He); [|lia|auto].
      rewrite length_app. lia.
Qed.

Lemma charted_empty : charted (num:=num) {| nodes := []; edges := [] |} [].
Proof.
  split; [reflexivity|]. split.
  - intros i c H. now destruct i.
  - intros a node b w H. discriminate H.
Qed.

(** The graph [buildTrailGraph] returns: its nodes are those of the
    coordinates of the lines, every edge is a leg of a line, and every
    adjacency entry comes from an edge. *)
Lemma buildTrailGraph_charted (fs : list (Feature num)) (g : Graph num) :
  buildTrailGraph haversine fs = Returns g ->
  charted g (all_coords fs) /\
  Forall (leg haversine (all_coords fs) 0 (List.length (all_coords fs))) (edges g).
Proof.
  unfold buildTrailGraph.
  destruct (add_features _ _ _) as [[g' n]| |] eqn:Hrun; try discriminate.
  intros [= <-].
  destruct (@add_features_charted fs _ [] _ charted_empty Hrun) as (_ & Hch & new & He & Hnew).
  cbn [fst snd app edges List.length] in *. split; [assumption|]. now rewrite He.
Qed.

Lemma add_features_app (fs1 fs2 : list (Feature num)) (st : Graph num * nat) :
  add_features haversine (fs1 ++ fs2) st =
  match add_features haversine fs1 st with
  | Returns st1 => add_features haversine fs2 st1
  | Throws e => Throws e
  | OutOfFuel => OutOfFuel
  end.
Proof.
  revert st. induction fs1 as [|f fs1 IH]; intros st; [reflexivity|].
  cbn [app add_features]. destruct (add_feature haversine st f); auto.
Qed.

Lemma all_coords_app (fs1 fs2 : list (Feature num)) :
  all_coords (fs1 ++ fs2) = all_coords fs1 ++ all_coords fs2.
Proof. unfold all_coords. now rewrite map_app, concat_app. Qed.

(** No edge leads from the lines of the first features to those of the
    features after them. *)
Lemma buildTrailGraph_cut (fs1 fs2 : list (Feature num)) (g : Graph num) :
  buildTrailGraph haversine (fs1 ++ fs2) = Returns g ->
  Forall (fun e =>
            leg haversine (all_coords (fs1 ++ fs2)) 0 (List.length (all_coords fs1)) e \/
            leg haversine (all_coords (fs1 ++ fs2)) (List.length (all_coords fs1))
              (List.length (all_coords (fs1 ++ fs2))) e)
         (edges g).
Proof.
  unfold buildTrailGraph. rewrite add_features_app.
  destruct (add_features haversine fs1 _) as [[g1 n1]| |] eqn:Hrun1; try discriminate.
  destruct (@add_features_charted fs1 _ [] _ charted_empty Hrun1)
    as (Hn1 & Hch1 & new1 & He1 & Hnew1).
  cbn [fst snd app edges List.length] in *. subst n1.
  destruct (add_features haversine fs2 _) as [[g2 n2]| |] eqn:Hrun2; try discriminate.
  intros [= <-].
  destruct (@add_features_charted fs2 g1 _ _ Hch1 Hrun2) as (_ & _ & new2 & He2 & Hnew2).
  cbn [fst snd] in *. rewrite He2, He1, all_coords_app. apply Forall_app. split.
  - eapply Forall_impl; [|exact Hnew1]. intros e He. left.
    apply leg_weaken with (1 := He); [lia|lia|intros i c; apply nth_error_app_keep].
  - eapply Forall_impl; [|exact Hnew2]. intros e He. now right.
Qed.

Lemma NoDup_names (n : nat) : NoDup (names n).
Proof.
  induction n as [|n IH]; [constructor|].
  rewrite names_S. apply NoDup_app; [assumption|repeat constructor; simpl; tauto|].
  intros k Hk [<-|[]]. apply in_names in Hk. destruct Hk as (i & Hi & E).
  apply node_name_inj in E. lia.
Qed.

Lemma map_get_In_NoDup {V : Type} (k : string) (v : V) (m : JsMap.t V) :
  NoDup (map_keys m) -> In (k, v) m -> map_get k m = Some v.
Proof.
  induction m as [|[k' v'] m IH]; simpl; [tauto|].
  intros Hnd [[= -> ->]|Hin]; [now rewrite String.eqb_refl|].
  inversion Hnd as [|? ? Hk' Hm]; subst.
  destruct (String.eqb k k') eqn:E; [|now apply IH].
  apply String.eqb_eq in E. subst k'. exfalso. apply Hk'.
  unfold map_keys. apply in_map_iff. exists (k, v). auto.
Qed.

(** In a charted graph every node is stored under its own id. *)
Lemma charted_values (g : Graph num) (coords : list (num * num)) (node : Node num) :
  charted g coords -> In node (map_values (nodes g)) ->
  map_get (id node) (nodes g) = Some node.
Proof.
  intros (Hk & Hn & _) Hin. unfold map_values in Hin.
  apply in_map_iff in Hin. destruct Hin as ([k node'] & Heq & Hin). cbn [snd] in Heq. subst node'.
  assert (Hget : map_get k (nodes g) = Some node).
  { apply map_get_In_NoDup; [|assumption]. rewrite Hk. apply NoDup_names. }
  assert (Hkin : In k (names (List.length coords))).
  { rewrite <- Hk. unfold map_keys. apply in_map_iff. exists (k, node). auto. }
  apply in_names in Hkin. destruct Hkin as (i & Hi & ->).
  destruct (nth_error coords i) as [c|] eqn:Hc.
  - destruct (Hn i c Hc) as (node' & Hget' & Hid & _).
    rewrite Hget in Hget'. injection Hget' as <-. now rewrite Hid.
  - apply nth_error_None in Hc. lia.
Qed.

End Builder.
(** ** Shortest walks

    The search returns a shortest walk in every ordered arithmetic: the
    weight of a walk is added up from the start with the addition the
    search uses, so, with doubles, rounded at every step. *)

Section Shortest.
Variable num : Type.
Variable num_lt : num -> num -> bool.
Variable num_add : num -> num -> num.
Variable num_zero : num.
Variable num_le : num -> num -> Prop.
Hypothesis Hord : ordered_arithmetic num_lt num_add num_zero num_le.

Lemma num_le_refl (a : num) : num_le a a.
Proof. apply (ord_refl Hord). Qed.

Lemma num_le_trans (a b c : num) : num_le a b -> num_le b c -> num_le a c.
Proof. apply (ord_trans Hord). Qed.

Lemma num_lt_le (a b : num) : num_lt a b = true -> num_le a b.
Proof. apply (ord_lt Hord). Qed.

Lemma num_not_lt_le (a b : num) : num_lt a b = false -> num_le b a.
Proof. apply (ord_not_lt Hord). Qed.

Lemma num_add_le (a b w : num) : num_le a b -> num_le (num_add a w) (num_add b w).
Proof. apply (ord_add Hord). Qed.

Lemma num_add_grows (a w : num) : num_le num_zero w -> num_le a (num_add a w).
Proof. apply (ord_grow Hord). Qed.

Ltac order :=
  solve [ eauto 5 using num_le_refl, num_le_trans, num_lt_le, num_not_lt_le,
                        num_add_le, num_add_grows ].

(** *** The scan picks a least estimate *)

Lemma select_fold_least (ds : JsMap.t (dist num)) (todo : set_t) :
  forall (seen : set_t) (acc : option string * dist num),
    (acc = (None, Infinity num) /\ (forall u xu, In u seen -> getD u ds <> Finite xu)) \/
    (exists c x, acc = (Some c, Finite x) /\
                 forall u xu, In u seen -> getD u ds = Finite xu -> num_le x xu) ->
    let r := fold_left
               (fun (acc : option string * dist num) nodeId =>
                  if dist_lt num_lt (getD nodeId ds) (snd acc)
                  then (Some nodeId, getD nodeId ds)
                  else acc)
               todo acc in
    (r = (None, Infinity num) /\ (forall u xu, In u (seen ++ todo) -> getD u ds <> Finite xu)) \/
    (exists c x, r = (Some c, Finite x) /\
                 forall u xu, In u (seen ++ todo) -> getD u ds = Finite xu -> num_le x xu).
Proof.
  induction todo as [|n todo IH]; intros seen acc Hacc; cbn [fold_left].
  - rewrite app_nil_r. exact Hacc.
  - replace (seen ++ n :: todo) with ((seen ++ [n]) ++ todo) by now rewrite <- app_assoc.
    apply IH. destruct Hacc as [[-> Hseen]|(c & x & -> & Hseen)]; cbn [snd].
    + destruct (getD n ds) as [xn| |] eqn:En; cbn [dist_lt].
      * right. exists n, xn. split; [reflexivity|].
        intros u xu Hu Hxu. apply in_app_or in Hu. destruct Hu as [Hu|[<-|[]]].
        -- exfalso. exact (Hseen u xu Hu Hxu).
        -- rewrite En in Hxu. injection Hxu as <-. order.
      * left. split; [reflexivity|].
        intros u xu Hu. apply in_app_or in Hu. destruct Hu as [Hu|[<-|[]]];
          [now apply Hseen|congruence].
      * left. split; [reflexivity|].
        intros u xu Hu. apply in_app_or in Hu. destruct Hu as [Hu|[<-|[]]];
          [now apply Hseen|congruence].
    + right. destruct (getD n ds) as [xn| |] eqn:En; cbn [dist_lt].
      * destruct (num_lt xn x) eqn:E.
        -- apply (ord_lt Hord) in E. exists n, xn. split; [reflexivity|].
           intros u xu Hu Hxu. apply in_app_or in Hu. destruct Hu as [Hu|[<-|[]]].
           ++ specialize (Hseen u xu Hu Hxu). order.
           ++ rewrite En in Hxu. injection Hxu as <-. order.
        -- apply (ord_not_lt Hord) in E. exists c, x. split; [reflexivity|].
           intros u xu Hu Hxu. apply in_app_or in Hu. destruct Hu as [Hu|[<-|[]]].
           ++ exact (Hseen u xu Hu Hxu).
           ++ rewrite En in Hxu. injection Hxu as <-. order.
      * exists c, x. split; [reflexivity|].
        intros u xu Hu Hxu. apply in_app_or in Hu. destruct Hu as [Hu|[<-|[]]];
          [exact (Hseen u xu Hu Hxu)|congruence].
      * exists c, x. split; [reflexivity|].
        intros u xu Hu Hxu. apply in_app_or in Hu. destruct Hu as [Hu|[<-|[]]];
          [exact (Hseen u xu Hu Hxu)|congruence].
Qed.

Lemma select_least (ds : JsMap.t (dist num)) (unv : set_t) (c : string) (x : num) :
  select num_lt ds unv = (Some c, Finite x) ->
  forall u xu, In u unv -> getD u ds = Finite xu -> num_le x xu.
Proof.
  intros Hsel.
  destruct (@select_fold_least ds unv [] (None, Infinity num)) as [[E _]|(c' & x' & E & H)].
  - left. split; [reflexivity|]. intros u xu [].
  - unfold select in Hsel. rewrite Hsel in E. discriminate.
  - unfold select in Hsel. rewrite Hsel in E. injection E as <- <-. exact H.
Qed.

Lemma select_none (ds : JsMap.t (dist num)) (unv : set_t) (d : dist num) :
  select num_lt ds unv = (None, d) ->
  forall u xu, In u unv -> getD u ds <> Finite xu.
Proof.
  intros Hsel.
  destruct (@select_fold_least ds unv [] (None, Infinity num)) as [[_ H]|(c' & x' & E & _)].
  - left. split; [reflexivity|]. intros u xu [].
  - exact H.
  - unfold select in Hsel. rewrite Hsel in E. discriminate.
Qed.

(** *** The relaxation *)

(** The estimates after relaxing the adjacency of [c], whose estimate is
    [y], against the estimates [ds0] before: only unvisited nodes change,
    an estimate never grows, and a new one is [y] plus the weight of an
    entry. *)
Lemma relax_estimates (c : string) (y : num) (unv : set_t) (adjacency : JsMap.t num)
    (ds0 : JsMap.t (dist num)) (prev : JsMap.t string) :
  getD c ds0 = Finite y -> ~ In c unv ->
  let ds := fst (relax num_lt num_add c adjacency unv ds0 prev) in
  getD c ds = Finite y /\
  (forall k, ~ In k unv -> getD k ds = getD k ds0) /\
  (forall k, getD k ds0 <> NaN num -> getD k ds <> NaN num) /\
  (forall k xk, getD k ds0 = Finite xk -> exists xk', getD k ds = Finite xk' /\ num_le xk' xk) /\
  (forall k xk', getD k ds = Finite xk' ->
     getD k ds0 = Finite xk' \/ exists w, In (k, w) adjacency /\ xk' = num_add y w).
Proof.
  intros Hc Hgone.
  apply (relax_rule num_lt num_add c unv
           (fun acc =>
              getD c (fst acc) = Finite y /\
              (forall k, ~ In k unv -> getD k (fst acc) = getD k ds0) /\
              (forall k, getD k ds0 <> NaN num -> getD k (fst acc) <> NaN num) /\
              (forall k xk, getD k ds0 = Finite xk ->
                            exists xk', getD k (fst acc) = Finite xk' /\ num_le xk' xk) /\
              (forall k xk', getD k (fst acc) = Finite xk' ->
                 getD k ds0 = Finite xk' \/ exists w, In (k, w) adjacency /\ xk' = num_add y w))).
  - intros [ds prev'] n w (Hc' & Hout & Hnan & Hmono & Horigin) Hentry Hn Hlt.
    cbn [fst snd] in *. rewrite Hc' in *. cbn [dist_add] in *.
    assert (Hcn : c <> n) by (intros ->; contradiction).
    split; [now rewrite getD_set_other|]. split; [|split; [|split]].
    + intros k Hk. rewrite getD_set_other; [now apply Hout|]. intros ->. contradiction.
    + intros k Hk. destruct (string_dec k n) as [->|Hkn].
      * rewrite getD_set_same. discriminate.
      * rewrite getD_set_other by assumption. now apply Hnan.
    + intros k xk Hk. destruct (string_dec k n) as [->|Hkn].
      * rewrite getD_set_same. exists (num_add y w). split; [reflexivity|].
        destruct (Hmono n xk Hk) as (xk' & Hxk' & Hle).
        rewrite Hxk' in Hlt. cbn [dist_lt] in Hlt. apply (ord_lt Hord) in Hlt. order.
      * rewrite getD_set_other by assumption. now apply Hmono.
    + intros k xk' Hk. destruct (string_dec k n) as [->|Hkn].
      * rewrite getD_set_same in Hk. injection Hk as <-. right. eauto.
      * rewrite getD_set_other in Hk by assumption. now apply Horigin.
  - cbn [fst]. split; [assumption|]. split; [reflexivity|]. split; [auto|].
    split; [|auto]. intros k xk Hk. exists xk. split; [assumption|order].
Qed.

Lemma relax_cons (c n : string) (w : num) (todo : JsMap.t num) (unv : set_t)
    (ds : JsMap.t (dist num)) (prev : JsMap.t string) :
  relax num_lt num_add c ((n, w) :: todo) unv ds prev =
  if set_has n unv && dist_lt num_lt (dist_add num_add (getD c ds) w) (getD n ds)
  then relax num_lt num_add c todo unv
         (map_set n (dist_add num_add (getD c ds) w) ds) (map_set n c prev)
  else relax num_lt num_add c todo unv ds prev.
Proof.
  unfold relax. cbn [fold_left fst snd].
  destruct (set_has n unv); [|reflexivity].
  now destruct (dist_lt _ _ _).
Qed.

(** After the relaxation no entry of the adjacency of [c] that leads to
    an unvisited node undercuts the estimate of that node. *)
Lemma relax_covers (c : string) (y : num) (unv : set_t) :
  ~ In c unv ->
  forall (todo : JsMap.t num) (ds : JsMap.t (dist num)) (prev : JsMap.t string),
    getD c ds = Finite y ->
    (forall k, In k unv -> getD k ds <> NaN num) ->
    forall n w, In (n, w) todo -> In n unv ->
    exists x, getD n (fst (relax num_lt num_add c todo unv ds prev)) = Finite x /\
              num_le x (num_add y w).
Proof.
  intros Hgone. induction todo as [|[n0 w0] todo IH]; intros ds prev Hc Hnan n w Hin Hn.
  - destruct Hin.
  - rewrite relax_cons. rewrite Hc. cbn [dist_add].
    destruct Hin as [[= -> ->]|Hin].
    + apply set_has_In in Hn. rewrite Hn. cbn [andb].
      destruct (dist_lt num_lt (Finite (num_add y w)) (getD n ds)) eqn:Hlt.
      * assert (Hcn : c <> n) by (intros ->; apply Hgone; now apply set_has_In).
        destruct (@relax_estimates c y unv todo
                    (map_set n (Finite (num_add y w)) ds) (map_set n c prev))
          as (_ & _ & _ & Hmono & _); [now rewrite getD_set_other|assumption|].
        apply (Hmono n (num_add y w)). apply getD_set_same.
      * specialize (Hnan n (proj1 (set_has_In n unv) Hn)).
        destruct (getD n ds) as [xn| |] eqn:En; cbn [dist_lt] in Hlt;
          [|discriminate|congruence].
        apply (ord_not_lt Hord) in Hlt.
        destruct (@relax_estimates c y unv todo ds prev Hc Hgone)
          as (_ & _ & _ & Hmono & _).
        destruct (Hmono n xn En) as (x' & Hx' & Hle). exists x'. split; [assumption|order].
    + destruct (set_has n0 unv && dist_lt num_lt (Finite (num_add y w0)) (getD n0 ds)) eqn:E.
      * apply andb_true_iff in E. destruct E as [Hn0 _]. apply set_has_In in Hn0.
        assert (Hcn : c <> n0) by (intros ->; contradiction).
        apply IH; [now rewrite getD_set_other| |assumption|assumption].
        intros k Hk. destruct (string_dec k n0) as [->|Hkn].
        -- rewrite getD_set_same. discriminate.
        -- rewrite getD_set_other by assumption. now apply Hnan.
      * now apply IH.
Qed.

(** *** The estimates of visited nodes are final *)

Lemma init_settled (g : Graph num) (s : string) :
  settled num_add num_le g (init num_zero g s).
Proof.
  unfold settled, visited.
  split; [intros k Hk; now apply init_covers|].
  split; [|split].
  - intros v [Hv Hout]. exfalso. apply Hout. now apply init_covers.
  - intros v u x [Hv Hout]. exfalso. apply Hout. now apply init_covers.
  - intros v u y w [Hv Hout]. exfalso. apply Hout. now apply init_covers.
Qed.

(** Visiting the node the scan has picked keeps the estimates settled. *)
Lemma settled_step (g : Graph num) (s : string) (st : State num) (c : string) (x : num)
    (node : Node num) :
  no_negative_weight num_zero num_le g ->
  tracing num_add num_zero g s st -> settled num_add num_le g st ->
  select num_lt (distances st) (unvisited st) = (Some c, Finite x) ->
  map_get c (nodes g) = Some node ->
  settled num_add num_le g (visit num_lt num_add c node st).
Proof.
  intros Hpos (Hnd & _ & _ & _ & Hkeys & _) (Hnan & Hfin & Hle & Htense) Hsel Hnode.
  destruct (select_some _ _ _ Hsel) as [Hin (x' & [= <-] & Hc)].
  pose proof (select_least _ _ Hsel) as Hleast.
  destruct (set_delete_NoDup num_lt num_add num_zero c Hnd) as [_ Hgone].
  pose proof (set_delete_incl c (unvisited st)) as Hsub.
  unfold settled, visited, visit in *.
  cbn [distances previous unvisited].
  set (unv := set_delete c (unvisited st)) in *.
  destruct (@relax_estimates c x unv (adj node) (distances st) (previous st) Hc Hgone)
    as (Hc' & Hout & Hnan' & Hmono & Horigin).
  pose proof (@relax_covers c x unv Hgone (adj node) (distances st) (previous st) Hc) as Hcover.
  set (ds := fst (relax num_lt num_add c (adj node) unv (distances st) (previous st))) in *.
  assert (Hold : forall v, map_get v (nodes g) <> None -> ~ In v unv -> v <> c ->
                           ~ In v (unvisited st)).
  { intros v _ Hv Hne Hin'. apply Hv. now apply set_delete_other. }
  assert (Hcvis : forall v xv, map_get v (nodes g) <> None -> ~ In v (unvisited st) ->
                               getD v (distances st) = Finite xv -> num_le xv x).
  { intros v xv Hv Hv' Hxv. destruct (Hle v c x (conj Hv Hv') Hin Hc) as (y & Hy & Hyx).
    rewrite Hxv in Hy. injection Hy as <-. exact Hyx. }
  split; [intros k Hk; now apply Hnan', Hnan|]. split; [|split].
  - intros v [Hv Hv']. rewrite (Hout v Hv').
    destruct (string_dec v c) as [->|Hne]; [eauto|].
    apply Hfin. split; [assumption|now apply Hold].
  - intros v u xu [Hv Hv'] Hu Hxu. rewrite (Hout v Hv').
    assert (Hvx : exists yv, getD v (distances st) = Finite yv /\ num_le yv x).
    { destruct (string_dec v c) as [->|Hne]; [exists x; split; [assumption|order]|].
      destruct (Hfin v (conj Hv (Hold v Hv Hv' Hne))) as [yv Hyv].
      exists yv. split; [assumption|]. now apply (Hcvis v yv Hv (Hold v Hv Hv' Hne)). }
    destruct Hvx as (yv & Hyv & Hyvx). exists yv. split; [assumption|].
    destruct (Horigin u xu Hxu) as [Hsame|(w & Hw & ->)].
    + pose proof (Hleast u xu (Hsub _ Hu) Hsame). order.
    + assert (num_le num_zero w) by (apply (Hpos c u w); exists node; auto). order.
  - intros v u yv w [Hv Hv'] Hyv Harc Hu. rewrite (Hout v Hv') in Hyv.
    destruct (string_dec v c) as [->|Hne].
    + rewrite Hc in Hyv. injection Hyv as <-.
      assert (Hw : num_le num_zero w) by now apply (Hpos c u w).
      destruct Harc as (node' & Hnode' & Hentry).
      rewrite Hnode in Hnode'. injection Hnode' as <-.
      destruct (in_dec string_dec u unv) as [Huv|Huv].
      * apply Hcover; [|assumption|assumption].
        intros k Hk. apply Hnan, Hkeys. now apply Hsub.
      * rewrite (Hout u Huv). destruct (string_dec u c) as [->|Huc].
        -- exists x. split; [assumption|order].
        -- destruct (Hfin u (conj Hu (Hold u Hu Huv Huc))) as [yu Hyu].
           exists yu. split; [assumption|].
           pose proof (Hcvis u yu Hu (Hold u Hu Huv Huc) Hyu). order.
    + destruct (Htense v u yv w (conj Hv (Hold v Hv Hv' Hne)) Hyv Harc Hu) as (xu & Hxu & Hxule).
      destruct (Hmono u xu Hxu) as (xu' & Hxu' & Hxu'le).
      exists xu'. split; [assumption|order].
Qed.

(** Along a walk from the start, either the estimate of its end or the
    estimate of some unvisited node is at most the weight of the walk. *)
Lemma frontier (g : Graph num) (s : string) (st : State num) :
  no_negative_weight num_zero num_le g ->
  getD s (distances st) = Finite num_zero -> settled num_add num_le g st ->
  forall k path t,
    walk num_add num_zero g s k path t -> map_get k (nodes g) <> None ->
    exists u x, getD u (distances st) = Finite x /\ num_le x t /\
                (u = k \/ In u (unvisited st)).
Proof.
  intros Hpos H0 (_ & _ & _ & Htense) k path t Hwalk.
    induction Hwalk as [|b c path t w Hwalk IH Harc]; intros Hk.
  - exists s, num_zero. split; [assumption|]. split; [order|now left].
  - assert (Hw : num_le num_zero w) by now apply (Hpos b c w).
    assert (Hb : map_get b (nodes g) <> None)
      by (destruct Harc as (node & Hnode & _); congruence).
    destruct (IH Hb) as (u & x & Hu & Hx & Hwhere).
    destruct Hwhere as [->|Hunv]; [|exists u, x; split; [assumption|split; [order|now right]]].
    destruct (in_dec string_dec b (unvisited st)) as [Hbu|Hbu].
    + exists b, x. split; [assumption|]. split; [order|now right].
    + destruct (Htense b c x w (conj Hb Hbu) Hu Harc Hk) as (xc & Hxc & Hle).
      exists c, xc. split; [assumption|]. split; [order|now left].
Qed.

Lemma leaves_target (g : Graph num) (s e : string) (st0 st' : State num) :
  no_negative_weight num_zero num_le g -> no_empty_id g ->
  tracing num_add num_zero g s st0 -> settled num_add num_le g st0 ->
  leaves num_lt e st0 st' ->
  map_get e (nodes g) <> None ->
  target_settled num_add num_zero num_le g s e st'.
Proof.
  intros Hpos Hid Htr Hset Hleave He.
  pose proof Htr as (_ & H0 & _ & _ & Hkeys & _).
  assert (Hbound : forall path t,
             walk num_add num_zero g s e path t ->
             exists x, getD e (distances st') = Finite x /\ num_le x t).
  { intros path t Hwalk.
    destruct (frontier Hpos H0 Hset Hwalk He) as (u & x & Hu & Hx & Hwhere).
    destruct Hleave as [[Hempty ->]|[(d & Hsel & ->)|[(c & d & Hsel & Hc & ->)|(d & Hsel & _ & ->)]]];
      cbn [distances].
    - destruct Hwhere as [->|Hin]; [eauto|]. rewrite Hempty in Hin. destruct Hin.
    - destruct Hwhere as [->|Hin]; [eauto|].
      exfalso. exact (select_none _ _ Hsel u Hin Hu).
    - exfalso. destruct (select_some _ _ _ Hsel) as [Hin _].
      unfold truthy in Hc. apply negb_false_iff, String.eqb_eq in Hc. subst c.
      exact (Hkeys _ Hin Hid).
    - destruct Hwhere as [->|Hin]; [eauto|].
      destruct (select_some _ _ _ Hsel) as [_ (xe & -> & Hxe)].
      exists xe. split; [assumption|].
      pose proof (select_least _ _ Hsel u Hin Hu). order. }
  split.
  - intros x path t Hx Hwalk. destruct (Hbound path t Hwalk) as (x' & Hx' & Hle).
    rewrite Hx in Hx'. injection Hx' as <-. exact Hle.
  - intros path t Hwalk. destruct (Hbound path t Hwalk) as (x' & Hx' & _). eauto.
Qed.

Lemma main_loop_target (g : Graph num) (s e : string) (fuel : nat) (st' : State num) :
  no_negative_weight num_zero num_le g -> no_empty_id g ->
  map_get e (nodes g) <> None ->
  main_loop num_lt num_add fuel g e (init num_zero g s) = Returns st' ->
  target_settled num_add num_zero num_le g s e st'.
Proof.
  intros Hpos Hid He Hrun.
  destruct (@main_loop_rule num num_lt num_add g e
              (fun st => tracing num_add num_zero g s st /\ settled num_add num_le g st))
    with (fuel := fuel) (st := init num_zero g s) (st' := st') as (st0 & [Htr Hset] & Hleave).
  - intros st c x node [Htr Hset] Hsel Ht _ Hnode. split.
    + now apply tracing_step with x.
    + now apply settled_step with s x.
  - split; [apply init_tracing; exact num_lt|apply init_settled].
  - assumption.
  - now apply leaves_target with st0.
Qed.

(** A path that [dijkstra] returns is a walk from the start to the
    target, and no walk between them weighs less. *)
Lemma dijkstra_least (g : Graph num) (s e : string) (path : list string) :
  no_negative_weight num_zero num_le g -> no_empty_id g ->
  dijkstra num_lt num_add num_zero (Some g) s e = Returns (Some path) ->
  exists t, walk num_add num_zero g s e path t /\
            forall path' t', walk num_add num_zero g s e path' t' -> num_le t t'.
Proof.
  intros Hpos Hid Hrun.
  destruct (dijkstra_result _ _ _ _ _ _ Hrun)
    as (st & Hloop & Htr & Ht & Hprev & x & Hx & Hwalk).
  assert (He : map_get e (nodes g) <> None).
  { destruct (map_get e (previous st)) as [p|] eqn:Hp; [|congruence].
    destruct Htr as (_ & _ & _ & _ & _ & Hpr & _). now destruct (Hpr e p Hp) as (_ & _ & Hk & _). }
  destruct (@main_loop_target g s e _ st Hpos Hid He Hloop) as [Hlow _].
  exists x. split; [exact Hwalk|]. intros path' t' Hwalk'. now apply (Hlow x path' t').
Qed.


End Shortest.

(** ** The length of a route *)

Section Distance.
Variable num : Type.
Variable haversine : num * num -> num * num -> num.
Variable num_add : num -> num -> num.
Variable num_zero : num.

(** The legs are added in the order of the route: a point appended to
    the route adds its leg last. *)
Lemma add_legs_snoc (coords : list (num * num)) (p q : num * num) :
  forall total,
    add_legs haversine num_add (coords ++ [p; q]) total =
    num_add (add_legs haversine num_add (coords ++ [p]) total) (haversine p q).
Proof.
  induction coords as [|c rest IH]; intros total; [reflexivity|].
  destruct rest as [|r rest'].
  - reflexivity.
  - change (add_legs haversine num_add ((c :: r :: rest') ++ [p; q]) total)
      with (add_legs haversine num_add ((r :: rest') ++ [p; q]) (num_add total (haversine c r))).
    change (add_legs haversine num_add ((c :: r :: rest') ++ [p]) total)
      with (add_legs haversine num_add ((r :: rest') ++ [p]) (num_add total (haversine c r))).
    apply IH.
Qed.

Lemma calculateRouteDistance_snoc (coords : list (num * num)) (p q : num * num) :
  calculateRouteDistance haversine num_add num_zero (coords ++ [p; q]) =
  num_add (calculateRouteDistance haversine num_add num_zero (coords ++ [p])) (haversine p q).
Proof. unfold calculateRouteDistance. apply add_legs_snoc. Qed.

End Distance.

End TrailMapFacts.

Module GeoFacts.
Local Open Scope R_scope.

(** The two great-circle functions agree once they are handed the same
    arguments of [sin], [cos] and [Math_atan2]. *)
Lemma radians_difference (x y : R) :
  y * PI / 180 - x * PI / 180 = (y - x) * PI / 180.
Proof. field. Qed.

Lemma haversine_calculateDistance (lat1 lng1 lat2 lng2 : R) :
  Geo.haversine (lat1, lng1) (lat2, lng2) =
  Geo.calculateDistance {| Geo.lat := lat1; Geo.lng := lng1 |}
                        {| Geo.lat := lat2; Geo.lng := lng2 |}.
Proof.
  unfold Geo.haversine, Geo.calculateDistance.
  cbn [fst snd Geo.lat Geo.lng].
  rewrite !radians_difference.
  set (s1 := sin ((lat2 - lat1) * PI / 180 / 2)).
  set (s2 := sin ((lng2 - lng1) * PI / 180 / 2)).
  set (c1 := cos (lat1 * PI / 180)).
  set (c2 := cos (lat2 * PI / 180)).
  replace (s1 ^ 2 + c1 * c2 * s2 ^ 2) with (s1 * s1 + c1 * c2 * s2 * s2) by ring.
  ring.
Qed.

Lemma haversine_sym (p1 p2 : R * R) : Geo.haversine p1 p2 = Geo.haversine p2 p1.
Proof.
  destruct p1 as [lat1 lng1], p2 as [lat2 lng2].
  unfold Geo.haversine. cbn [fst snd].
  replace ((lat1 * PI / 180 - lat2 * PI / 180) / 2)
    with (- ((lat2 * PI / 180 - lat1 * PI / 180) / 2)) by field.
  replace ((lng1 * PI / 180 - lng2 * PI / 180) / 2)
    with (- ((lng2 * PI / 180 - lng1 * PI / 180) / 2)) by field.
  rewrite !sin_neg.
  set (s1 := sin ((lat2 * PI / 180 - lat1 * PI / 180) / 2)).
  set (s2 := sin ((lng2 * PI / 180 - lng1 * PI / 180) / 2)).
  set (c1 := cos (lat1 * PI / 180)).
  set (c2 := cos (lat2 * PI / 180)).
  replace ((- s1) ^ 2 + c2 * c1 * (- s2) ^ 2) with (s1 ^ 2 + c1 * c2 * s2 ^ 2) by ring.
  reflexivity.
Qed.

Lemma haversine_same (p : R * R) : Geo.haversine p p = 0.
Proof.
  destruct p as [lat1 lng1].
  unfold Geo.haversine. cbn [fst snd].
  replace ((lat1 * PI / 180 - lat1 * PI / 180) / 2) with 0 by field.
  replace ((lng1 * PI / 180 - lng1 * PI / 180) / 2) with 0 by field.
  rewrite sin_0.
  replace (0 ^ 2 + cos (lat1 * PI / 180) * cos (lat1 * PI / 180) * 0 ^ 2) with 0 by ring.
  rewrite Rminus_0_r, sqrt_0, sqrt_1.
  unfold Geo.Math_atan2.
  destruct (Rlt_dec 0 1) as [_|H]; [|exfalso; apply H; lra].
  replace (0 / 1) with 0 by field. rewrite atan_0. ring.
Qed.

(** With both arguments non-negative, [Math_atan2] is an angle of the
    first quadrant. *)
Lemma Math_atan2_quadrant (y x : R) :
  0 <= y -> 0 <= x -> 0 <= Geo.Math_atan2 y x <= PI / 2.
Proof.
  intros Hy Hx. pose proof PI_RGT_0 as Hpi. unfold Geo.Math_atan2.
  destruct (Rlt_dec 0 x) as [Hpos|Hnpos].
  - pose proof (atan_bound (y / x)) as [_ Hup].
    split; [|lra].
    destruct (Req_dec y 0) as [->|Hne].
    + replace (0 / x) with 0 by (field; lra). rewrite atan_0. lra.
    + assert (Hq : 0 < y / x) by (apply Rdiv_lt_0_compat; lra).
      apply atan_increasing in Hq. rewrite atan_0 in Hq. lra.
  - destruct (Rlt_dec x 0) as [Hneg|_]; [lra|].
    destruct (Rlt_dec 0 y) as [_|_]; [lra|].
    destruct (Rlt_dec y 0) as [Hyneg|_]; lra.
Qed.

(** A great-circle distance lies between 0 and half the circumference of
    the Earth. *)
Lemma haversine_range (p1 p2 : R * R) :
  0 <= Geo.haversine p1 p2 <= PI * 6371000.
Proof.
  unfold Geo.haversine.
  set (A := sin _ ^ 2 + _).
  pose proof (Math_atan2_quadrant (sqrt_pos A) (sqrt_pos (1 - A))) as H.
  set (a := Geo.Math_atan2 (sqrt A) (sqrt (1 - A))) in *.
  lra.
Qed.

End GeoFacts.

Module ParkMapFacts.
Import JsMap JsMapFacts TrailMap TrailMapFacts.
Local Open Scope R_scope.

Lemma Rltb_lt (a b : R) : ParkMap.Rltb a b = true <-> a < b.
Proof. unfold ParkMap.Rltb. destruct (Rlt_dec a b); split; auto; discriminate. Qed.

Lemma Rltb_ge (a b : R) : ParkMap.Rltb a b = false <-> b <= a.
Proof.
  unfold ParkMap.Rltb. destruct (Rlt_dec a b); split; auto; try discriminate; lra.
Qed.

(** *** Real arithmetic is ordered *)

Lemma real_arithmetic_ordered : ordered_arithmetic ParkMap.Rltb Rplus 0 Rle.
Proof.
  split.
  - intros a. lra.
  - intros a b c. lra.
  - intros a b H. apply Rltb_lt in H. lra.
  - intros a b H. now apply Rltb_ge in H.
  - intros a b w. lra.
  - intros a w. lra.
Qed.



(** *** Graphs built from trail lines *)





(** A walk never crosses from the lines of the first features to those of
    the features after them. *)
Lemma walk_stays (g : ParkMap.Graph) (coords : list (R * R)) (b n : nat) :
  adjacency_from_edges g ->
  Forall (fun e => leg Geo.haversine coords 0 b e \/ leg Geo.haversine coords b n e)
         (edges g) ->
  forall s e path t,
    ParkMap.walk g s e path t ->
    forall i, s = node_name i -> exists j, e = node_name j /\ ((i < b)%nat <-> (j < b)%nat).
Proof.
  intros Ha Hcut s e path t Hwalk. unfold ParkMap.walk in Hwalk.
  rewrite Forall_forall in Hcut.
  induction Hwalk as [|b0 c path t w Hwalk IH Harc]; intros i Hs.
  - exists i. tauto.
  - destruct (IH i Hs) as (j0 & -> & Hside).
    destruct Harc as (node & Hget & Hin).
    destruct (Ha _ node c w Hget Hin) as (e' & He' & _ & Hdir).
    assert (Hleg : exists k, ((0 <= k /\ S k < b) \/ (b <= k /\ S k < n))%nat /\
                             from e' = node_name k /\ to e' = node_name (S k)).
    { destruct (Hcut e' He') as [(k & _ & _ & ? & ? & ? & ? & _)|(k & _ & _ & ? & ? & ? & ? & _)];
        exists k; auto. }
    destruct Hleg as (k & Hk & Hf & Ht).
    destruct Hdir as [[Hfa Htb]|[Hfb Hta]].
    + rewrite Hf in Hfa. apply node_name_inj in Hfa. subst j0.
      exists (S k). split; [congruence|lia].
    + rewrite Ht in Hta. apply node_name_inj in Hta. subst j0.
      exists k. split; [congruence|lia].
Qed.

(** A search from a node of the first features to a node of the features
    after them, or back, returns [null]. *)
Lemma lines_never_join (fs1 fs2 : list ParkMap.Feature) (g : ParkMap.Graph) (i j : nat) :
  ParkMap.buildTrailGraph (fs1 ++ fs2) = Returns g ->
  (i < List.length (all_coords fs1))%nat -> (List.length (all_coords fs1) <= j)%nat ->
  ParkMap.dijkstra (Some g) (node_name i) (node_name j) = Returns None /\
  ParkMap.dijkstra (Some g) (node_name j) (node_name i) = Returns None.
Proof.
  intros Hbuild Hi Hj.
  destruct (buildTrailGraph_charted _ _ Hbuild) as [(_ & _ & Ha) _].
  pose proof (buildTrailGraph_cut _ _ _ Hbuild) as Hcut.
  assert (Hnone : forall s e k l,
             s = node_name k -> e = node_name l ->
             ~ ((k < List.length (all_coords fs1))%nat <->
                (l < List.length (all_coords fs1))%nat) ->
             ParkMap.dijkstra (Some g) s e = Returns None).
  { intros s e k l Hs He Hsides. unfold ParkMap.dijkstra.
    destruct (dijkstra_returns ParkMap.Rltb Rplus 0 (Some g) s e) as [[path|] Hrun];
      [exfalso|exact Hrun].
    destruct (dijkstra_result _ _ _ _ _ _ Hrun) as (_ & _ & _ & _ & _ & x & _ & Hwalk).
    destruct (@walk_stays g _ _ _ Ha Hcut s e path x Hwalk k Hs) as (l' & Hl' & Hside).
    rewrite He in Hl'. apply node_name_inj in Hl'. subst l'. tauto. }
  split; [apply (Hnone _ _ i j)|apply (Hnone _ _ j i)]; auto; lia.
Qed.


(** *** findNearestNode *)



(** *** calculateRouteDistance *)

Lemma add_legs_from (coords : list (R * R)) :
  forall total,
    add_legs Geo.haversine Rplus coords total =
    total + add_legs Geo.haversine Rplus coords 0.
Proof.
  induction coords as [|p coords IH]; intros total; [simpl; lra|].
  destruct coords as [|q rest]; [simpl; lra|].
  change (add_legs Geo.haversine Rplus (p :: q :: rest) total)
    with (add_legs Geo.haversine Rplus (q :: rest) (total + Geo.haversine p q)).
  change (add_legs Geo.haversine Rplus (p :: q :: rest) 0)
    with (add_legs Geo.haversine Rplus (q :: rest) (0 + Geo.haversine p q)).
  rewrite (IH (total + Geo.haversine p q)), (IH (0 + Geo.haversine p q)). lra.
Qed.

Lemma distance_cons (p q : R * R) (rest : list (R * R)) :
  ParkMap.calculateRouteDistance (p :: q :: rest) =
  Geo.haversine p q + ParkMap.calculateRouteDistance (q :: rest).
Proof.
  unfold ParkMap.calculateRouteDistance, calculateRouteDistance.
  change (add_legs Geo.haversine Rplus (p :: q :: rest) 0)
    with (add_legs Geo.haversine Rplus (q :: rest) (0 + Geo.haversine p q)).
  rewrite add_legs_from. lra.
Qed.

(** The distance of a route is the sum of the distances of its two parts
    on either side of any of its points. *)
Lemma distance_app (l1 l2 : list (R * R)) (p : R * R) :
  ParkMap.calculateRouteDistance (l1 ++ p :: l2) =
  ParkMap.calculateRouteDistance (l1 ++ [p]) + ParkMap.calculateRouteDistance (p :: l2).
Proof.
  induction l1 as [|a l1 IH].
  - cbn [app]. change (ParkMap.calculateRouteDistance [p]) with 0. lra.
  - destruct l1 as [|a' l1].
    + cbn [app]. rewrite !distance_cons. change (ParkMap.calculateRouteDistance [p]) with 0. lra.
    + cbn [app] in *. rewrite !distance_cons, IH. lra.
Qed.

Lemma distance_nonneg (coords : list (R * R)) : 0 <= ParkMap.calculateRouteDistance coords.
Proof.
  induction coords as [|p coords IH].
  - change (ParkMap.calculateRouteDistance []) with 0. lra.
  - destruct coords as [|q rest].
    + change (ParkMap.calculateRouteDistance [p]) with 0. lra.
    + rewrite distance_cons. pose proof (GeoFacts.haversine_range p q). lra.
Qed.

Lemma distance_rev (coords : list (R * R)) :
  ParkMap.calculateRouteDistance (rev coords) = ParkMap.calculateRouteDistance coords.
Proof.
  induction coords as [|p coords IH]; [reflexivity|].
  destruct coords as [|q rest]; [reflexivity|].
  rewrite distance_cons, <- IH. cbn [rev]. rewrite <- app_assoc. cbn [app].
  rewrite distance_app, distance_cons.
  change (ParkMap.calculateRouteDistance [p]) with 0.
  rewrite (GeoFacts.haversine_sym q p). lra.
Qed.

(** *** planRoute *)


Lemma path_coords_returns (g : ParkMap.Graph) (path : list string) :
  Forall (fun k => map_get k (nodes g) <> None) path ->
  exists coords, ParkMap.path_coords g path = Returns coords.
Proof.
  induction 1 as [|k path Hk _ [coords IH]]; cbn [ParkMap.path_coords]; [eauto|].
  destruct (map_get k (nodes g)); [|congruence]. rewrite IH. eauto.
Qed.


(** [planRoute] never throws: with both points set it draws a route. *)
Lemma planRoute_returns (trailGraph : option ParkMap.Graph) (s e : R * R) :
  exists plan, ParkMap.planRoute trailGraph (Some s) (Some e) = Returns (Some plan).
Proof.
  unfold ParkMap.planRoute. destruct trailGraph as [g|]; [|eauto].
  destruct (0 <? map_size (nodes g))%nat; [|eauto].
  destruct (ParkMap.findNearestNode (Some g) s) as [startNode|]; [|eauto].
  destruct (ParkMap.findNearestNode (Some g) e) as [endNode|]; [|eauto].
  destruct (dijkstra_returns ParkMap.Rltb Rplus 0 (Some g) (id startNode) (id endNode))
    as [r Hrun].
  unfold ParkMap.dijkstra at 1. rewrite Hrun. destruct r as [path|]; [|eauto].
  destruct (1 <? List.length path)%nat; [|eauto].
  destruct (@path_coords_returns g path (dijkstra_path_nodes _ _ _ _ _ _ Hrun)) as [coords ->].
  eauto.
Qed.



(** *** Scenarios *)

Lemma two_node_graph_no_negative_weight : ParkMap.no_negative_weight Scenarios.two_node_graph.
Proof.
  intros a b w (node & Hget & Hin). unfold Scenarios.two_node_graph in Hget.
  cbn [nodes map_get] in Hget.
  destruct (String.eqb a "node_0").
  - injection Hget as <-. destruct Hin as [[= _ <-]|[]]. lra.
  - destruct (String.eqb a "node_1"); [|discriminate].
    injection Hget as <-. destruct Hin as [[= _ <-]|[]]. lra.
Qed.


Lemma twoLines_built :
  ParkMap.buildTrailGraph Scenarios.twoLines = Returns (Scenarios.graphOf Scenarios.twoLines).
Proof. reflexivity. Qed.







End ParkMapFacts.

Module ScorerFacts.
Import JsMap Scorer.
Import Lqa.
Local Open Scope string_scope.
Local Open Scope list_scope.
Local Open Scope Q_scope.

(** *** Comparisons *)

Lemma Qltb_lt (a b : Q) : Qltb a b = true <-> a < b.
Proof.
  unfold Qltb. rewrite negb_true_iff. split.
  - intros H. apply Qnot_le_lt. intros Hle. apply Qle_bool_iff in Hle. congruence.
  - intros H. destruct (Qle_bool b a) eqn:E; [|reflexivity].
    apply Qle_bool_iff in E. exfalso. now apply (Qlt_not_le a b).
Qed.

Lemma Qltb_ge (a b : Q) : Qltb a b = false <-> b <= a.
Proof.
  unfold Qltb. rewrite negb_false_iff. apply Qle_bool_iff.
Qed.

Lemma Qgtb_gt (a b : Q) : Qgtb a b = true <-> b < a.
Proof. apply Qltb_lt. Qed.

Lemma Qgtb_le (a b : Q) : Qgtb a b = false <-> a <= b.
Proof. apply Qltb_ge. Qed.

Lemma Qeq_bool_false (a b : Q) : Qeq_bool a b = false <-> ~ a == b.
Proof.
  split.
  - intros H E. apply Qeq_bool_iff in E. congruence.
  - intros H. destruct (Qeq_bool a b) eqn:E; [|reflexivity].
    apply Qeq_bool_iff in E. contradiction.
Qed.

(** *** The weights *)


(** *** Array.prototype.sort *)

Section Sort.
Context {A : Type}.
Variable comparefn : A -> A -> Q.

Lemma sort_insert_perm (x : A) (sorted : list A) :
  Permutation (sort_insert comparefn x sorted) (x :: sorted).
Proof.
  induction sorted as [|y rest IH]; simpl; [reflexivity|].
  destruct (Qltb (comparefn x y) 0); [reflexivity|].
  rewrite IH. apply perm_swap.
Qed.

Lemma sort_fold_perm (l acc : list A) :
  Permutation (fold_left (fun sorted x => sort_insert comparefn x sorted) l acc) (l ++ acc).
Proof.
  revert acc. induction l as [|x l IH]; intros acc; simpl; [reflexivity|].
  rewrite IH, sort_insert_perm. now rewrite Permutation_middle.
Qed.

Lemma Array_sort_perm (l : list A) : Permutation (Array_sort comparefn l) l.
Proof. unfold Array_sort. rewrite sort_fold_perm. now rewrite app_nil_r. Qed.

(** On two elements: the second moves to the front exactly when it
    compares below the first. *)
Lemma Array_sort_two (x y : A) :
  Array_sort comparefn [x; y] = if Qltb (comparefn y x) 0 then [y; x] else [x; y].
Proof. reflexivity. Qed.

End Sort.

(** *** The comparator *)

(** When the scores are within 0.10 of each other, the route with the
    smaller distance score (the one farther from the user) compares
    below the other, so it is ranked first. *)
Lemma compareRoutes_near_tie (a b : ScoredRoute) :
  Qabs (score b - score a) < 0.1 ->
  distanceScore a < distanceScore b ->
  compareRoutes a b < 0 /\ ~ compareRoutes b a < 0.
Proof.
  intros Hclose Hfar. unfold compareRoutes.
  assert (Hclose' : Qabs (score a - score b) < 0.1).
  { setoid_replace (score a - score b) with (- (score b - score a)) by ring.
    now rewrite Qabs_opp. }
  apply Qltb_lt in Hclose, Hclose'. rewrite Hclose, Hclose'.
  split; [lra|]. intros H. lra.
Qed.

Lemma farther_route_sorts_first (a b : ScoredRoute) :
  Qabs (score b - score a) < 0.1 ->
  distanceScore a < distanceScore b ->
  Array_sort compareRoutes [a; b] = [a; b] /\
  Array_sort compareRoutes [b; a] = [a; b].
Proof.
  intros Hclose Hfar.
  destruct (compareRoutes_near_tie a b Hclose Hfar) as [Hab Hba].
  rewrite !Array_sort_two.
  apply Qltb_lt in Hab. rewrite Hab.
  destruct (Qltb (compareRoutes b a) 0) eqn:E; [|auto].
  apply Qltb_lt in E. contradiction.
Qed.

(** *** The filter *)

Lemma guards_pass (c1 c2 c3 c4 c5 : bool) :
  (if c1 then false else if c2 then false else if c3 then false
   else if c4 then false else if c5 then false else true) = true <->
  c1 = false /\ c2 = false /\ c3 = false /\ c4 = false /\ c5 = false.
Proof. destruct c1, c2, c3, c4, c5; simpl; intuition congruence. Qed.

Lemma upper_limit_ok (limit x : option Q) :
  match truthyNum limit with Some m => gtUndef x m | None => false end = false <->
  (forall m v, truthyNum limit = Some m -> x = Some v -> v <= m).
Proof.
  destruct (truthyNum limit) as [m|]; [|split; [discriminate|reflexivity]].
  destruct x as [v|]; simpl.
  - rewrite Qgtb_le. split.
    + intros H m' v' [= <-] [= <-]. exact H.
    + intros H. now apply H.
  - split; [discriminate|reflexivity].
Qed.

Lemma lower_limit_ok (limit x : option Q) :
  match truthyNum limit with Some m => ltUndef x m | None => false end = false <->
  (forall m v, truthyNum limit = Some m -> x = Some v -> m <= v).
Proof.
  destruct (truthyNum limit) as [m|]; [|split; [discriminate|reflexivity]].
  destruct x as [v|]; simpl.
  - rewrite Qltb_ge. split.
    + intros H m' v' [= <-] [= <-]. exact H.
    + intros H. now apply H.
  - split; [discriminate|reflexivity].
Qed.

Lemma difficulty_ok (wanted_ actual : option string) :
  match truthyStr wanted_ with Some d => strictNeqStr actual d | None => false end = false <->
  (forall wanted, truthyStr wanted_ = Some wanted -> actual = Some wanted).
Proof.
  destruct (truthyStr wanted_) as [d|]; [|split; [discriminate|reflexivity]].
  destruct actual as [s|]; simpl.
  - rewrite negb_false_iff, String.eqb_eq. split.
    + intros -> wanted [= <-]. reflexivity.
    + intros H. specialize (H d eq_refl). congruence.
  - split; [discriminate|]. intros H. specialize (H d eq_refl). discriminate.
Qed.

Lemma meetsBasicCriteria_respects (route : Route) (filters : Filters) :
  meetsBasicCriteria route filters = true <-> respects route filters.
Proof.
  unfold meetsBasicCriteria, respects.
  rewrite guards_pass, !upper_limit_ok, lower_limit_ok, difficulty_ok.
  assert (Hacc : filter_accessible filters && negb (accessible route) = false <->
                 (filter_accessible filters = true -> accessible route = true))
    by (destruct (filter_accessible filters), (accessible route); simpl; intuition congruence).
  rewrite Hacc. tauto.
Qed.

(** *** Similarity *)

Lemma areRoutesSimilar_Similar (route1 route2 : Route) :
  areRoutesSimilar route1 route2 = true <-> Similar route1 route2.
Proof.
  unfold areRoutesSimilar, Similar.
  destruct (distance route1) as [d1|]; [|split; [discriminate|intros (?&?&?&_); discriminate]].
  destruct (distance route2) as [d2|]; [|split; [discriminate|intros (?&?&?&?&_); discriminate]].
  destruct (Qeq_bool (Qmax d1 d2) 0) eqn:E.
  - apply Qeq_bool_iff in E. split; [discriminate|].
    intros (x & y & [= <-] & [= <-] & Hnz & _). contradiction.
  - apply Qeq_bool_false in E. rewrite andb_true_iff, Qltb_lt, Qgtb_gt. split.
    + intros [H1 H2]. exists d1, d2. auto.
    + intros (x & y & [= <-] & [= <-] & _ & H1 & H2). auto.
Qed.

Lemma areRoutesSimilar_not_Similar (route1 route2 : Route) :
  areRoutesSimilar route1 route2 = false <-> ~ Similar route1 route2.
Proof.
  rewrite <- areRoutesSimilar_Similar.
  destruct (areRoutesSimilar route1 route2); intuition congruence.
Qed.

(** *** The diversity step *)

Lemma find_dissimilar_some (top : ScoredRoute) (candidates : list ScoredRoute) (c : ScoredRoute) :
  find_dissimilar top candidates = Some c <->
  exists skipped rest,
    candidates = skipped ++ c :: rest /\
    Forall (fun r => Similar (route_of top) (route_of r)) skipped /\
    ~ Similar (route_of top) (route_of c).
Proof.
  induction candidates as [|x l IH]; simpl.
  - split; [discriminate|]. intros (sk & rest & H & _). now destruct sk.
  - destruct (areRoutesSimilar (route_of top) (route_of x)) eqn:E; simpl.
    + rewrite IH. apply areRoutesSimilar_Similar in E. split.
      * intros (sk & rest & -> & Hsk & Hc). exists (x :: sk), rest. auto.
      * intros (sk & rest & Heq & Hsk & Hc). destruct sk as [|y sk].
        -- simpl in Heq. injection Heq as <- _. contradiction.
        -- simpl in Heq. injection Heq as <- ->. inversion Hsk; subst. eauto.
    + apply areRoutesSimilar_not_Similar in E. split.
      * intros [= <-]. exists [], l. auto.
      * intros (sk & rest & Heq & Hsk & Hc). destruct sk as [|y sk].
        -- simpl in Heq. now injection Heq as <- _.
        -- simpl in Heq. injection Heq as <- ->. inversion Hsk; subst. contradiction.
Qed.

Lemma find_dissimilar_none (top : ScoredRoute) (candidates : list ScoredRoute) :
  find_dissimilar top candidates = None <->
  Forall (fun r => Similar (route_of top) (route_of r)) candidates.
Proof.
  induction candidates as [|x l IH]; simpl.
  - split; auto.
  - destruct (areRoutesSimilar (route_of top) (route_of x)) eqn:E; simpl.
    + rewrite IH. apply areRoutesSimilar_Similar in E. split.
      * auto.
      * intros H. now inversion H.
    + apply areRoutesSimilar_not_Similar in E. split; [discriminate|].
      intros H. inversion H; subst. contradiction.
Qed.

Lemma find_dissimilar_in (top : ScoredRoute) (candidates : list ScoredRoute) (c : ScoredRoute) :
  find_dissimilar top candidates = Some c -> In c candidates.
Proof.
  intros H. apply find_dissimilar_some in H. destruct H as (sk & rest & -> & _).
  apply in_elt.
Qed.

Lemma diversify_length (sorted : list ScoredRoute) :
  (List.length (diversify sorted) <= 2)%nat.
Proof.
  unfold diversify.
  destruct sorted as [|a [|b rest]]; simpl; try lia.
  destruct (areRoutesSimilar _ _); [|simpl; lia].
  destruct (find_dissimilar a rest); simpl; lia.
Qed.

Lemma diversify_incl (sorted : list ScoredRoute) : incl (diversify sorted) sorted.
Proof.
  unfold diversify.
  destruct sorted as [|a [|b rest]]; simpl; try apply incl_refl.
  assert (Hab : incl [a; b] (a :: b :: rest))
    by (intros x [<-|[<-|[]]]; simpl; auto).
  destruct (areRoutesSimilar _ _); [|exact Hab].
  destruct (find_dissimilar a rest) as [c|] eqn:E; [|exact Hab].
  apply find_dissimilar_in in E.
  intros x [<-|[<-|[]]]; simpl; auto.
Qed.

(** *** Scoring the eligible routes *)

Section Selector.
Variable calculateDistance : LatLng -> LatLng -> Q.

Lemma scoreOne_route now context userLocation userProfile route scored :
  scoreOne calculateDistance now context userLocation userProfile route = Returns scored ->
  route_of scored = route.
Proof.
  unfold scoreOne. destruct userLocation as [u|].
  - destruct (startPoint route); [|discriminate]. now intros [= <-].
  - now intros [= <-].
Qed.

Lemma mapM_scoreOne_routes now context userLocation userProfile routes scored :
  mapM (scoreOne calculateDistance now context userLocation userProfile) routes = Returns scored ->
  map route_of scored = routes.
Proof.
  revert scored. induction routes as [|r routes IH]; intros scored; simpl.
  - now intros [= <-].
  - destruct (scoreOne _ _ _ _ _ r) as [y| |] eqn:E; try discriminate.
    destruct (mapM _ routes) as [ys| |]; try discriminate.
    intros [= <-]. simpl. apply scoreOne_route in E. now rewrite E, (IH ys).
Qed.

(** Scoring returns unless a user location meets a route without a
    start point. *)
Lemma mapM_scoreOne_returns now context userLocation userProfile routes :
  userLocation = None \/ Forall (fun r => startPoint r <> None) routes ->
  exists scored,
    mapM (scoreOne calculateDistance now context userLocation userProfile) routes = Returns scored.
Proof.
  intros H. induction routes as [|r routes IH]; simpl; [eauto|].
  destruct IH as [ys Hys].
  { destruct H as [H|H]; [now left|right]. now inversion H. }
  rewrite Hys. unfold scoreOne. destruct userLocation as [u|]; [|eauto].
  destruct H as [H|H]; [discriminate|]. inversion H; subst.
  destruct (startPoint r); [eauto|congruence].
Qed.

Lemma sortedRoutes_routes now allRoutes userFilters userLocation userProfile sorted :
  sortedRoutes calculateDistance now allRoutes userFilters userLocation userProfile = Returns sorted ->
  Permutation (map route_of sorted) (eligibleRoutes allRoutes userFilters).
Proof.
  unfold sortedRoutes.
  destruct (mapM _ _) as [scored| |] eqn:E; try discriminate.
  intros [= <-]. apply mapM_scoreOne_routes in E. rewrite <- E.
  apply Permutation_map, Array_sort_perm.
Qed.

Lemma eligible_respects allRoutes userFilters route :
  In route (eligibleRoutes allRoutes userFilters) <->
  In route allRoutes /\ respects route userFilters.
Proof.
  unfold eligibleRoutes. rewrite filter_In. now rewrite meetsBasicCriteria_respects.
Qed.

End Selector.

(** *** Bounds on the sub-scores *)

(** Replaces every [Qmax] and [Qmin] by a variable with its two cases. *)
Ltac minmax :=
  repeat match goal with
         | |- context [Qmax ?a ?b] =>
             let m := fresh "m" in
             let H := fresh "Hm" in
             pose proof (Q.max_spec a b) as H; set (m := Qmax a b) in *; clearbody m
         | |- context [Qmin ?a ?b] =>
             let m := fresh "m" in
             let H := fresh "Hm" in
             pose proof (Q.min_spec a b) as H; set (m := Qmin a b) in *; clearbody m
         | _ : context [Qmax ?a ?b] |- _ =>
             let m := fresh "m" in
             let H := fresh "Hm" in
             pose proof (Q.max_spec a b) as H; set (m := Qmax a b) in *; clearbody m
         | _ : context [Qmin ?a ?b] |- _ =>
             let m := fresh "m" in
             let H := fresh "Hm" in
             pose proof (Q.min_spec a b) as H; set (m := Qmin a b) in *; clearbody m
         end.



(** Turns the divisions by a constant into multiplications. *)
Ltac const_div :=
  unfold Qdiv in *;
  repeat match goal with
         | |- context [Qinv ?c] =>
             let v := eval vm_compute in (Qinv c) in
             match v with Qmake _ _ => change (Qinv c) with v in * end
         | _ : context [Qinv ?c] |- _ =>
             let v := eval vm_compute in (Qinv c) in
             match v with Qmake _ _ => change (Qinv c) with v in * end
         end.

(** Closes a linear goal after splitting the cases of [Qmax] and [Qmin]. *)
Ltac bounds :=
  const_div; minmax;
  repeat match goal with
         | H : _ /\ _ \/ _ /\ _ |- _ => destruct H as [[? ?]|[? ?]]
         end;
  lra.


Lemma len_cons_pos {A : Type} (x : A) (l : list A) : 1 <= len (x :: l).
Proof.
  unfold len. change 1 with (inject_Z 1). rewrite <- Zle_Qle. simpl List.length. lia.
Qed.














(** *** The facility score *)







(** *** Path quality and personal preference *)




(** When nothing is set the guard of [calculatePersonalPreference] only
    short-cuts: the body computes 0.5 as well. *)
Lemma personalPreferenceBody_nothing_set (route : Route) (preferences : Preferences) :
  no_keys preferences = true -> personalPreferenceBody route preferences == 0.5.
Proof.
  unfold no_keys, personalPreferenceBody.
  destruct (needs preferences); try discriminate.
  destruct (preferredDistance preferences); try discriminate.
  destruct (difficultyLevel preferences); try discriminate.
  destruct (interests preferences); try discriminate.
  destruct (preferredDuration preferences); try discriminate.
  intros _. reflexivity.
Qed.

(** *** The total *)





(** *** The breakdown *)




(** *** An attribute of 0 counts as missing *)

Lemma orElse_truthyNum (x : option Q) (d : Q) : orElse (truthyNum x) d = orElse x d.
Proof.
  destruct x as [v|]; [|reflexivity]. unfold truthyNum, orElse.
  destruct (Qeq_bool v 0) eqn:E; [reflexivity|]. now rewrite E.
Qed.

Lemma calculateScore_withoutZeros (now : Date) (route : Route) (preferences : Preferences)
    (context : Context) :
  calculateScore now (withoutZeros route) preferences context =
  calculateScore now route preferences context.
Proof.
  assert (Hweather : forall w, calculateWeatherScore (withoutZeros route) w =
                               calculateWeatherScore route w).
  { intros w. unfold calculateWeatherScore, withoutZeros.
    cbn [shelterCoverage shadeCoverage exposureLevel].
    now rewrite !orElse_truthyNum. }
  assert (Hwild : forall t s, calculateWildlifeScore (withoutZeros route) t s =
                              calculateWildlifeScore route t s).
  { intros t s. unfold calculateWildlifeScore, calculateWildlifeLocationScore, withoutZeros.
    cbn [wildlifeData species wildlifeHistory recentSightings nearWater
         vegetationCoverage crowdDensity].
    now rewrite !orElse_truthyNum. }
  assert (Hfac : forall n, calculateFacilityScore (withoutZeros route) n =
                           calculateFacilityScore route n).
  { intros n. unfold calculateFacilityScore, calculateFacilityDistribution, withoutZeros.
    cbn [facilities distance].
    now rewrite !orElse_truthyNum. }
  assert (Hpath : calculatePathQuality (withoutZeros route) = calculatePathQuality route).
  { unfold calculatePathQuality, withoutZeros.
    cbn [surfaceQuality gradient safety scenery].
    now rewrite !orElse_truthyNum. }
  assert (Hpers : calculatePersonalPreference (withoutZeros route) preferences =
                  calculatePersonalPreference route preferences).
  { unfold calculatePersonalPreference, personalPreferenceBody, withoutZeros.
    cbn [distance difficulty themes estimatedTime].
    now rewrite !orElse_truthyNum. }
  unfold calculateScore. now rewrite Hweather, Hwild, Hfac, Hpath, Hpers.
Qed.

(** *** What the selector returns *)

Section SelectorResults.
Variable calculateDistance : LatLng -> LatLng -> Q.

(** With a user location, scoring throws at the first route without a
    start point. *)
Lemma mapM_scoreOne_throws now context (u : LatLng) userProfile routes :
  Exists (fun r => startPoint r = None) routes ->
  mapM (scoreOne calculateDistance now context (Some u) userProfile) routes = Throws TypeError.
Proof.
  induction routes as [|r routes IH]; intros Hex; [inversion Hex|].
  cbn [mapM]. unfold scoreOne at 1.
  destruct (startPoint r) as [s|] eqn:Hs; [|reflexivity].
  inversion Hex as [? ? Hnone|? ? Hrest]; subst; [congruence|].
  now rewrite (IH Hrest).
Qed.

Lemma recommendRoutes_throws now allRoutes userFilters (u : LatLng) userProfile :
  Exists (fun r => respects r userFilters /\ startPoint r = None) allRoutes ->
  recommendRoutes calculateDistance now allRoutes userFilters (Some u) userProfile =
    Throws TypeError.
Proof.
  intros Hex.
  assert (Hel : Exists (fun r => startPoint r = None) (eligibleRoutes allRoutes userFilters)).
  { apply Exists_exists in Hex. destruct Hex as (r & Hin & Hok & Hnone).
    apply Exists_exists. exists r. split; [|assumption].
    apply eligible_respects. auto. }
  unfold recommendRoutes.
  destruct (eligibleRoutes allRoutes userFilters) as [|r0 rs] eqn:E; [inversion Hel|].
  unfold sortedRoutes. rewrite E. now rewrite mapM_scoreOne_throws.
Qed.

Lemma diversify_length_min (sorted : list ScoredRoute) :
  List.length (diversify sorted) = Nat.min 2 (List.length sorted).
Proof.
  unfold diversify. destruct sorted as [|a [|b rest]]; try reflexivity.
  cbn [firstn skipn]. destruct (areRoutesSimilar _ _); [|reflexivity].
  now destruct (find_dissimilar a rest).
Qed.

(** A recommendation holds two routes whenever two are eligible, and all
    the eligible ones otherwise. *)
Lemma recommendRoutes_length now allRoutes userFilters userLocation userProfile result :
  recommendRoutes calculateDistance now allRoutes userFilters userLocation userProfile =
    Returns result ->
  List.length result = Nat.min 2 (List.length (eligibleRoutes allRoutes userFilters)).
Proof.
  unfold recommendRoutes.
  destruct (eligibleRoutes allRoutes userFilters) as [|r0 rs] eqn:E.
  - now intros [= <-].
  - destruct (sortedRoutes _ _ _ _ _ _) as [sorted| |] eqn:Hsorted; try discriminate.
    intros [= <-]. rewrite diversify_length_min.
    apply sortedRoutes_routes in Hsorted. apply Permutation_length in Hsorted.
    rewrite length_map, E in Hsorted. now rewrite Hsorted.
Qed.

End SelectorResults.

(** *** Ranking by score *)

Lemma apart_sym (a b : ScoredRoute) : apart a b -> apart b a.
Proof.
  unfold apart. intros H.
  setoid_replace (score a - score b) with (- (score b - score a)) by ring.
  now rewrite Qabs_opp.
Qed.

(** Between routes whose scores are at least 0.10 apart the comparator
    is the difference of the scores. *)
Lemma compareRoutes_apart (a b : ScoredRoute) :
  apart a b -> (compareRoutes a b < 0 <-> outscores a b) /\ (outscores a b \/ outscores b a).
Proof.
  unfold apart, outscores, compareRoutes. intros H.
  assert (Hd : score b - score a <= - 0.1 \/ 0.1 <= score b - score a).
  { revert H. apply Qabs_case; intros H1 H2; [right|left]; lra. }
  apply Qltb_ge in H. rewrite H.
  split; [split; intros; lra|]. destruct Hd; [left|right]; lra.
Qed.

Lemma sort_insert_outscores (x : ScoredRoute) (sorted : list ScoredRoute) :
  StronglySorted outscores sorted -> Forall (apart x) sorted ->
  StronglySorted outscores (sort_insert compareRoutes x sorted).
Proof.
  induction sorted as [|y rest IH]; intros Hsorted Hapart; cbn [sort_insert].
  - repeat constructor.
  - inversion Hsorted as [|? ? Hrest Hy]; subst.
    inversion Hapart as [|? ? Hxy Hxrest]; subst.
    destruct (compareRoutes_apart Hxy) as [Hcmp Htotal].
    destruct (Qltb (compareRoutes x y) 0) eqn:E.
    + apply Qltb_lt, Hcmp in E. constructor; [assumption|].
      constructor; [assumption|].
      eapply Forall_impl; [|exact Hy]. unfold outscores in *. intros z Hz. lra.
    + apply Qltb_ge in E.
      assert (Hyx : outscores y x).
      { destruct Htotal as [Hx|Hx]; [|assumption]. apply Hcmp in Hx. lra. }
      constructor; [now apply IH|].
      apply Permutation_Forall with (x :: rest).
      * symmetry. apply sort_insert_perm.
      * now constructor.
Qed.

Lemma sort_fold_outscores (todo : list ScoredRoute) :
  forall acc,
    StronglySorted outscores acc -> ForallOrdPairs apart todo ->
    (forall x, In x todo -> Forall (apart x) acc) ->
    StronglySorted outscores
      (fold_left (fun sorted x => sort_insert compareRoutes x sorted) todo acc).
Proof.
  induction todo as [|x todo IH]; intros acc Hacc Hpairs Hcross; cbn [fold_left];
    [assumption|].
  inversion Hpairs as [|? ? Hx Htodo]; subst.
  apply IH; [|assumption|].
  - apply sort_insert_outscores; [assumption|]. apply Hcross. now left.
  - intros y Hy. apply Permutation_Forall with (x :: acc).
    + symmetry. apply sort_insert_perm.
    + constructor; [|apply Hcross; now right].
      apply apart_sym. rewrite Forall_forall in Hx. now apply Hx.
Qed.

(** When the scores are pairwise at least 0.10 apart, the ranking is by
    descending score. *)
Lemma Array_sort_outscores (scored : list ScoredRoute) :
  ForallOrdPairs apart scored ->
  StronglySorted outscores (Array_sort compareRoutes scored).
Proof.
  intros H. unfold Array_sort. apply sort_fold_outscores; [constructor|assumption|].
  intros x _. constructor.
Qed.

(** *** Similarity and themes *)

Lemma themeOverlap_none_left (themes2 : list string) : themeOverlap [] themes2 == 0.
Proof. unfold themeOverlap. cbn [filter]. unfold Qdiv. change (len []) with 0. ring. Qed.

Lemma filter_none {A : Type} (l : list A) : filter (fun _ => false) l = [].
Proof. induction l; simpl; auto. Qed.

Lemma themeOverlap_none_right (themes1 : list string) : themeOverlap themes1 [] == 0.
Proof.
  unfold themeOverlap, includes. cbn [existsb]. rewrite filter_none.
  unfold Qdiv. change (len []) with 0. ring.
Qed.

(** A route without themes is similar to no route, and no route to it. *)
Lemma areRoutesSimilar_no_themes (route1 route2 : Route) :
  orDefault (themes route1) [] = [] \/ orDefault (themes route2) [] = [] ->
  areRoutesSimilar route1 route2 = false.
Proof.
  intros H. apply areRoutesSimilar_not_Similar.
  intros (d1 & d2 & _ & _ & _ & _ & Hover).
  destruct H as [H|H]; rewrite H in Hover.
  - rewrite themeOverlap_none_left in Hover. lra.
  - rewrite themeOverlap_none_right in Hover. lra.
Qed.

Lemma includes_In (l : list string) (s : string) : includes l s = true <-> In s l.
Proof.
  unfold includes. rewrite existsb_exists. split.
  - intros (x & Hx & E). apply String.eqb_eq in E. now subst.
  - intros H. exists s. split; [assumption|apply String.eqb_refl].
Qed.

(** Two lists without repetition have as many elements in common either
    way round. *)
Lemma common_themes_sym (themes1 themes2 : list string) :
  NoDup themes1 -> NoDup themes2 ->
  List.length (filter (fun theme => includes themes2 theme) themes1) =
  List.length (filter (fun theme => includes themes1 theme) themes2).
Proof.
  intros H1 H2. apply Permutation_length, NoDup_Permutation.
  - now apply NoDup_filter.
  - now apply NoDup_filter.
  - intros x. rewrite !filter_In, !includes_In. tauto.
Qed.

Lemma themeOverlap_sym (themes1 themes2 : list string) :
  NoDup themes1 -> NoDup themes2 ->
  themeOverlap themes1 themes2 == themeOverlap themes2 themes1.
Proof.
  intros H1 H2. unfold themeOverlap, len.
  rewrite (common_themes_sym H1 H2).
  now rewrite (Q.max_comm (inject_Z (Z.of_nat (List.length themes1)))).
Qed.

Lemma relativeDistanceDifference_sym (d1 d2 : Q) :
  relativeDistanceDifference d1 d2 == relativeDistanceDifference d2 d1.
Proof.
  unfold relativeDistanceDifference.
  rewrite (Q.max_comm d1 d2).
  setoid_replace (d1 - d2) with (- (d2 - d1)) by ring.
  now rewrite Qabs_opp.
Qed.

Lemma Similar_sym (route1 route2 : Route) :
  NoDup (orDefault (themes route1) []) -> NoDup (orDefault (themes route2) []) ->
  Similar route1 route2 -> Similar route2 route1.
Proof.
  intros H1 H2 (d1 & d2 & Hd1 & Hd2 & Hnz & Hrel & Hover).
  exists d2, d1. split; [assumption|]. split; [assumption|].
  rewrite (Q.max_comm d2 d1), relativeDistanceDifference_sym, (themeOverlap_sym H2 H1).
  auto.
Qed.

(** On routes whose theme lists have no repetition, similarity does not
    depend on the order of the two routes. *)
Lemma areRoutesSimilar_sym (route1 route2 : Route) :
  NoDup (orDefault (themes route1) []) -> NoDup (orDefault (themes route2) []) ->
  areRoutesSimilar route1 route2 = areRoutesSimilar route2 route1.
Proof.
  intros H1 H2.
  destruct (areRoutesSimilar route1 route2) eqn:E12, (areRoutesSimilar route2 route1) eqn:E21;
    try reflexivity.
  - apply areRoutesSimilar_Similar in E12. apply areRoutesSimilar_not_Similar in E21.
    exfalso. apply E21. now apply Similar_sym.
  - apply areRoutesSimilar_Similar in E21. apply areRoutesSimilar_not_Similar in E12.
    exfalso. apply E12. now apply Similar_sym.
Qed.

(** *** Hours without wildlife *)

(** No species is active before 6, from 11 to 14 and from 20 on: the
    time factor is then 0, whatever the sighting data of the route. *)
Lemma getTimeBasedProbability_quiet_hours (hour : nat) (wildlifeData_ : JsMap.t Q) :
  (hour < 6 \/ 11 <= hour <= 14 \/ 20 <= hour)%nat ->
  getTimeBasedProbability hour wildlifeData_ == 0.
Proof.
  intros H.
  do 20 (destruct hour as [|hour]; [first [exfalso; lia|reflexivity]|]).
  reflexivity.
Qed.

(** *** The reasons *)

Lemma generateReasons_NoDup (weatherScore wildlifeScore facilityScore pathScore personalScore : Q)
    (preferences : Preferences) :
  NoDup (generateReasons weatherScore wildlifeScore facilityScore pathScore personalScore
           preferences) /\
  (List.length (generateReasons weatherScore wildlifeScore facilityScore pathScore
                  personalScore preferences) <= 3)%nat.
Proof.
  unfold generateReasons. split; [|apply firstn_le_length].
  destruct (Qgtb weatherScore 0.8), (Qltb weatherScore 0.4), (Qgtb wildlifeScore 0.7),
    (Qgtb wildlifeScore 0.5), (Qgtb facilityScore 0.8), (Qltb facilityScore 0.4),
    (Qgtb pathScore 0.8), (Qltb pathScore 0.5), (Qgtb personalScore 0.7),
    (prioritizeWildlife preferences && Qgtb wildlifeScore 0.6),
    (weatherSensitive preferences && Qgtb weatherScore 0.7);
    cbn [app firstn];
    repeat (constructor; [simpl; intuition discriminate|]); constructor.
Qed.

(** *** Personal facility needs *)

Lemma len_cons {A : Type} (x : A) (l : list A) : len (x :: l) == len l + 1.
Proof.
  unfold len. cbn [List.length]. rewrite Nat2Z.inj_succ, <- Z.add_1_r, inject_Z_plus.
  reflexivity.
Qed.

Lemma needs_fold_counts (facilities_ : list Facility) (userNeeds : JsMap.t bool) :
  forall acc : Q * Q,
    let r :=
      fold_left
        (fun (acc : Q * Q) (need : string * bool) =>
           if snd need then
             let hasNeed := existsb (fun f => String.eqb (type f) (fst need)) facilities_ in
             (if hasNeed then fst acc + 1 else fst acc, snd acc + 1)
           else acc)
        userNeeds acc in
    fst r == fst acc + len (metNeeds facilities_ userNeeds) /\
    snd r == snd acc + len (wantedNeeds userNeeds).
Proof.
  unfold metNeeds, wantedNeeds.
  induction userNeeds as [|need l IH]; intros acc; cbn [fold_left filter].
  - change (len []) with 0. split; ring.
  - destruct (snd need) eqn:Hwanted.
    + cbn [filter]. cbv zeta.
      destruct (existsb _ facilities_) eqn:Hmet.
      * destruct (IH (fst acc + 1, snd acc + 1)) as [H1 H2]. cbn [fst snd] in *.
        rewrite H1, H2, !len_cons. split; ring.
      * destruct (IH (fst acc, snd acc + 1)) as [H1 H2]. cbn [fst snd] in *.
        rewrite H1, H2, !len_cons. split; ring.
    + apply IH.
Qed.

(** The personal facility score is the share of the needs that are set
    for which the route has a facility of that type, and 0.5 when no need
    is set. *)
Lemma calculatePersonalFacilityScore_share (facilities_ : list Facility)
    (userNeeds : JsMap.t bool) :
  calculatePersonalFacilityScore facilities_ userNeeds ==
  match wantedNeeds userNeeds with
  | [] => 0.5
  | _ :: _ => len (metNeeds facilities_ userNeeds) / len (wantedNeeds userNeeds)
  end.
Proof.
  unfold calculatePersonalFacilityScore.
  destruct userNeeds as [|need l] eqn:Hneeds; [reflexivity|]. rewrite <- Hneeds. clear Hneeds.
  pose proof (needs_fold_counts facilities_ userNeeds (0, 0)) as Hcount.
  cbv zeta in Hcount. cbn [fst snd] in Hcount.
  destruct (fold_left _ userNeeds (0, 0)) as [met total_] eqn:Hfold.
  cbn [fst snd] in Hcount. destruct Hcount as [Hmet Htotal].
  destruct (wantedNeeds userNeeds) as [|w ws] eqn:Hwanted.
  - change (len []) with 0 in Htotal.
    assert (E : Qgtb total_ 0 = false) by (apply Qgtb_le; lra).
    now rewrite E.
  - pose proof (len_cons_pos w ws) as Hpos.
    assert (E : Qgtb total_ 0 = true) by (apply Qgtb_gt; lra).
    rewrite E, Hmet, Htotal. now rewrite !Qplus_0_l.
Qed.

(** *** Heat overrides rain *)

(** On a sunny day above 25 degrees the weather score depends neither on
    the precipitation nor on the shelter of the route: the assignment of
    the sun branch replaces what the rain branch computed. *)
Lemma calculateWeatherScore_heat (route : Route) (weatherData : Weather) (t : Q)
    (p : option Q) (c : option Q) :
  temperature weatherData = Some t -> 25 < t -> orDefault (sunny weatherData) true = true ->
  calculateWeatherScore (withShelter route c) (withPrecipitation weatherData p) =
  calculateWeatherScore route weatherData.
Proof.
  intros Ht Hhot Hsunny.
  unfold calculateWeatherScore, withShelter, withPrecipitation.
  cbn [precipitation temperature windSpeed humidity sunny
       shelterCoverage shadeCoverage exposureLevel].
  rewrite Ht, Hsunny. cbn [orDefault].
  assert (E1 : Qgtb t 25 = true) by now apply Qgtb_gt.
  assert (E2 : Qle_bool t 25 = false).
  { destruct (Qle_bool t 25) eqn:E; [|reflexivity]. apply Qle_bool_iff in E. lra. }
  rewrite E1, E2, !andb_false_r. cbn [andb]. reflexivity.
Qed.

(** *** The total and the returned breakdown *)





(** *** Scores that are clearly apart *)

Lemma clearlyApart_apart (a b : ScoredRoute) : clearlyApart a b -> apart a b.
Proof. unfold clearlyApart, apart. lra. Qed.

Lemma ForallOrdPairs_weaken {A : Type} (P Q' : A -> A -> Prop) (l : list A) :
  (forall a b, P a b -> Q' a b) -> ForallOrdPairs P l -> ForallOrdPairs Q' l.
Proof.
  intros Himp. induction 1 as [|a l Ha _ IH]; constructor; [|exact IH].
  eapply Forall_impl; [|exact Ha]. intros b. apply Himp.
Qed.

Lemma Array_sort_clearlyApart (scored : list ScoredRoute) :
  ForallOrdPairs clearlyApart scored ->
  StronglySorted outscores (Array_sort compareRoutes scored).
Proof.
  intros H. apply Array_sort_outscores.
  apply ForallOrdPairs_weaken with clearlyApart; [|exact H].
  intros a b. apply clearlyApart_apart.
Qed.

End ScorerFacts.

Module LayersFacts.
Import Layers.
Local Open Scope list_scope.

Lemma Rleb_le (a b : R) : Rleb a b = true <-> (a <= b)%R.
Proof. unfold Rleb. destruct (Rle_dec a b); split; auto; discriminate. Qed.

Lemma within_spec (x : option R) (lo hi : R) :
  within x lo hi = true <-> exists v, x = Some v /\ (lo <= v <= hi)%R.
Proof.
  unfold within. destruct x as [v|].
  - rewrite andb_true_iff, !Rleb_le. split.
    + intros H. exists v. auto.
    + intros (v' & [= <-] & H). exact H.
  - split; [discriminate|]. intros (v & H & _). discriminate.
Qed.

(** *** filterGeoJSONFeatures *)

Lemma pushed_spec (feature : Feature) :
  geometry feature <> None -> pushed feature = Returns (startsInLondon feature).
Proof.
  unfold pushed, startsInLondon. destruct (geometry feature); [reflexivity|congruence].
Qed.

Lemma forEach_push_spec (fs : list Feature) :
  forall filtered,
    Forall (fun f => geometry f <> None) fs ->
    forEach_push fs filtered = Returns (filtered ++ filter startsInLondon fs).
Proof.
  induction fs as [|f fs IH]; intros filtered Hall; cbn [forEach_push filter].
  - now rewrite app_nil_r.
  - inversion Hall as [|? ? Hf Hfs]; subst. rewrite (@pushed_spec f Hf).
    destruct (startsInLondon f).
    + rewrite (IH (filtered ++ [f]) Hfs), <- app_assoc. reflexivity.
    + now apply IH.
Qed.

Lemma forEach_push_throws (fs : list Feature) :
  forall filtered,
    Exists (fun f => geometry f = None) fs ->
    forEach_push fs filtered = Throws TypeError.
Proof.
  induction fs as [|f fs IH]; intros filtered Hex; [inversion Hex|].
  cbn [forEach_push]. unfold pushed.
  destruct (geometry f) as [g|] eqn:Hg; [|reflexivity].
  inversion Hex as [? ? Hnone|? ? Hrest]; subst; [congruence|].
  destruct (match first_coords g with Some _ => _ | None => _ end); now apply IH.
Qed.

(** What a feature that starts in London looks like. *)
Lemma startsInLondon_spec (feature : Feature) :
  startsInLondon feature = true <->
  exists g coords lng lat,
    geometry feature = Some g /\ first_coords g = Some coords /\
    nth_error coords 0 = Some lng /\ nth_error coords 1 = Some lat /\
    (- 0.5 <= lng <= 0.5)%R /\ (51.2 <= lat <= 51.8)%R.
Proof.
  unfold startsInLondon, isInLondon. cbn [minLng maxLng minLat maxLat LONDON_BOUNDS].
  destruct (geometry feature) as [g|].
  - destruct (first_coords g) as [coords|] eqn:Hc.
    + rewrite andb_true_iff, !within_spec. split.
      * intros [(lng & Hlng & Hb1) (lat & Hlat & Hb2)]. exists g, coords, lng, lat.
        repeat (split; [assumption || reflexivity|]). assumption.
      * intros (g' & coords' & lng & lat & Hg & Hc' & Hlng & Hlat & Hb1 & Hb2).
        injection Hg as <-. rewrite Hc in Hc'. injection Hc' as <-.
        split; eauto.
    + split; [discriminate|].
      intros (g' & coords' & lng & lat & Hg & Hc' & _).
      injection Hg as <-. congruence.
  - split; [discriminate|]. intros (g' & coords' & lng & lat & H & _). discriminate.
Qed.

(** *** The geographic step of reloadPOI *)

Lemma filterM_spec {A : Type} (f : A -> completion bool) (p : A -> bool) (l : list A) :
  Forall (fun x => f x = Returns (p x)) l -> filterM f l = Returns (filter p l).
Proof.
  induction 1 as [|x l Hx _ IH]; cbn [filterM filter]; [reflexivity|].
  now rewrite Hx, IH.
Qed.

Lemma geoFilter_inside (fs : list Feature) :
  Forall (fun f => geometry f <> None) fs ->
  geoFilterFeatures "inside" fs = Returns (filter (pointIn parkBounds) fs).
Proof.
  intros Hall. unfold geoFilterFeatures. cbn [getFilterBounds String.eqb Ascii.eqb Bool.eqb].
  apply filterM_spec. eapply Forall_impl; [|exact Hall].
  intros f Hf. unfold getFeatureCoords, pointIn.
  destruct (geometry f) as [[c|c|c|]|] eqn:Hg; try reflexivity. congruence.
Qed.

Lemma geoFilter_outside (fs : list Feature) :
  Forall (fun f => geometry f <> None) fs ->
  geoFilterFeatures "outside" fs = Returns (filter (pointNotIn outsideBounds) fs).
Proof.
  intros Hall. unfold geoFilterFeatures. cbn [getFilterBounds String.eqb Ascii.eqb Bool.eqb].
  apply filterM_spec. eapply Forall_impl; [|exact Hall].
  intros f Hf. unfold getFeatureCoords, pointNotIn.
  destruct (geometry f) as [[c|c|c|]|] eqn:Hg; try reflexivity. congruence.
Qed.

(** A point in the park is not within the bounds that the ['outside']
    branch tests against. *)
Lemma park_is_outside (feature : Feature) :
  pointIn parkBounds feature = true -> pointNotIn outsideBounds feature = true.
Proof.
  unfold pointIn, pointNotIn, isInBounds.
  destruct (geometry feature) as [[c|c|c|]|]; try discriminate.
  cbn [minLng maxLng minLat maxLat parkBounds outsideBounds].
  rewrite andb_true_iff, negb_true_iff, !within_spec.
  intros [(lng & Hlng & Hb) _]. rewrite Hlng. cbn [within].
  assert (E : Rleb 142.35 lng = false).
  { destruct (Rleb 142.35 lng) eqn:E; [|reflexivity]. apply Rleb_le in E. lra. }
  now rewrite E.
Qed.

Lemma geoFilter_inside_outside (fs : list Feature) :
  Forall (fun f => geometry f <> None) fs ->
  exists inside outside,
    geoFilterFeatures "inside" fs = Returns inside /\
    geoFilterFeatures "outside" fs = Returns outside /\
    (forall f, In f inside <-> In f fs /\ pointIn parkBounds f = true) /\
    (forall f, In f outside <-> In f fs /\ pointNotIn outsideBounds f = true) /\
    incl inside outside.
Proof.
  intros Hall. eexists. eexists.
  split; [now apply geoFilter_inside|]. split; [now apply geoFilter_outside|].
  split; [intros f; apply filter_In|]. split; [intros f; apply filter_In|].
  intros f Hf. apply filter_In in Hf. apply filter_In.
  split; [tauto|]. now apply park_is_outside.
Qed.

(** *** limitFeatures *)

Section Limit.
Context {A : Type}.
Variable toilet : A -> bool.
Variable entrance : A -> bool.


Lemma firstn_incl (n : nat) (l : list A) : incl (firstn n l) l.
Proof.
  intros x Hx. rewrite <- (firstn_skipn n l). apply in_or_app. now left.
Qed.

(** The comparator orders by [priority]. *)
Lemma byPriority_priority (a b : A) :
  Scorer.Qltb (byPriority toilet entrance a b) 0 = true <->
  (priority toilet entrance a < priority toilet entrance b)%nat.
Proof.
  unfold Layers.byPriority, Layers.priority.
  destruct (toilet a), (toilet b), (entrance a), (entrance b); cbn;
    split; intros H; try discriminate; try lia; reflexivity.
Qed.

Lemma sort_insert_priority (x : A) (sorted : list A) :
  StronglySorted (inOrder toilet entrance) sorted ->
  StronglySorted (inOrder toilet entrance)
    (Scorer.sort_insert (byPriority toilet entrance) x sorted).
Proof.
  induction 1 as [|y rest Hrest IH Hy]; cbn [Scorer.sort_insert].
  - constructor; constructor.
  - destruct (Scorer.Qltb (byPriority toilet entrance x y) 0) eqn:E.
    + apply byPriority_priority in E.
      constructor; [now constructor|].
      constructor; [unfold inOrder; lia|]. eapply Forall_impl; [|exact Hy].
      unfold inOrder. intros z Hz. lia.
    + constructor; [exact IH|].
      apply Permutation_Forall with (x :: rest).
      * symmetry. apply ScorerFacts.sort_insert_perm.
      * constructor; [|exact Hy]. unfold inOrder.
        destruct (Nat.le_gt_cases (priority toilet entrance y) (priority toilet entrance x))
          as [Hle|Hgt]; [exact Hle|].
        apply byPriority_priority in Hgt. congruence.
Qed.

Lemma sort_fold_priority (todo : list A) :
  forall acc,
    StronglySorted (inOrder toilet entrance) acc ->
    StronglySorted (inOrder toilet entrance)
      (fold_left (fun sorted x => Scorer.sort_insert (byPriority toilet entrance) x sorted) todo acc).
Proof.
  induction todo as [|x todo IH]; intros acc Hacc; cbn [fold_left]; [exact Hacc|].
  apply IH. now apply sort_insert_priority.
Qed.

Lemma Array_sort_priority (l : list A) :
  StronglySorted (inOrder toilet entrance) (Scorer.Array_sort (byPriority toilet entrance) l).
Proof. unfold Scorer.Array_sort. apply sort_fold_priority. constructor. Qed.

Lemma sorted_app_cross (R : A -> A -> Prop) (l1 l2 : list A) :
  StronglySorted R (l1 ++ l2) -> forall x y, In x l1 -> In y l2 -> R x y.
Proof.
  induction l1 as [|z l1 IH]; intros Hs x y Hx Hy; [destruct Hx|].
  cbn [app] in Hs. inversion Hs as [|? ? Hrest Hz]; subst.
  destruct Hx as [<-|Hx].
  - rewrite Forall_forall in Hz. apply Hz. apply in_or_app. now right.
  - now apply IH.
Qed.

Lemma limitFeatures_length (features_ : list A) (maxCount : nat) :
  List.length (limitFeatures toilet entrance features_ maxCount) = Nat.min maxCount (List.length features_).
Proof.
  unfold Layers.limitFeatures.
  destruct (List.length features_ <=? maxCount)%nat eqn:E.
  - apply Nat.leb_le in E. lia.
  - rewrite length_firstn.
    now rewrite (Permutation_length (ScorerFacts.Array_sort_perm (byPriority toilet entrance) features_)).
Qed.

Lemma limitFeatures_short (features_ : list A) (maxCount : nat) :
  (List.length features_ <= maxCount)%nat -> limitFeatures toilet entrance features_ maxCount = features_.
Proof.
  intros H. unfold Layers.limitFeatures. apply Nat.leb_le in H. now rewrite H.
Qed.

Lemma limitFeatures_incl (features_ : list A) (maxCount : nat) :
  incl (limitFeatures toilet entrance features_ maxCount) features_.
Proof.
  unfold Layers.limitFeatures. destruct (List.length features_ <=? maxCount)%nat.
  - apply incl_refl.
  - intros x Hx. apply firstn_incl in Hx.
    eapply Permutation_in; [apply ScorerFacts.Array_sort_perm|exact Hx].
Qed.

(** A feature that is cut never ranks before one that is kept. *)
Lemma limitFeatures_keeps_the_first (features_ : list A) (maxCount : nat) (a b : A) :
  In a (limitFeatures toilet entrance features_ maxCount) ->
  In b features_ ->
  (priority toilet entrance b < priority toilet entrance a)%nat ->
  In b (limitFeatures toilet entrance features_ maxCount).
Proof.
  unfold Layers.limitFeatures. destruct (List.length features_ <=? maxCount)%nat.
  - auto.
  - intros Ha Hb Hlt.
    set (sorted := Scorer.Array_sort (byPriority toilet entrance) features_) in *.
    assert (Hin : In b sorted).
    { eapply Permutation_in; [symmetry; apply ScorerFacts.Array_sort_perm|exact Hb]. }
    rewrite <- (firstn_skipn maxCount sorted) in Hin.
    apply in_app_or in Hin. destruct Hin as [Hin|Hin]; [exact Hin|].
    assert (Hs : StronglySorted (inOrder toilet entrance)
                   (firstn maxCount sorted ++ skipn maxCount sorted)).
    { rewrite firstn_skipn. apply Array_sort_priority. }
    pose proof (@sorted_app_cross _ _ _ Hs a b Ha Hin) as Hle. unfold inOrder in Hle. lia.
Qed.

Lemma limitFeatures_toilets_first (features_ : list A) (maxCount : nat) (a b : A) :
  In a (limitFeatures toilet entrance features_ maxCount) -> toilet a = false ->
  In b features_ -> toilet b = true ->
  In b (limitFeatures toilet entrance features_ maxCount).
Proof.
  intros Ha Hta Hb Htb. apply (@limitFeatures_keeps_the_first features_ maxCount a b Ha Hb).
  unfold Layers.priority. rewrite Hta, Htb. destruct (entrance a), (entrance b); cbn; lia.
Qed.

End Limit.

End LayersFacts.

(** ** The weights in binary64 *)

Module Scorer64Facts.
Import Scorer64.

(** Only the four flags of the preferences are read. *)
Lemma adjustWeights64_flags (p : Scorer.Preferences) :
  adjustWeights (Some p) =
  adjustWeights (Some (Scorer.flags (Scorer.prioritizeWildlife p) (Scorer.weatherSensitive p)
                                    (Scorer.facilityDependent p)
                                    (Scorer.prioritizePathQuality p))).
Proof. reflexivity. Qed.

(** The weights other than the path weight stay in [[0, 1]]. *)
Lemma adjustWeights_unit (p : Scorer.Preferences) :
  unitWeight (environment (adjustWeights (Some p))) /\
  unitWeight (wildlife (adjustWeights (Some p))) /\
  unitWeight (facility (adjustWeights (Some p))) /\
  unitWeight (personal (adjustWeights (Some p))).
Proof.
  rewrite adjustWeights64_flags.
  destruct (Scorer.prioritizeWildlife p), (Scorer.weatherSensitive p),
    (Scorer.facilityDependent p), (Scorer.prioritizePathQuality p);
    vm_compute; repeat split.
Qed.

(** The path weight is negative exactly when [weatherSensitive] and
    [facilityDependent] are set and [prioritizePathQuality] is not, and
    in [[0, 1]] otherwise. *)
Lemma adjustWeights_path (p : Scorer.Preferences) :
  (Double.lt (path (adjustWeights (Some p))) PrimFloat.zero <->
   Scorer.weatherSensitive p = true /\ Scorer.facilityDependent p = true /\
   Scorer.prioritizePathQuality p = false) /\
  (unitWeight (path (adjustWeights (Some p))) \/
   Double.lt (path (adjustWeights (Some p))) PrimFloat.zero).
Proof.
  rewrite adjustWeights64_flags.
  destruct (Scorer.prioritizeWildlife p), (Scorer.weatherSensitive p),
    (Scorer.facilityDependent p), (Scorer.prioritizePathQuality p);
    vm_compute; intuition discriminate.
Qed.

(** The sum of the five weights is 1 up to the rounding of the additions:
    within 2^-52 of it, whether the doubles are added up exactly or in
    binary64. *)
Lemma adjustWeights_sum (preferences : option Scorer.Preferences) :
  (- (1 # 4503599627370496) <= exactSum (adjustWeights preferences) - 1
   <= 1 # 4503599627370496)%Q /\
  (- (1 # 4503599627370496) <= Double.toQ (addedUp (adjustWeights preferences)) - 1
   <= 1 # 4503599627370496)%Q.
Proof.
  destruct preferences as [p|]; [rewrite adjustWeights64_flags|].
  - destruct (Scorer.prioritizeWildlife p), (Scorer.weatherSensitive p),
      (Scorer.facilityDependent p), (Scorer.prioritizePathQuality p);
      vm_compute; repeat split; discriminate.
  - vm_compute; repeat split; discriminate.
Qed.

End Scorer64Facts.

(** ** The search and the distances in binary64 *)

Module DoubleFacts.
Import PrimFloat Scenarios64.
#[local] Set Warnings "-inexact-float".
Local Open Scope string_scope.
Local Open Scope float_scope.

(** On doubles the search compares rounded sums: in [roundingGraph] it
    returns the walk over [b], whose weight 2^53 + 1 is rounded to 2^53,
    the weight of the walk over [c]. *)
Lemma dijkstra_compares_rounded_sums :
  TrailMap.dijkstra ltb add 0 (Some roundingGraph) "a" "d" =
    Returns (Some ["a"; "b"; "d"]) /\
  0 + 9007199254740992 + 1 = 0 + 9007199254740992 + 0.
Proof. split; vm_compute; reflexivity. Qed.

End DoubleFacts.

(** * The claims *)

Import JsMap Scenarios Scorer.
Import Lqa.
Local Open Scope string_scope.
Local Open Scope list_scope.
Local Open Scope Q_scope.

(** C1, as stated, fails: on the two-node trail, with start and end both
    [node_0] (a node of the graph), [dijkstra] returns [null], not the
    single-element path. *)
Lemma C1_same_endpoints_counterexample :
  map_has "node_0" (TrailMap.nodes two_node_graph) = true /\
  ParkMap.dijkstra (Some two_node_graph) "node_0" "node_0" = Returns None /\
  ParkMap.dijkstra (Some two_node_graph) "node_0" "node_0" <> Returns (Some ["node_0"]).
Proof.
  split; [reflexivity|]. split; [vm_compute; reflexivity|].
  vm_compute. discriminate.
Qed.

(** C1 (amended): for every graph and every node id [s], [dijkstra(s, s)]
    returns [null], the "no path" result: the walk back from the target
    yields the one-element path [[s]], which the [path.length > 1] guard
    turns into [null]. *)
Theorem C1_dijkstra_same_endpoints_returns_null :
  forall (trailGraph : option ParkMap.Graph) (s : string),
    ParkMap.dijkstra trailGraph s s = Returns None.
Proof.
  intros trailGraph s. unfold ParkMap.dijkstra.
  apply TrailMapFacts.dijkstra_same_endpoints.
Qed.

(** C2 (the code departs from the claim): two routes with the same total
    score, one starting where the user stands and one about 1112 m away.
    The claim ranks the nearer route first; [recommendRoutes] returns the
    farther one first, whatever the order of the input, because the
    comparator returns [a.distanceScore - b.distanceScore] and so sorts
    near ties by ascending distance score. *)
Theorem C2_farther_route_is_ranked_first :
  let nearScored := scoredFrom nearRoute {| lat := 51.5; lng := - 0.13 |} in
  let farScored := scoredFrom farRoute {| lat := 51.51; lng := - 0.13 |} in
  recommendRoutes flat_distance morning [nearRoute; farRoute] noFilters
    (Some userLocation0) noPreferences = Returns [farScored; nearScored] /\
  recommendRoutes flat_distance morning [farRoute; nearRoute] noFilters
    (Some userLocation0) noPreferences = Returns [farScored; nearScored] /\
  score farScored == score nearScored /\
  distanceFromUser nearScored = Some (flat_distance userLocation0 userLocation0) /\
  flat_distance userLocation0 userLocation0 == 0 /\
  distanceScore nearScored == 1 /\
  distanceScore farScored == 0.77761.
Proof.
  cbv zeta. repeat match goal with |- _ /\ _ => split end; vm_compute; reflexivity.
Qed.

Section WeightsInBinary64.
Import PrimFloat.
#[local] Set Warnings "-inexact-float".

(** C3, as stated, fails: with [weatherSensitive] and [facilityDependent]
    set, the path weight is [0.15 - 0.1 - 0.1], which the code computes
    in binary64 as -0.05000000000000002, below 0. *)
Lemma C3_negative_path_weight_counterexample :
  Scorer64.path (Scorer64.adjustWeights (Some (flags false true true false))) =
    (-0.05000000000000002)%float /\
  Double.lt (Scorer64.path (Scorer64.adjustWeights (Some (flags false true true false)))) 0 /\
  ~ Scorer64.unitWeight
      (Scorer64.path (Scorer64.adjustWeights (Some (flags false true true false)))).
Proof.
  split; [vm_compute; reflexivity|]. split; [vm_compute; reflexivity|].
  intros [H _]. vm_compute in H. discriminate.
Qed.

(** C3 (amended): for every preferences object the environment, wildlife,
    facility and personal weights that the code returns lie in [0,1]; the
    path weight lies in [0,1] as well, unless [weatherSensitive] and
    [facilityDependent] are set and [prioritizePathQuality] is not: it is
    negative then, and only then.  The weights are the doubles that the
    code computes. *)
Theorem C3_adjustWeights_ranges :
  forall preferences : Preferences,
    let w := Scorer64.adjustWeights (Some preferences) in
    Scorer64.unitWeight (Scorer64.environment w) /\
    Scorer64.unitWeight (Scorer64.wildlife w) /\
    Scorer64.unitWeight (Scorer64.facility w) /\
    Scorer64.unitWeight (Scorer64.personal w) /\
    (Scorer64.unitWeight (Scorer64.path w) \/ Double.lt (Scorer64.path w) 0) /\
    (Double.lt (Scorer64.path w) 0 <->
     weatherSensitive preferences = true /\ facilityDependent preferences = true /\
     prioritizePathQuality preferences = false).
Proof.
  intros preferences w. subst w.
  destruct (Scorer64Facts.adjustWeights_unit preferences) as (He & Hw & Hf & Hp).
  destruct (Scorer64Facts.adjustWeights_path preferences) as [Hneg Hpath].
  split; [exact He|]. split; [exact Hw|]. split; [exact Hf|]. split; [exact Hp|].
  split; [exact Hpath|exact Hneg].
Qed.

End WeightsInBinary64.

(** C4, as stated, fails: a line of a single coordinate raises nothing;
    the builder returns a graph with one isolated node. *)
Lemma C4_short_line_counterexample :
  ParkMap.buildTrailGraph [ParkMap.lineString [(1, 2)%R]] =
  Returns {| TrailMap.nodes :=
               [ ("node_0", {| TrailMap.id := "node_0"; TrailMap.latlng := (2, 1)%R;
                               TrailMap.adj := [] |}) ];
             TrailMap.edges := [] |}.
Proof. reflexivity. Qed.

(** C4 (amended): the builder raises no error for short lines.  On every
    input whose features all carry a geometry it returns a graph; a line
    of [n] coordinates contributes [n] nodes and [n - 1] edges, so a line
    with no coordinate contributes nothing and a line with one coordinate
    an isolated node. *)
Theorem C4_buildTrailGraph_accepts_short_lines :
  forall fs : list ParkMap.Feature,
    Forall (fun f => TrailMap.geometry f <> None) fs ->
    exists g,
      ParkMap.buildTrailGraph fs = Returns g /\
      map_size (TrailMap.nodes g) =
        list_sum (map (fun f => List.length (TrailMap.line_coords f)) fs) /\
      List.length (TrailMap.edges g) =
        list_sum (map (fun f => (List.length (TrailMap.line_coords f) - 1)%nat) fs).
Proof.
  intros fs Hall.
  destruct (TrailMapFacts.buildTrailGraph_spec Geo.haversine Hall) as (g & Hg & Hn & He & _).
  exists g. auto.
Qed.

Lemma C4_short_lines_witness :
  Forall (fun f : ParkMap.Feature => TrailMap.geometry f <> None)
    [ParkMap.lineString [(1, 2)%R]; ParkMap.lineString []] /\
  exists g,
    ParkMap.buildTrailGraph [ParkMap.lineString [(1, 2)%R]; ParkMap.lineString []] = Returns g /\
    map_size (TrailMap.nodes g) = 1%nat /\
    List.length (TrailMap.edges g) = 0%nat.
Proof.
  assert (H : Forall (fun f : ParkMap.Feature => TrailMap.geometry f <> None)
                [ParkMap.lineString [(1, 2)%R]; ParkMap.lineString []])
    by (repeat constructor; simpl; discriminate).
  split; [exact H|].
  exact (C4_buildTrailGraph_accepts_short_lines H).
Defined.





(** C6: on [K] lines with [n_1 .. n_K] coordinates, each at least 2,
    [buildTrailGraph] returns a graph with [n_1 + .. + n_K] nodes and
    [(n_1 - 1) + .. + (n_K - 1)] edges, in which both endpoints of every
    edge are nodes and each endpoint lists the other in its adjacency with
    the weight of the edge. *)
Theorem C6_buildTrailGraph_counts_and_symmetry :
  forall lines : list (list (R * R)),
    Forall (fun coords => (2 <= List.length coords)%nat) lines ->
    exists g,
      ParkMap.buildTrailGraph (map ParkMap.lineString lines) = Returns g /\
      map_size (TrailMap.nodes g) = list_sum (map (@List.length _) lines) /\
      List.length (TrailMap.edges g) =
        list_sum (map (fun coords => (List.length coords - 1)%nat) lines) /\
      forall e, In e (TrailMap.edges g) ->
        exists a b,
          map_get (TrailMap.from e) (TrailMap.nodes g) = Some a /\
          map_get (TrailMap.to e) (TrailMap.nodes g) = Some b /\
          map_get (TrailMap.to e) (TrailMap.adj a) = Some (TrailMap.weight e) /\
          map_get (TrailMap.from e) (TrailMap.adj b) = Some (TrailMap.weight e).
Proof.
  intros lines _.
  assert (Hall : Forall (@TrailMap.has_geometry R) (map ParkMap.lineString lines)).
  { apply Forall_forall. intros f Hin. apply in_map_iff in Hin.
    destruct Hin as (coords & <- & _). unfold TrailMap.has_geometry. simpl. discriminate. }
  destruct (TrailMapFacts.buildTrailGraph_spec Geo.haversine Hall) as (g & Hg & Hn & He & Hm).
  exists g. rewrite map_map in Hn, He. repeat split; assumption.
Qed.

Lemma C6_two_lines_witness :
  Forall (fun coords : list (R * R) => (2 <= List.length coords)%nat)
    [[(0, 0); (1, 1); (2, 2)]; [(5, 5); (6, 6)]]%R /\
  exists g,
    ParkMap.buildTrailGraph
      (map ParkMap.lineString [[(0, 0); (1, 1); (2, 2)]; [(5, 5); (6, 6)]]%R) = Returns g /\
    map_size (TrailMap.nodes g) = 5%nat /\
    List.length (TrailMap.edges g) = 3%nat /\
    forall e, In e (TrailMap.edges g) ->
      exists a b,
        map_get (TrailMap.from e) (TrailMap.nodes g) = Some a /\
        map_get (TrailMap.to e) (TrailMap.nodes g) = Some b /\
        map_get (TrailMap.to e) (TrailMap.adj a) = Some (TrailMap.weight e) /\
        map_get (TrailMap.from e) (TrailMap.adj b) = Some (TrailMap.weight e).
Proof.
  assert (H : Forall (fun coords : list (R * R) => (2 <= List.length coords)%nat)
                [[(0, 0); (1, 1); (2, 2)]; [(5, 5); (6, 6)]]%R)
    by (repeat constructor; simpl; lia).
  split; [exact H|].
  exact (C6_buildTrailGraph_counts_and_symmetry H).
Defined.

(** C7: when the two top-ranked routes are similar (relative distance
    difference below 0.20 and theme overlap above 0.60), the second
    result is the first route further down the ranked list that is not
    similar to the top pick; when every further route is similar to the
    top pick, the two top-ranked routes are returned as they are. *)
Theorem C7_similar_second_pick_is_replaced :
  forall (calculateDistance : LatLng -> LatLng -> Q) (now : Date) (allRoutes : list Route)
         (userFilters : Filters) (userLocation : option LatLng) (userProfile : Preferences)
         (top0 top1 : ScoredRoute) (rest : list ScoredRoute),
    sortedRoutes calculateDistance now allRoutes userFilters userLocation userProfile =
      Returns (top0 :: top1 :: rest) ->
    Similar (route_of top0) (route_of top1) ->
    (forall skipped c after,
        rest = skipped ++ c :: after ->
        Forall (fun r => Similar (route_of top0) (route_of r)) skipped ->
        ~ Similar (route_of top0) (route_of c) ->
        recommendRoutes calculateDistance now allRoutes userFilters userLocation userProfile =
          Returns [top0; c]) /\
    (Forall (fun r => Similar (route_of top0) (route_of r)) rest ->
     recommendRoutes calculateDistance now allRoutes userFilters userLocation userProfile =
       Returns [top0; top1]).
Proof.
  intros cd now allRoutes userFilters userLocation userProfile top0 top1 rest Hsorted Hsim.
  assert (Hrec : recommendRoutes cd now allRoutes userFilters userLocation userProfile =
                 Returns (diversify (top0 :: top1 :: rest))).
  { unfold recommendRoutes. rewrite Hsorted.
    destruct (eligibleRoutes allRoutes userFilters) eqn:E; [|reflexivity].
    unfold sortedRoutes in Hsorted. rewrite E in Hsorted. discriminate. }
  rewrite Hrec. unfold diversify. cbn [firstn skipn].
  apply ScorerFacts.areRoutesSimilar_Similar in Hsim. rewrite Hsim. split.
  - intros skipped c after Hrest Hskipped Hc.
    assert (Hfind : find_dissimilar top0 rest = Some c)
      by (apply ScorerFacts.find_dissimilar_some; eauto).
    now rewrite Hfind.
  - intros Hall. apply ScorerFacts.find_dissimilar_none in Hall. now rewrite Hall.
Qed.

(** Three lakeside routes outrank the hill route; the two best differ by
    60 m in 1260 (under 5%) and share 4 of 5 themes (80%), the third is
    similar to the best one too, so the hill route becomes the second
    pick. *)
Lemma C7_lakeside_witness :
  sortedRoutes flat_distance morning [hillRoute; lakeA; lakeB; lakeC] noFilters None
    noPreferences =
    Returns (scoredNowhere lakeA :: scoredNowhere lakeB ::
             [scoredNowhere lakeC] ++ scoredNowhere hillRoute :: []) /\
  Similar lakeA lakeB /\
  Forall (fun r => Similar lakeA (route_of r)) [scoredNowhere lakeC] /\
  ~ Similar lakeA hillRoute /\
  recommendRoutes flat_distance morning [hillRoute; lakeA; lakeB; lakeC] noFilters None
    noPreferences = Returns [scoredNowhere lakeA; scoredNowhere hillRoute].
Proof.
  assert (Hsorted :
            sortedRoutes flat_distance morning [hillRoute; lakeA; lakeB; lakeC] noFilters None
              noPreferences =
            Returns (scoredNowhere lakeA :: scoredNowhere lakeB ::
                     [scoredNowhere lakeC] ++ scoredNowhere hillRoute :: []))
    by (vm_compute; reflexivity).
  assert (Hab : Similar lakeA lakeB)
    by (apply ScorerFacts.areRoutesSimilar_Similar; vm_compute; reflexivity).
  assert (Hac : Forall (fun r => Similar lakeA (route_of r)) [scoredNowhere lakeC])
    by (repeat constructor; apply ScorerFacts.areRoutesSimilar_Similar; vm_compute; reflexivity).
  assert (Hah : ~ Similar lakeA hillRoute)
    by (apply ScorerFacts.areRoutesSimilar_not_Similar; vm_compute; reflexivity).
  split; [exact Hsorted|]. split; [exact Hab|]. split; [exact Hac|]. split; [exact Hah|].
  exact (proj1 (C7_similar_second_pick_is_replaced flat_distance morning
                  [hillRoute; lakeA; lakeB; lakeC] noFilters None noPreferences Hsorted Hab)
           [scoredNowhere lakeC] (scoredNowhere hillRoute) [] eq_refl Hac Hah).
Defined.

(** C8, as stated, fails: a limit of 0 is a present constraint, and the
    code ignores it.  With the filters [{maxDistance: 0}] the 1200 m
    route, whose distance lies outside every range that ends at 0, is
    recommended. *)
Lemma C8_zero_limit_counterexample :
  maxDistance zeroLimit = Some 0 /\ distance nearRoute = Some 1200 /\ 0 < 1200 /\
  recommendRoutes flat_distance morning [nearRoute] zeroLimit None noPreferences =
    Returns [scoredNowhere nearRoute].
Proof.
  split; [reflexivity|]. split; [reflexivity|]. split; [reflexivity|].
  vm_compute. reflexivity.
Qed.

(** C8 (amended): a constraint counts when the value of its filter is
    truthy: a [maxDistance], [minDistance] or [maxDuration] of 0, an
    empty [difficulty] and a false [accessible] constrain nothing, as in
    [filters.maxDistance && ...].  Whatever the routes and the filters, a
    returned recommendation holds at most 2 routes, each of them one of
    the given routes that violates no such constraint (distance within
    [minDistance, maxDistance], estimatedTime at most maxDuration, the
    required difficulty, accessible when required); when no route
    respects the filters the empty list is returned.  The call returns
    whenever no user location is given or every eligible route has a
    start point. *)
Theorem C8_recommendRoutes_filtered_top2 :
  forall (calculateDistance : LatLng -> LatLng -> Q) (now : Date) (allRoutes : list Route)
         (userFilters : Filters) (userLocation : option LatLng) (userProfile : Preferences),
    (forall result,
        recommendRoutes calculateDistance now allRoutes userFilters userLocation userProfile =
          Returns result ->
        (List.length result <= 2)%nat /\
        forall r, In r result ->
                  In (route_of r) allRoutes /\ respects (route_of r) userFilters) /\
    (Forall (fun route => ~ respects route userFilters) allRoutes ->
     recommendRoutes calculateDistance now allRoutes userFilters userLocation userProfile =
       Returns []) /\
    (userLocation = None \/
     Forall (fun route => respects route userFilters -> startPoint route <> None)
            allRoutes ->
     exists result,
       recommendRoutes calculateDistance now allRoutes userFilters userLocation userProfile =
         Returns result).
Proof.
  intros cd now allRoutes userFilters userLocation userProfile. split; [|split].
  - intros result. unfold recommendRoutes.
    destruct (eligibleRoutes allRoutes userFilters) as [|r0 rs] eqn:E.
    + intros [= <-]. split; [simpl; lia|intros r []].
    + destruct (sortedRoutes cd now allRoutes userFilters userLocation userProfile)
        as [sorted| |] eqn:Hsorted; try discriminate.
      intros [= <-]. split; [apply ScorerFacts.diversify_length|].
      intros r Hin. apply ScorerFacts.diversify_incl in Hin.
      apply ScorerFacts.sortedRoutes_routes in Hsorted.
      apply (ScorerFacts.eligible_respects allRoutes userFilters).
      apply (Permutation_in _ Hsorted). now apply in_map.
  - intros Hnone. unfold recommendRoutes.
    destruct (eligibleRoutes allRoutes userFilters) as [|r0 rs] eqn:E; [reflexivity|].
    exfalso.
    assert (Hin : In r0 (eligibleRoutes allRoutes userFilters)) by (rewrite E; now left).
    apply ScorerFacts.eligible_respects in Hin. destruct Hin as [Hin Hok].
    rewrite Forall_forall in Hnone. exact (Hnone r0 Hin Hok).
  - intros Hstart. unfold recommendRoutes.
    destruct (eligibleRoutes allRoutes userFilters) as [|r0 rs] eqn:E; [eauto|].
    unfold sortedRoutes.
    edestruct (ScorerFacts.mapM_scoreOne_returns cd now) as [scored Hscored];
      [|rewrite Hscored; eauto].
    destruct Hstart as [Hnone|Hall]; [now left|right].
    apply Forall_forall. intros route Hin.
    apply ScorerFacts.eligible_respects in Hin. destruct Hin as [Hin Hok].
    rewrite Forall_forall in Hall. now apply Hall.
Qed.

Section SumInBinary64.
Import PrimFloat.
#[local] Set Warnings "-inexact-float".

(** C9, as stated, fails: with only [facilityDependent] set the code
    returns the path weight 0.04999999999999999, and the five weights
    make 0.9999999999999999 when they are added up in binary64, and not 1
    when the doubles are added up exactly either. *)
Lemma C9_rounded_sum_counterexample :
  Scorer64.path (Scorer64.adjustWeights (Some (flags false false true false))) =
    0.04999999999999999%float /\
  Scorer64.addedUp (Scorer64.adjustWeights (Some (flags false false true false))) =
    0.9999999999999999%float /\
  eqb (Scorer64.addedUp (Scorer64.adjustWeights (Some (flags false false true false)))) 1 =
    false /\
  ~ Qeq (Scorer64.exactSum (Scorer64.adjustWeights (Some (flags false false true false)))) 1.
Proof.
  split; [vm_compute; reflexivity|]. split; [vm_compute; reflexivity|].
  split; [vm_compute; reflexivity|]. intros H. vm_compute in H. discriminate.
Qed.

(** C9 (amended): the deltas of each flag cancel, so the sum of the five
    weights that the code returns is 1, the sum of the five default
    weights, up to the rounding of its additions in binary64: for every
    preferences object, and for a missing one, the five doubles add up
    to a number within 2^-52 of 1, whether they are added exactly or in
    binary64 in the order of the properties; the default weights add up
    to 1.0. *)
Theorem C9_adjustWeights_sum_within_rounding :
  forall preferences : option Preferences,
    let w := Scorer64.adjustWeights preferences in
    (- (1 # 4503599627370496) <= Scorer64.exactSum w - 1 <= 1 # 4503599627370496)%Q /\
    (- (1 # 4503599627370496) <= Double.toQ (Scorer64.addedUp w) - 1
     <= 1 # 4503599627370496)%Q /\
    Scorer64.addedUp Scorer64.defaultWeights = 1%float.
Proof.
  intros preferences w. subst w.
  destruct (Scorer64Facts.adjustWeights_sum preferences) as [Hexact Hadded].
  split; [exact Hexact|]. split; [exact Hadded|]. vm_compute. reflexivity.
Qed.

End SumInBinary64.

Section DistancesInBinary64.
Import PrimFloat Scenarios64.
#[local] Set Warnings "-inexact-float".

(** C10, as stated, fails: the two functions round differently.
    [haversine] converts the two latitudes to radians and subtracts,
    [calculateDistance] subtracts and converts the difference.  For two
    points in London a hundredth of a degree of latitude apart the two
    differences already differ, and so do the distances (here with
    series for the sine, the cosine and the arc tangent of the engine). *)
Lemma C10_last_digits_counterexample :
  Geo64.haversine_dlat southPoint northPoint = 0.00017453292519953312%float /\
  Geo64.calculateDistance_dphi southLatLng northLatLng = 0.00017453292519939824%float /\
  Geo64.haversine seriesSin seriesCos seriesAtan2 southPoint northPoint =
    1111.9492664462255%float /\
  Geo64.calculateDistance seriesSin seriesCos seriesAtan2 southLatLng northLatLng =
    1111.9492664453662%float /\
  eqb (Geo64.haversine seriesSin seriesCos seriesAtan2 southPoint northPoint)
      (Geo64.calculateDistance seriesSin seriesCos seriesAtan2 southLatLng northLatLng) =
    false.
Proof. repeat (split; [vm_compute; reflexivity|]). vm_compute. reflexivity. Qed.

End DistancesInBinary64.

(** C10 (amended): in real arithmetic, without the rounding of binary64,
    the map module's [haversine] on the arrays [[lat, lng]] and the
    scorer's [calculateDistance] on the objects [{lat, lng}] of the same
    two points return the same distance: both use the Earth radius
    6371000 m and the same haversine formula. *)
Theorem C10_haversine_agrees_with_calculateDistance :
  forall p1 p2 : R * R,
    Geo.haversine p1 p2 =
    Geo.calculateDistance (Geo.point_of_array p1) (Geo.point_of_array p2).
Proof.
  intros [lat1 lng1] [lat2 lng2]. apply GeoFacts.haversine_calculateDistance.
Qed.

(** * Further properties of the code *)

(** X1: [dijkstra] always returns, a path or [null]: its loop ends within
    as many iterations as there are nodes, the walk back along the
    predecessors ends, and no node outside the graph is read. *)
Theorem X1_dijkstra_always_returns :
  forall (trailGraph : option ParkMap.Graph) (startId endId : string),
    exists r, ParkMap.dijkstra trailGraph startId endId = Returns r.
Proof.
  intros trailGraph startId endId. unfold ParkMap.dijkstra.
  apply TrailMapFacts.dijkstra_returns.
Qed.

(** X2: on a graph without negative weights and without an empty node
    id, a path that [dijkstra] returns is a shortest walk: it leads from
    the start to the target along adjacency entries, and no walk between
    the two has a smaller total weight.  The weight of a walk is added up
    from the start with the addition that the search uses, so, with
    doubles, rounded at every step.  This holds in every ordered
    arithmetic: a total order that [<] decides and an addition that keeps
    the order and does not lower a sum when the weight added is not
    negative, as in real arithmetic and among the doubles from 0 on, as
    long as no sum overflows. *)
Theorem X2_dijkstra_returns_a_shortest_walk :
  forall (num : Type) (num_lt : num -> num -> bool) (num_add : num -> num -> num)
         (num_zero : num) (num_le : num -> num -> Prop),
    TrailMap.ordered_arithmetic num_lt num_add num_zero num_le ->
    forall (g : TrailMap.Graph num) (startId endId : string) (path : list string),
      TrailMap.no_negative_weight num_zero num_le g -> TrailMap.no_empty_id g ->
      TrailMap.dijkstra num_lt num_add num_zero (Some g) startId endId =
        Returns (Some path) ->
      exists t, TrailMap.walk num_add num_zero g startId endId path t /\
                forall path' t',
                  TrailMap.walk num_add num_zero g startId endId path' t' -> num_le t t'.
Proof.
  intros num num_lt num_add num_zero num_le Hord g startId endId path.
  now apply TrailMapFacts.dijkstra_least.
Qed.

(** In real arithmetic, on the two-node trail. *)
Lemma X2_two_node_witness :
  TrailMap.ordered_arithmetic ParkMap.Rltb Rplus 0%R Rle /\
  ParkMap.no_negative_weight two_node_graph /\ ParkMap.no_empty_id two_node_graph /\
  ParkMap.dijkstra (Some two_node_graph) "node_0" "node_1" =
    Returns (Some ["node_0"; "node_1"]) /\
  exists t, ParkMap.walk two_node_graph "node_0" "node_1" ["node_0"; "node_1"] t /\
            forall path' t',
              ParkMap.walk two_node_graph "node_0" "node_1" path' t' -> (t <= t')%R.
Proof.
  assert (H0 := ParkMapFacts.real_arithmetic_ordered).
  assert (H1 := ParkMapFacts.two_node_graph_no_negative_weight).
  assert (H2 : ParkMap.no_empty_id two_node_graph) by reflexivity.
  assert (H3 : ParkMap.dijkstra (Some two_node_graph) "node_0" "node_1" =
               Returns (Some ["node_0"; "node_1"])) by (vm_compute; reflexivity).
  split; [exact H0|]. split; [exact H1|]. split; [exact H2|]. split; [exact H3|].
  exact (@X2_dijkstra_returns_a_shortest_walk R ParkMap.Rltb Rplus 0%R Rle H0
           two_node_graph "node_0" "node_1" _ H1 H2 H3).
Defined.

(** X3: trail lines are never joined, not even where they share a
    coordinate: in the graph of a list of features, a search from a node
    of the first features to a node of the features after them, or back,
    returns [null]. *)
Theorem X3_trail_lines_never_join :
  forall (fs1 fs2 : list ParkMap.Feature) (g : ParkMap.Graph) (i j : nat),
    ParkMap.buildTrailGraph (fs1 ++ fs2) = Returns g ->
    (i < List.length (TrailMap.all_coords fs1))%nat ->
    (List.length (TrailMap.all_coords fs1) <= j)%nat ->
    ParkMap.dijkstra (Some g) (TrailMap.node_name i) (TrailMap.node_name j) = Returns None /\
    ParkMap.dijkstra (Some g) (TrailMap.node_name j) (TrailMap.node_name i) = Returns None.
Proof. intros fs1 fs2 g i j. apply ParkMapFacts.lines_never_join. Qed.

(** The last node of the first line and the first node of the second
    have the same position, and no path joins them. *)
Lemma X3_meeting_lines_witness :
  ParkMap.buildTrailGraph twoLines = Returns (graphOf twoLines) /\
  ParkMap.dijkstra (Some (graphOf twoLines)) "node_2" "node_3" = Returns None /\
  ParkMap.dijkstra (Some (graphOf twoLines)) "node_3" "node_2" = Returns None.
Proof.
  split; [exact ParkMapFacts.twoLines_built|].
  refine (@X3_trail_lines_never_join
            [ParkMap.lineString [(0, 0); (1, 1); (2, 2)]%R]
            [ParkMap.lineString [(2, 2); (3, 3)]%R]
            (graphOf twoLines) 2 3 ParkMapFacts.twoLines_built _ _);
    simpl; lia.
Defined.

(** X4: on a sunny day above 25 degrees the weather score depends neither
    on the precipitation nor on the shelter coverage of the route: the
    assignment of the sun branch replaces what the rain branch
    computed. *)
Theorem X4_heat_overrides_rain :
  forall (route : Route) (weatherData : Weather) (t : Q) (p c : option Q),
    temperature weatherData = Some t -> 25 < t ->
    orDefault (sunny weatherData) true = true ->
    calculateWeatherScore (withShelter route c) (withPrecipitation weatherData p) =
    calculateWeatherScore route weatherData.
Proof.
  intros route weatherData t p c. apply ScorerFacts.calculateWeatherScore_heat.
Qed.

Lemma X4_hot_day_witness :
  temperature hotWeather = Some 28 /\ 25 < 28 /\
  orDefault (sunny hotWeather) true = true /\
  calculateWeatherScore (withShelter exampleRoute None) (withPrecipitation hotWeather (Some 0)) =
  calculateWeatherScore exampleRoute hotWeather.
Proof.
  assert (H1 : temperature hotWeather = Some 28) by reflexivity.
  assert (H2 : 25 < 28) by reflexivity.
  assert (H3 : orDefault (sunny hotWeather) true = true) by reflexivity.
  split; [exact H1|]. split; [exact H2|]. split; [exact H3|].
  exact (@X4_heat_overrides_rain exampleRoute hotWeather 28 (Some 0) None H1 H2 H3).
Defined.

(** X5: no species is active before 6, from 11 to 14 and from 20 on: at
    those hours the time factor of the wildlife score is 0, whatever the
    sighting data of the route. *)
Theorem X5_no_wildlife_in_quiet_hours :
  forall (hour : nat) (wildlifeData_ : JsMap.t Q),
    (hour < 6 \/ 11 <= hour <= 14 \/ 20 <= hour)%nat ->
    getTimeBasedProbability hour wildlifeData_ == 0.
Proof. apply ScorerFacts.getTimeBasedProbability_quiet_hours. Qed.

Lemma X5_noon_witness :
  (12 < 6 \/ 11 <= 12 <= 14 \/ 20 <= 12)%nat /\
  getTimeBasedProbability 12 [("birds", 0.8)] == 0.
Proof.
  assert (H : (12 < 6 \/ 11 <= 12 <= 14 \/ 20 <= 12)%nat) by lia.
  split; [exact H|].
  exact (@X5_no_wildlife_in_quiet_hours 12%nat [("birds", 0.8)] H).
Defined.


(** X7: a score result carries at most three reasons, and none of them
    twice. *)
Theorem X7_at_most_three_distinct_reasons :
  forall (now : Date) (route : Route) (preferences : Preferences) (context : Context),
    NoDup (reasons (calculateScore now route preferences context)) /\
    (List.length (reasons (calculateScore now route preferences context)) <= 3)%nat.
Proof.
  intros now route preferences context. unfold calculateScore. cbn [reasons].
  apply ScorerFacts.generateReasons_NoDup.
Qed.

(** X8: the great-circle distance of the map module is symmetric, and the
    distance from a point to itself is 0 (in real arithmetic). *)
Theorem X8_haversine_symmetric_and_zero_on_itself :
  forall p1 p2 : R * R,
    Geo.haversine p1 p2 = Geo.haversine p2 p1 /\ Geo.haversine p1 p1 = 0%R.
Proof.
  intros p1 p2. split; [apply GeoFacts.haversine_sym|apply GeoFacts.haversine_same].
Qed.

(** X9: whatever the weights, a path that [dijkstra] returns is a walk of
    the graph: it starts at the start node, ends at the target, has at
    least two nodes, each of them a node of the graph, and leads from one
    to the next along an adjacency entry. *)
Theorem X9_dijkstra_path_is_a_walk :
  forall (g : ParkMap.Graph) (startId endId : string) (path : list string),
    ParkMap.dijkstra (Some g) startId endId = Returns (Some path) ->
    (exists t, ParkMap.walk g startId endId path t) /\
    hd_error path = Some startId /\ last path startId = endId /\
    (2 <= List.length path)%nat /\
    Forall (fun k => map_get k (TrailMap.nodes g) <> None) path.
Proof.
  intros g startId endId path Hrun. unfold ParkMap.dijkstra in Hrun.
  destruct (TrailMapFacts.dijkstra_result _ _ _ _ _ _ Hrun)
    as (st & _ & _ & _ & _ & x & _ & Hwalk).
  destruct (TrailMapFacts.walk_ends Hwalk) as [Hhd Hlast].
  split; [exists x; exact Hwalk|]. split; [exact Hhd|]. split; [exact Hlast|].
  split; [exact (TrailMapFacts.dijkstra_path_length _ _ _ _ _ _ Hrun)|].
  exact (TrailMapFacts.dijkstra_path_nodes _ _ _ _ _ _ Hrun).
Qed.

Lemma X9_two_node_witness :
  ParkMap.dijkstra (Some two_node_graph) "node_1" "node_0" =
    Returns (Some ["node_1"; "node_0"]) /\
  (exists t, ParkMap.walk two_node_graph "node_1" "node_0" ["node_1"; "node_0"] t) /\
  hd_error ["node_1"; "node_0"] = Some "node_1" /\
  last ["node_1"; "node_0"] "node_1" = "node_0" /\
  (2 <= List.length ["node_1"; "node_0"])%nat /\
  Forall (fun k => map_get k (TrailMap.nodes two_node_graph) <> None) ["node_1"; "node_0"].
Proof.
  assert (H : ParkMap.dijkstra (Some two_node_graph) "node_1" "node_0" =
              Returns (Some ["node_1"; "node_0"])) by (vm_compute; reflexivity).
  split; [exact H|].
  exact (@X9_dijkstra_path_is_a_walk two_node_graph "node_1" "node_0" _ H).
Defined.



(** X11: the nodes of the graph that [buildTrailGraph] returns are those
    of the coordinates of the lines, in order: the node of the [i]-th
    coordinate [[lng, lat]] is stored under [node_i], has that id and the
    position [[lat, lng]]; and every node object is stored under its own
    id. *)
Theorem X11_buildTrailGraph_nodes :
  forall (fs : list ParkMap.Feature) (g : ParkMap.Graph),
    ParkMap.buildTrailGraph fs = Returns g ->
    map_keys (TrailMap.nodes g) = TrailMap.names (List.length (TrailMap.all_coords fs)) /\
    (forall i c,
        nth_error (TrailMap.all_coords fs) i = Some c ->
        exists node,
          map_get (TrailMap.node_name i) (TrailMap.nodes g) = Some node /\
          TrailMap.id node = TrailMap.node_name i /\
          TrailMap.latlng node = (snd c, fst c)) /\
    (forall node,
        In node (map_values (TrailMap.nodes g)) ->
        map_get (TrailMap.id node) (TrailMap.nodes g) = Some node).
Proof.
  intros fs g Hbuild.
  destruct (TrailMapFacts.buildTrailGraph_charted _ _ Hbuild) as [Hch _].
  pose proof Hch as (Hk & Hn & _).
  split; [exact Hk|]. split; [exact Hn|].
  intros node Hin. exact (TrailMapFacts.charted_values Geo.haversine node Hch Hin).
Qed.

Lemma X11_two_lines_witness :
  ParkMap.buildTrailGraph twoLines = Returns (graphOf twoLines) /\
  map_keys (TrailMap.nodes (graphOf twoLines)) =
    ["node_0"; "node_1"; "node_2"; "node_3"; "node_4"].
Proof.
  split; [exact ParkMapFacts.twoLines_built|].
  exact (proj1 (@X11_buildTrailGraph_nodes twoLines (graphOf twoLines)
                  ParkMapFacts.twoLines_built)).
Defined.




(** X14: a great-circle distance lies between 0 and half the
    circumference of the Earth, [PI * 6371000] metres. *)
Theorem X14_haversine_range :
  forall p1 p2 : R * R, (0 <= Geo.haversine p1 p2 <= PI * 6371000)%R.
Proof. apply GeoFacts.haversine_range. Qed.

(** X15: the route distance is 0 for fewer than two points, and the legs
    are added in the order of the route, one addition a leg: a point
    appended to a route adds the distance of its leg to the total of the
    route before it.  This holds in every arithmetic, so for the rounded
    sums of doubles too (where, unlike in real arithmetic, the total may
    change in its last digits when the route is reversed or put together
    from the totals of two parts).  In real arithmetic the total is never
    negative. *)
Theorem X15_route_distance_adds_up :
  forall (num : Type) (haversine : num * num -> num * num -> num)
         (num_add : num -> num -> num) (num_zero : num)
         (coords : list (num * num)) (p q : num * num) (route : list (R * R)),
    TrailMap.calculateRouteDistance haversine num_add num_zero [] = num_zero /\
    TrailMap.calculateRouteDistance haversine num_add num_zero [p] = num_zero /\
    TrailMap.calculateRouteDistance haversine num_add num_zero (coords ++ [p; q]) =
      num_add (TrailMap.calculateRouteDistance haversine num_add num_zero (coords ++ [p]))
              (haversine p q) /\
    (0 <= ParkMap.calculateRouteDistance route)%R.
Proof.
  intros num haversine num_add num_zero coords p q route.
  split; [reflexivity|]. split; [reflexivity|].
  split; [apply TrailMapFacts.calculateRouteDistance_snoc|apply ParkMapFacts.distance_nonneg].
Qed.

(** X16: once both points are set, [planRoute] draws a route whatever the
    graph: it never throws, in particular every node of the path it gets
    from [dijkstra] is found in the graph. *)
Theorem X16_planRoute_always_draws_a_route :
  forall (trailGraph : option ParkMap.Graph) (startLatLng endLatLng : R * R),
    exists plan,
      ParkMap.planRoute trailGraph (Some startLatLng) (Some endLatLng) =
        Returns (Some plan).
Proof. apply ParkMapFacts.planRoute_returns. Qed.





(** X19: an optional number of a route that is 0 is scored as if it were
    absent: it takes the default ([x || d]).  A crowd density of 0 scores
    as 0.5, a gradient of 0 as 0.05, a safety of 0 as 0.8. *)
Theorem X19_zero_attribute_scores_as_missing :
  forall (now : Date) (route : Route) (preferences : Preferences) (context : Context),
    calculateScore now (withoutZeros route) preferences context =
    calculateScore now route preferences context.
Proof. apply ScorerFacts.calculateScore_withoutZeros. Qed.

(** X20: with a user location, [recommendRoutes] throws a [TypeError] as
    soon as one of the routes that pass the filters has no start
    point. *)
Theorem X20_recommendRoutes_throws_without_start_point :
  forall (calculateDistance : LatLng -> LatLng -> Q) (now : Date) (allRoutes : list Route)
         (userFilters : Filters) (userLocation : LatLng) (userProfile : Preferences),
    Exists (fun route => respects route userFilters /\ startPoint route = None) allRoutes ->
    recommendRoutes calculateDistance now allRoutes userFilters (Some userLocation)
      userProfile = Throws TypeError.
Proof.
  intros cd now allRoutes userFilters userLocation userProfile.
  apply ScorerFacts.recommendRoutes_throws.
Qed.

Lemma X20_lake_route_witness :
  Exists (fun route => respects route noFilters /\ startPoint route = None)
         [nearRoute; lakeA] /\
  recommendRoutes flat_distance morning [nearRoute; lakeA] noFilters (Some userLocation0)
    noPreferences = Throws TypeError.
Proof.
  assert (H : Exists (fun route => respects route noFilters /\ startPoint route = None)
                     [nearRoute; lakeA]).
  { apply Exists_cons_tl, Exists_cons_hd. split; [|reflexivity].
    apply ScorerFacts.meetsBasicCriteria_respects. reflexivity. }
  split; [exact H|].
  exact (@X20_recommendRoutes_throws_without_start_point flat_distance morning
           [nearRoute; lakeA] noFilters userLocation0 noPreferences H).
Defined.

(** X21: a recommendation holds two routes whenever at least two routes
    pass the filters, and all the routes that pass them otherwise. *)
Theorem X21_recommendRoutes_returns_two_when_it_can :
  forall (calculateDistance : LatLng -> LatLng -> Q) (now : Date) (allRoutes : list Route)
         (userFilters : Filters) (userLocation : option LatLng) (userProfile : Preferences)
         (result : list ScoredRoute),
    recommendRoutes calculateDistance now allRoutes userFilters userLocation userProfile =
      Returns result ->
    List.length result = Nat.min 2 (List.length (eligibleRoutes allRoutes userFilters)).
Proof.
  intros cd now allRoutes userFilters userLocation userProfile result.
  apply ScorerFacts.recommendRoutes_length.
Qed.

Lemma X21_three_lakes_witness :
  recommendRoutes flat_distance morning [hillRoute; lakeA; lakeB; lakeC] noFilters None
    noPreferences = Returns [scoredNowhere lakeA; scoredNowhere hillRoute] /\
  List.length [scoredNowhere lakeA; scoredNowhere hillRoute] =
    Nat.min 2 (List.length (eligibleRoutes [hillRoute; lakeA; lakeB; lakeC] noFilters)).
Proof.
  assert (H : recommendRoutes flat_distance morning [hillRoute; lakeA; lakeB; lakeC]
                noFilters None noPreferences =
              Returns [scoredNowhere lakeA; scoredNowhere hillRoute])
    by (vm_compute; reflexivity).
  split; [exact H|].
  exact (@X21_recommendRoutes_returns_two_when_it_can flat_distance morning
           [hillRoute; lakeA; lakeB; lakeC] noFilters None noPreferences _ H).
Defined.

(** X22: when the scores of the routes are pairwise more than 0.10
    apart, that is, for scores of two decimals, at least 0.11 apart, the
    comparator orders by score alone and the ranking is by strictly
    descending score.  (At a difference of 0.10 itself the subtraction of
    the code can fall inside the tie band: 0.6 - 0.5 is
    0.09999999999999998 in binary64.) *)
Theorem X22_ranking_is_by_score_outside_the_tie_band :
  forall scored : list ScoredRoute,
    ForallOrdPairs clearlyApart scored ->
    StronglySorted outscores (Array_sort compareRoutes scored).
Proof. apply ScorerFacts.Array_sort_clearlyApart. Qed.

Lemma X22_hill_and_lake_witness :
  ForallOrdPairs clearlyApart [scoredNowhere hillRoute; scoredNowhere lakeA] /\
  StronglySorted outscores
    (Array_sort compareRoutes [scoredNowhere hillRoute; scoredNowhere lakeA]).
Proof.
  assert (H : ForallOrdPairs clearlyApart [scoredNowhere hillRoute; scoredNowhere lakeA]).
  { repeat constructor. unfold clearlyApart. vm_compute. discriminate. }
  split; [exact H|].
  exact (@X22_ranking_is_by_score_outside_the_tie_band
           [scoredNowhere hillRoute; scoredNowhere lakeA] H).
Defined.

(** X23: a route without themes is similar to no route, and no route is
    similar to it: the theme overlap is then 0, so the diversity step
    never replaces the second pick on its account. *)
Theorem X23_routes_without_themes_are_never_similar :
  forall route1 route2 : Route,
    orDefault (themes route1) [] = [] \/ orDefault (themes route2) [] = [] ->
    areRoutesSimilar route1 route2 = false.
Proof. apply ScorerFacts.areRoutesSimilar_no_themes. Qed.

Lemma X23_plain_route_witness :
  (orDefault (themes nearRoute) [] = [] \/ orDefault (themes lakeA) [] = []) /\
  areRoutesSimilar nearRoute lakeA = false.
Proof.
  assert (H : orDefault (themes nearRoute) [] = [] \/ orDefault (themes lakeA) [] = [])
    by (left; reflexivity).
  split; [exact H|].
  exact (@X23_routes_without_themes_are_never_similar nearRoute lakeA H).
Defined.

(** X24: on routes whose theme lists hold no theme twice, similarity does
    not depend on the order of the two routes. *)
Theorem X24_similarity_is_symmetric_without_repeated_themes :
  forall route1 route2 : Route,
    NoDup (orDefault (themes route1) []) -> NoDup (orDefault (themes route2) []) ->
    areRoutesSimilar route1 route2 = areRoutesSimilar route2 route1.
Proof. apply ScorerFacts.areRoutesSimilar_sym. Qed.

Lemma X24_two_lakes_witness :
  NoDup (orDefault (themes lakeA) []) /\ NoDup (orDefault (themes lakeB) []) /\
  areRoutesSimilar lakeA lakeB = areRoutesSimilar lakeB lakeA.
Proof.
  assert (HA : NoDup (orDefault (themes lakeA) []))
    by (repeat constructor; simpl; intuition discriminate).
  assert (HB : NoDup (orDefault (themes lakeB) []))
    by (repeat constructor; simpl; intuition discriminate).
  split; [exact HA|]. split; [exact HB|].
  exact (@X24_similarity_is_symmetric_without_repeated_themes lakeA lakeB HA HB).
Defined.

(** X25: the personal facility score is the share of the needs that are
    set for which the route has a facility of that type, and 0.5 when no
    need is set. *)
Theorem X25_personal_facility_score_is_the_share_of_met_needs :
  forall (facilities_ : list Facility) (userNeeds : JsMap.t bool),
    calculatePersonalFacilityScore facilities_ userNeeds ==
    match wantedNeeds userNeeds with
    | [] => 0.5
    | _ :: _ => len (metNeeds facilities_ userNeeds) / len (wantedNeeds userNeeds)
    end.
Proof. apply ScorerFacts.calculatePersonalFacilityScore_share. Qed.

(** X26: [filterGeoJSONFeatures] keeps, in their order, exactly the
    features that start in London: those with a point, line or polygon
    geometry whose first position has a longitude within -0.5 .. 0.5 and
    a latitude within 51.2 .. 51.8.  Only the first position is looked
    at, and a geometry of any other type is always dropped.  A feature
    whose geometry is [null] makes the call throw. *)
Theorem X26_filterGeoJSONFeatures_keeps_what_starts_in_London :
  forall fs : list Layers.Feature,
    (Forall (fun f => Layers.geometry f <> None) fs ->
     Layers.filterGeoJSONFeatures (Some {| Layers.features := Some fs |}) =
     Returns (Some {| Layers.features := Some (filter Layers.startsInLondon fs) |})) /\
    (Exists (fun f => Layers.geometry f = None) fs ->
     Layers.filterGeoJSONFeatures (Some {| Layers.features := Some fs |}) = Throws TypeError) /\
    (forall f,
       Layers.startsInLondon f = true <->
       exists g coords lng lat,
         Layers.geometry f = Some g /\ Layers.first_coords g = Some coords /\
         nth_error coords 0 = Some lng /\ nth_error coords 1 = Some lat /\
         (- 0.5 <= lng <= 0.5)%R /\ (51.2 <= lat <= 51.8)%R) /\
    (forall f, Layers.geometry f = Some Layers.OtherGeometry -> Layers.startsInLondon f = false).
Proof.
  intros fs. split; [|split; [|split]].
  - intros Hall. unfold Layers.filterGeoJSONFeatures. cbn [Layers.features].
    now rewrite (@LayersFacts.forEach_push_spec fs [] Hall).
  - intros Hex. unfold Layers.filterGeoJSONFeatures. cbn [Layers.features].
    now rewrite (@LayersFacts.forEach_push_throws fs [] Hex).
  - apply LayersFacts.startsInLondon_spec.
  - intros f Hf. unfold Layers.startsInLondon. now rewrite Hf.
Qed.

(** X27: in [reloadPOI] the choices 'inside' and 'outside' do not split
    the points: 'inside' keeps the points within the park bounds,
    'outside' keeps the points that are not within the bounds
    142.35 .. 142.42, -38.12 .. -38.08 that its branch declares, whatever
    [getFilterBounds] returned, so every feature that 'inside' keeps is
    kept by 'outside' too.  Features that are not points are dropped by
    both. *)
Theorem X27_outside_filter_keeps_what_inside_keeps :
  forall fs : list Layers.Feature,
    Forall (fun f => Layers.geometry f <> None) fs ->
    exists inside outside,
      Layers.geoFilterFeatures "inside" fs = Returns inside /\
      Layers.geoFilterFeatures "outside" fs = Returns outside /\
      (forall f, In f inside <-> In f fs /\ Layers.pointIn Layers.parkBounds f = true) /\
      (forall f, In f outside <-> In f fs /\ Layers.pointNotIn Layers.outsideBounds f = true) /\
      incl inside outside.
Proof. apply LayersFacts.geoFilter_inside_outside. Qed.

Lemma X27_park_point_witness :
  Forall (fun f => Layers.geometry f <> None) [parkPoint] /\
  exists inside outside,
    Layers.geoFilterFeatures "inside" [parkPoint] = Returns inside /\
    Layers.geoFilterFeatures "outside" [parkPoint] = Returns outside /\
    (forall f, In f inside <-> In f [parkPoint] /\ Layers.pointIn Layers.parkBounds f = true) /\
    (forall f, In f outside <->
               In f [parkPoint] /\ Layers.pointNotIn Layers.outsideBounds f = true) /\
    incl inside outside.
Proof.
  assert (H : Forall (fun f => Layers.geometry f <> None) [parkPoint])
    by (repeat constructor; discriminate).
  split; [exact H|].
  exact (@X27_outside_filter_keeps_what_inside_keeps [parkPoint] H).
Defined.

(** X28: [limitFeatures] returns [min(maxCount, length)] of the given
    features, all of them when they are at most [maxCount]; when it cuts,
    it cuts from the end of the order toilets, then entrances, then the
    rest: a feature that ranks before a kept one is kept, so no toilet
    is cut while a feature that is not a toilet is kept. *)
Theorem X28_limitFeatures_cuts_the_lowest_ranks :
  forall (A : Type) (toilet entrance : A -> bool) (features_ : list A) (maxCount : nat),
    List.length (Layers.limitFeatures toilet entrance features_ maxCount) =
    Nat.min maxCount (List.length features_) /\
    incl (Layers.limitFeatures toilet entrance features_ maxCount) features_ /\
    ((List.length features_ <= maxCount)%nat ->
     Layers.limitFeatures toilet entrance features_ maxCount = features_) /\
    (forall a b,
       In a (Layers.limitFeatures toilet entrance features_ maxCount) -> In b features_ ->
       (Layers.priority toilet entrance b < Layers.priority toilet entrance a)%nat ->
       In b (Layers.limitFeatures toilet entrance features_ maxCount)) /\
    (forall a b,
       In a (Layers.limitFeatures toilet entrance features_ maxCount) -> toilet a = false ->
       In b features_ -> toilet b = true ->
       In b (Layers.limitFeatures toilet entrance features_ maxCount)).
Proof.
  intros A toilet entrance features_ maxCount.
  split; [apply LayersFacts.limitFeatures_length|].
  split; [apply LayersFacts.limitFeatures_incl|].
  split; [apply LayersFacts.limitFeatures_short|].
  split.
  - intros a b. apply LayersFacts.limitFeatures_keeps_the_first.
  - intros a b. apply LayersFacts.limitFeatures_toilets_first.
Qed.
